(** * redirect-checker: a shallow embedding of [src/index.js]

    The script reads (source, destination) rows from a CSV file, follows the
    redirect chain of every source URL and reports whether it is one clean
    permanent redirect to the wanted destination.

    The repository also holds an earlier version of the script, without
    chunks, retries or sorting; the development follows [index.js].

    Numbers are JavaScript numbers that only ever hold integers here, so they
    are modelled by [Z]. Strings are [string]; a value that may be [null] or
    [undefined] is an [option]. A CSV row (a JS object keyed by column name)
    is a [gmap string string]. *)

From Stdlib Require Import ZArith List Bool Lia Ascii String.
From stdpp Require Import base option strings gmap sorting.
From Equations Require Import Equations.
Import ListNotations.

#[local] Open Scope Z_scope.

(** ** Configuration ([CONFIG], index.js 15-33) *)

Record Config := {
  MAX_REDIRECTIONS : Z;
  MAX_RETRIES : Z;
  INITIAL_BACKOFF : Z;
  REQUEST_TIMEOUT : Z;
  CHUNK_SIZE : nat;
  CHUNK_DELAY : Z;
  PERMANENT_REDIRECT : list Z;
  COLUMN_SOURCE : string;
  COLUMN_DESTINATION : string
}.

Definition CONFIG : Config := {|
  MAX_REDIRECTIONS := 3;
  MAX_RETRIES := 3;
  INITIAL_BACKOFF := 1000;
  REQUEST_TIMEOUT := 10000;
  CHUNK_SIZE := 8;
  CHUNK_DELAY := 2000;
  PERMANENT_REDIRECT := [301; 308];
  COLUMN_SOURCE := "src";
  COLUMN_DESTINATION := "destination"
|}.

(** ** Data model *)

(** What [getHeaders] resolves with: [{statusCode, location}], where
    [location] is [null] when the response has no usable Location header. *)
Record Headers := { statusCode : Z; location : option string }.

(** One element of [redirectionsList]: [{location, code}]. *)
Record RedirectHop := { hop_location : option string; hop_code : Z }.

(** The object [checkURL] resolves with. [dest_actual] is [headers.location]
    in the hop-limit branch and [URLToCheck] otherwise, both of which
    JavaScript allows to be [null]. *)
Record Outcome := {
  code : Z;
  source : string;
  dest_wanted : string;
  dest_actual : option string;
  redirectCounter : Z;
  redirectsList : list RedirectHop;
  is_valid : bool
}.

(** JavaScript truthiness of a string-or-null value: [null], [undefined] and
    the empty string are falsy. *)
Definition truthy (v : option string) : bool :=
  match v with
  | Some s => negb (String.eqb s "")
  | None => false
  end.

(** [===] between two possibly-[undefined] numbers. *)
Definition strict_eq_num (a b : option Z) : bool :=
  match a, b with
  | Some x, Some y => Z.eqb x y
  | None, None => true
  | _, _ => false
  end.

(** ** Validity policy ([isRedirectValid], index.js 231-252) *)

Definition isRedirectValid (cfg : Config) (currentUrl targetUrl : string)
    (redirectsList : list RedirectHop) (redirectCount finalStatusCode : Z) : bool :=
  let first_code := hop_code <$> head redirectsList in
  String.eqb currentUrl targetUrl
  && Z.eqb redirectCount 1
  && (strict_eq_num first_code (nth_error (PERMANENT_REDIRECT cfg) 0)
      || strict_eq_num first_code (nth_error (PERMANENT_REDIRECT cfg) 1))
  && Z.eqb finalStatusCode 200.

(** ** Effects of one resolution

    A resolution talks to the outside world in three ways: it issues an HTTP
    request and is resumed with its outcome, it sleeps on a timer, and it
    prints to the console. A computation is a finite tree of these effects
    ending in a value (the promise is fulfilled) or in an error (the promise
    is rejected); [await] is [bind]. *)

Inductive Handler := Https | Http.

Record ParsedURL := {
  url_protocol : string;
  url_hostname : string;
  url_pathname : string;
  url_search : string
}.

Record RequestOptions := {
  opt_protocol : string;
  opt_hostname : string;
  opt_method : string;
  opt_path : string;
  opt_timeout : Z
}.

(** How a request ends, when it does: the ["end"] event of a response, with
    its status code and raw Location header, or the ["error"] event of the
    request, with [error.code]. These are the only two events the script
    listens for (index.js 309-343): the [timeout] option sets no listener,
    and neither ["timeout"] nor an error of the response is handled, so a
    request may also never end. [run] and the event loop below take every
    request to end; [run_or_hang] plays a computation against a network
    that may stay silent. *)
Inductive NetOutcome :=
| Response (status : Z) (location_header : option string)
| RequestFailed (error_code : string).

(** The errors the script can see: the [TypeError] of [new URL], the
    synchronous protocol error of [request], the error object of a request's
    or a stream's ["error"] event (with its [code]), and the script's own
    [new Error("No data found in CSV file")]. *)
Inductive JsError :=
| InvalidURL (input : option string)
| InvalidProtocol (protocol : string)
| NetworkError (error_code : string)
| StreamError (error_code : string)
| NoDataFound.

Inductive Prog (A : Type) : Type :=
| Ret (a : A)
| Throw (e : JsError)
| Request (h : Handler) (opts : RequestOptions) (k : NetOutcome -> Prog A)
| SetTimeout (ms : Z) (k : Prog A)
| ConsoleError (e : JsError) (k : Prog A).
Arguments Ret {A} a.
Arguments Throw {A} e.
Arguments Request {A} h opts k.
Arguments SetTimeout {A} ms k.
Arguments ConsoleError {A} e k.

Fixpoint bind {A B : Type} (p : Prog A) (f : A -> Prog B) : Prog B :=
  match p with
  | Ret a => f a
  | Throw e => Throw e
  | Request h opts k => Request h opts (fun o => bind (k o) f)
  | SetTimeout ms k => SetTimeout ms (bind k f)
  | ConsoleError e k => ConsoleError e (bind k f)
  end.

#[global] Instance Prog_ret : MRet Prog := fun A a => Ret a.
#[global] Instance Prog_bind : MBind Prog := fun A B f p => bind p f.

Section Resolver.

(** [new URL(s)] is the platform's WHATWG parser: [None] when it throws. *)
Variable parseURL : string -> option ParsedURL.
Variable cfg : Config.

Definition is_transient (error_code : string) : bool :=
  String.eqb error_code "ENOMEM" || String.eqb error_code "ECONNRESET".

Definition request_options (p : ParsedURL) : RequestOptions := {|
  opt_protocol := url_protocol p;
  opt_hostname := url_hostname p;
  opt_method := "GET";
  opt_path := url_pathname p ++ url_search p;
  opt_timeout := REQUEST_TIMEOUT cfg
|}.

Definition protocolHandler (p : ParsedURL) : Handler :=
  if String.eqb (url_protocol p) "https:" then Https else Http.

(** [http.request] and [https.request] throw synchronously when
    [options.protocol] is not their own protocol. *)
Definition handler_accepts (h : Handler) (protocol : string) : bool :=
  match h with
  | Https => String.eqb protocol "https:"
  | Http => String.eqb protocol "http:"
  end.

(** *** Header fetcher ([getHeaders], index.js 294-356)

    [retryCount] starts at 0 and only grows, so [Math.pow(2, retryCount)] is
    the integer power. The [timeout] option sets the socket's idle timeout;
    the script listens to no ["timeout"] event, so it ends no request. *)

Equations? getHeaders (urlToParse : string) (retryCount : Z) : Prog Headers
  by wf (Z.to_nat (MAX_RETRIES cfg - retryCount)) lt :=
getHeaders urlToParse retryCount :=
  match parseURL urlToParse with
  | None => Throw (InvalidURL (Some urlToParse))
  | Some parsedURL =>
      let options := request_options parsedURL in
      let h := protocolHandler parsedURL in
      if negb (handler_accepts h (opt_protocol options))
      then Throw (InvalidProtocol (opt_protocol options))
      else
        Request h options (fun res =>
          match res with
          | Response status location_header =>
              Ret {| statusCode := status;
                     location := if truthy location_header
                                 then location_header else None |}
          | RequestFailed error_code =>
              match is_transient error_code,
                    Z_lt_dec retryCount (MAX_RETRIES cfg) with
              | true, left _ =>
                  let backoffTime := INITIAL_BACKOFF cfg * 2 ^ retryCount in
                  SetTimeout backoffTime
                    (getHeaders urlToParse (retryCount + 1))
              | _, _ =>
                  ConsoleError (NetworkError error_code)
                    (Throw (NetworkError error_code))
              end
          end)
  end.
Proof. lia. Qed.

(** *** Redirect resolver ([checkURL], index.js 163-221)

    [redirectionsList] and [redirectionsCount] are locals of [checkURL]
    that the inner [check] mutates; here they are threaded through [check].
    [resolve] and [reject] of the surrounding promise become [Ret] and
    [Throw]. *)

Section CheckURL.

(** The second parameter is [dest_wanted] in the source; it is [wanted]
    here because [dest_wanted] names the field of the result. *)
Variables (src wanted : string) (maxRedirections : Z).

(** [headers ? headers.location : src]. It is [null] only if [check] were
    entered with headers that have no Location; [new URL(null)] throws. *)
Definition URLToCheck_of (headers : option Headers) : option string :=
  match headers with
  | Some h => location h
  | None => Some src
  end.

(** The [if (headers?.location) { push; count++ }] block. *)
Definition follow_hop (headers : option Headers)
    (redirectionsList : list RedirectHop) (redirectionsCount : Z)
    : list RedirectHop * Z :=
  match headers with
  | Some h =>
      if truthy (location h)
      then (redirectionsList
              ++ [{| hop_location := location h;
                     hop_code := statusCode h |}],
            redirectionsCount + 1)
      else (redirectionsList, redirectionsCount)
  | None => (redirectionsList, redirectionsCount)
  end.

(** [headers !== null && redirectionsCount >= maxRedirections]: the
    headers to report when the hop limit stops the resolution. *)
Definition hop_limit_reached (headers : option Headers)
    (redirectionsCount : Z) : option Headers :=
  match headers with
  | Some h => if maxRedirections <=? redirectionsCount then Some h else None
  | None => None
  end.

Definition check_measure (headers : option Headers)
    (redirectionsCount : Z) : nat :=
  (Z.to_nat (maxRedirections - (follow_hop headers [] redirectionsCount).2)
   + (if headers is Some _ then 0 else 1))%nat.

Definition inspect_option {A : Type} (o : option A)
    : {a : A | o = Some a} + {o = None} :=
  match o with
  | Some a => inleft (exist _ a eq_refl)
  | None => inright eq_refl
  end.

Equations? check (headers : option Headers)
    (redirectionsList : list RedirectHop) (redirectionsCount : Z)
    : Prog Outcome
  by wf (check_measure headers redirectionsCount) lt :=
check headers redirectionsList0 redirectionsCount0 :=
  let URLToCheck := URLToCheck_of headers in
  let redirectionsList :=
    (follow_hop headers redirectionsList0 redirectionsCount0).1 in
  let redirectionsCount :=
    (follow_hop headers redirectionsList0 redirectionsCount0).2 in
  match inspect_option (hop_limit_reached headers redirectionsCount) with
  | inleft (exist _ h _) =>
      Ret {| code := statusCode h;
             source := src;
             dest_wanted := wanted;
             dest_actual := location h;
             redirectCounter := redirectionsCount;
             redirectsList := redirectionsList;
             is_valid := false |}
  | inright _ =>
      match URLToCheck with
      | None => Throw (InvalidURL None)
      | Some u =>
          headers' ← getHeaders u 0;
          match bool_dec (truthy (location headers')) true with
          | left _ =>
              check (Some headers') redirectionsList redirectionsCount
          | right _ =>
              Ret {| code := statusCode headers';
                     source := src;
                     dest_wanted := wanted;
                     dest_actual := URLToCheck;
                     redirectCounter := redirectionsCount;
                     redirectsList := redirectionsList;
                     is_valid :=
                       isRedirectValid cfg u wanted redirectionsList
                         redirectionsCount (statusCode headers') |}
          end
      end
  end.
Proof.
  unfold check_measure, hop_limit_reached in *.
  cbn [follow_hop]. rewrite e0. subst redirectionsCount. cbn [snd].
  unfold follow_hop in *.
  destruct headers as [h|]; [|cbn [snd]; lia].
  destruct (truthy (location h)); cbn [snd] in *.
  all: match type of e with
       | (if ?b then _ else _) = _ => destruct (Z.leb_spec0 maxRedirections
           ltac:(match b with _ <=? ?c => exact c end)); [discriminate|lia]
       end.
Qed.

Definition checkURL : Prog Outcome := check None [] 0.

End CheckURL.

End Resolver.

(** ** Running one computation on its own

    [run net p n] plays [p] to its end against the network [net], which maps
    the serial number of a request and its options to the way it ends, and
    returns how the promise settles together with everything [p] did, in
    order. [n] is the number of requests issued so far. *)

Inductive Action :=
| Requested (h : Handler) (opts : RequestOptions)
| Waited (ms : Z)
| Printed (e : JsError).

Fixpoint run {A : Type} (net : nat -> RequestOptions -> NetOutcome)
    (p : Prog A) (n : nat) : (JsError + A) * list Action :=
  match p with
  | Ret a => (inr a, [])
  | Throw e => (inl e, [])
  | Request h opts k =>
      let '(r, tr) := run net (k (net n opts)) (S n) in
      (r, Requested h opts :: tr)
  | SetTimeout ms k =>
      let '(r, tr) := run net k n in (r, Waited ms :: tr)
  | ConsoleError e k =>
      let '(r, tr) := run net k n in (r, Printed e :: tr)
  end.

(** The requests among the actions of a run. *)
Definition is_request (a : Action) : bool :=
  match a with Requested _ _ => true | _ => false end.

(** [all_rets P p]: every value [p] can be fulfilled with satisfies [P],
    whatever the network answers. *)
Fixpoint all_rets {A : Type} (P : A -> Prop) (p : Prog A) : Prop :=
  match p with
  | Ret a => P a
  | Throw _ => True
  | Request _ _ k => forall o, all_rets P (k o)
  | SetTimeout _ k => all_rets P k
  | ConsoleError _ k => all_rets P k
  end.

(** ** The report (index.js 49-56, 122-145) *)

Abbreviation Row := (gmap string string).

Record Result := { valid : Z; invalid : Z; total : Z }.

Record Report := { result : Result; urls : list Outcome }.

Definition empty_report : Report :=
  {| result := {| valid := 0; invalid := 0; total := 0 |}; urls := [] |}.

(** What follows [await checkURL(...)] in the callback of [chunk.map]: three
    updates of the shared report with no [await] between them. *)
Definition count_total (r : Result) : Result :=
  {| valid := valid r; invalid := invalid r; total := total r + 1 |}.

Definition count_verdict (parsedURL : Outcome) (r : Result) : Result :=
  if is_valid parsedURL
  then {| valid := valid r + 1; invalid := invalid r; total := total r |}
  else {| valid := valid r; invalid := invalid r + 1; total := total r |}.

Definition record_outcome (parsedURL : Outcome) (report : Report) : Report :=
  {| result := count_verdict parsedURL (count_total (result report));
     urls := urls report ++ [parsedURL] |}.

(** ** Sorting and formatting the report (index.js 60-77) *)

Record FormattedUrl := { url : Outcome; status : string }.

Record FinalReport := { final_result : Result; final_urls : list FormattedUrl }.

Definition format_url (u : Outcome) : FormattedUrl :=
  {| url := u; status := if is_valid u then "✅" else "❌" |}.

(** [Array.prototype.sort] is a stable sort; with a consistent comparator its
    result is the one stable ordering, which insertion from the right
    computes. [cmp a b <= 0] keeps [a] before [b]. *)
Fixpoint sort_insert {A : Type} (cmp : A -> A -> Z) (x : A) (l : list A) : list A :=
  match l with
  | [] => [x]
  | y :: l' => if cmp x y <=? 0 then x :: y :: l' else y :: sort_insert cmp x l'
  end.

Definition Array_sort {A : Type} (cmp : A -> A -> Z) (l : list A) : list A :=
  foldr (sort_insert cmp) [] l.

Section Report.

(** [String.prototype.localeCompare], the platform's collation. *)
Variable localeCompare : string -> string -> Z.

Definition compare_urls (a b : FormattedUrl) : Z :=
  if negb (Bool.eqb (is_valid (url a)) (is_valid (url b)))
  then (if is_valid (url a) then 1 else -1)
  else localeCompare (source (url a)) (source (url b)).

Definition finalReport (report : Report) : FinalReport :=
  {| final_result := result report;
     final_urls := Array_sort compare_urls (format_url <$> urls report) |}.

End Report.

(** ** The event loop

    The script runs on one thread. Between two turns of the event loop the
    only things in flight are HTTP requests, backoff timers and the timer of
    the pause between chunks. Each is an [Event] with the time it is due; a
    resolution's event carries the rest of its computation, with the outcome
    of the request already passed to it. When an event fires, JavaScript runs
    the code waiting for it up to its next [await] without interruption: one
    [step] of the model. *)

Inductive Job :=
| Resolution (chunk : nat) (rest : Prog Outcome)
| ChunkDelay.

Record Event := { due : Z; job : Job }.

(** Where [main] stands: before [processUrls]; inside
    [await Promise.all(...)] of the chunk that starts at row [i], with
    [unsettled] of its promises still pending; inside
    [await delay(CONFIG.CHUNK_DELAY)] after that chunk; or past the end of the
    [try] block. *)
Inductive Phase :=
| Starting
| AwaitingAll (i : nat) (unsettled : nat)
| Delaying (i : nat)
| Finished.

Inductive ConsoleLine :=
| WarnRowMissingColumns (row : Row)
| LogValidRedirect (o : Outcome)
| LogInvalidRedirect (o : Outcome)
| ErrorFailedToFetch (e : JsError)
| ErrorProcessingChunk (e : JsError)
| ErrorInMain (e : JsError)
| LogReportGenerated.

Record RequestRecord := {
  req_time : Z;
  req_chunk : nat;
  req_handler : Handler;
  req_options : RequestOptions
}.

Record State := {
  now : Z;
  requests : list RequestRecord;
  pending : list Event;
  phase : Phase;
  report : Report;
  console : list ConsoleLine;
  written : option FinalReport;
  exit_code : option Z
}.

Definition set_now (t : Z) (s : State) : State :=
  {| now := t; requests := requests s; pending := pending s;
     phase := phase s; report := report s; console := console s;
     written := written s; exit_code := exit_code s |}.

Definition set_pending (evs : list Event) (s : State) : State :=
  {| now := now s; requests := requests s; pending := evs;
     phase := phase s; report := report s; console := console s;
     written := written s; exit_code := exit_code s |}.

Definition set_phase (ph : Phase) (s : State) : State :=
  {| now := now s; requests := requests s; pending := pending s;
     phase := ph; report := report s; console := console s;
     written := written s; exit_code := exit_code s |}.

Definition set_report (r : Report) (s : State) : State :=
  {| now := now s; requests := requests s; pending := pending s;
     phase := phase s; report := r; console := console s;
     written := written s; exit_code := exit_code s |}.

Definition set_written (w : FinalReport) (s : State) : State :=
  {| now := now s; requests := requests s; pending := pending s;
     phase := phase s; report := report s; console := console s;
     written := Some w; exit_code := exit_code s |}.

Definition print (line : ConsoleLine) (s : State) : State :=
  {| now := now s; requests := requests s; pending := pending s;
     phase := phase s; report := report s; console := console s ++ [line];
     written := written s; exit_code := exit_code s |}.

Definition log_request (r : RequestRecord) (s : State) : State :=
  {| now := now s; requests := requests s ++ [r]; pending := pending s;
     phase := phase s; report := report s; console := console s;
     written := written s; exit_code := exit_code s |}.

Definition schedule (delay : Z) (j : Job) (s : State) : State :=
  set_pending (pending s ++ [{| due := now s + delay; job := j |}]) s.

(** How a promise stands after the code behind it ran to its next [await]. *)
Inductive Settlement (A : Type) :=
| StillPending
| Fulfilled (a : A)
| Rejected (e : JsError).
Arguments StillPending {A}.
Arguments Fulfilled {A} a.
Arguments Rejected {A} e.

Section Scheduler.

Variable parseURL : string -> option ParsedURL.
Variable localeCompare : string -> string -> Z.
Variable cfg : Config.

(** The network: the request with serial number [n] and options [opts]
    ends after [latency] milliseconds in [outcome]. *)
Variable net : nat -> RequestOptions -> Z * NetOutcome.

(** Run the code of a resolution up to its next [await]. *)
Fixpoint drive (i : nat) (p : Prog Outcome) (s : State)
    : State * Settlement Outcome :=
  match p with
  | Ret o => (s, Fulfilled o)
  | Throw e => (s, Rejected e)
  | Request h opts k =>
      let '(latency, res) := net (length (requests s)) opts in
      (schedule latency (Resolution i (k res))
         (log_request {| req_time := now s; req_chunk := i;
                         req_handler := h; req_options := opts |} s),
       StillPending)
  | SetTimeout ms k => (schedule ms (Resolution i k) s, StillPending)
  | ConsoleError e k => drive i k (print (ErrorFailedToFetch e) s)
  end.

(** *** The callback of [chunk.map] (index.js 109-146) *)

(** The code after [await checkURL(...)]. *)
Definition callback_record (parsedURL : Outcome) (s : State) : State :=
  set_report (record_outcome parsedURL (report s))
    (print (if is_valid parsedURL
            then LogValidRedirect parsedURL
            else LogInvalidRedirect parsedURL) s).

Definition callback_resume (i : nat) (p : Prog Outcome) (s : State)
    : State * Settlement unit :=
  match drive i p s with
  | (s', StillPending) => (s', StillPending)
  | (s', Fulfilled parsedURL) => (callback_record parsedURL s', Fulfilled ())
  | (s', Rejected e) => (s', Rejected e)
  end.

(** [!sourceUrl || !destinationUrl] *)
Definition missing_urls (item : Row) : bool :=
  negb (truthy (item !! COLUMN_SOURCE cfg))
  || negb (truthy (item !! COLUMN_DESTINATION cfg)).

(** Both URLs are strings once [missing_urls] is false; the outer [match]
    only gets hold of them. *)
Definition callback (i : nat) (item : Row) (s : State)
    : State * Settlement unit :=
  match item !! COLUMN_SOURCE cfg, item !! COLUMN_DESTINATION cfg with
  | Some sourceUrl, Some destinationUrl =>
      if missing_urls item then (s, Fulfilled ())
      else callback_resume i
             (checkURL parseURL cfg sourceUrl destinationUrl
                (MAX_REDIRECTIONS cfg)) s
  | _, _ => (s, Fulfilled ())
  end.

(** *** [processUrls] (index.js 94-154) *)

(** [await delay(CONFIG.CHUNK_DELAY)] after the chunk at [i]. *)
Definition after_chunk (i : nat) (s : State) : State :=
  schedule (CHUNK_DELAY cfg) ChunkDelay (set_phase (Delaying i) s).

(** [catch (error) { console.error("Error processing chunk:", error) }] *)
Definition catch_chunk (i : nat) (e : JsError) (s : State) : State :=
  after_chunk i (print (ErrorProcessingChunk e) s).

(** [chunk.map(callback)]: every callback runs to its first [await], in
    order. The result counts the promises left pending and keeps the first
    rejection, which is the one [Promise.all] rejects with. *)
Definition map_callbacks (i : nat) (chunk : list Row) (s : State)
    : State * nat * option JsError :=
  foldl (fun acc item =>
           let '(s, unsettled, rejection) := acc in
           match callback i item s with
           | (s', StillPending) => (s', S unsettled, rejection)
           | (s', Fulfilled _) => (s', unsettled, rejection)
           | (s', Rejected e) =>
               (s', unsettled,
                if rejection is Some _ then rejection else Some e)
           end)
        (s, O, None) chunk.

(** [await Promise.all(chunk.map(...))] up to the point where [main]
    suspends: [Promise.all] rejects with the first rejection and is
    fulfilled when nothing is pending. *)
Definition start_chunk (i : nat) (chunk : list Row) (s : State) : State :=
  let '(s', unsettled, rejection) := map_callbacks i chunk s in
  match rejection with
  | Some e => catch_chunk i e s'
  | None =>
      if Nat.eqb unsettled 0 then after_chunk i s'
      else set_phase (AwaitingAll i unsettled) s'
  end.

(** What a settled callback of chunk [i] means to [Promise.all]: nothing
    unless [main] still awaits that very chunk. *)
Definition settle_callback (i : nat) (r : Settlement unit) (s : State) : State :=
  match phase s, r with
  | AwaitingAll i' unsettled, Fulfilled _ =>
      if Nat.eqb i i'
      then (if Nat.eqb unsettled 1 then after_chunk i s
            else set_phase (AwaitingAll i (Nat.pred unsettled)) s)
      else s
  | AwaitingAll i' _, Rejected e =>
      if Nat.eqb i i' then catch_chunk i e s else s
  | _, _ => s
  end.

(** The end of [main]'s [try] block (index.js 60-82), once [processUrls]
    has returned, in the case where [getReportFilePath] and [writeFileSync]
    do not throw. Were one of them to throw, [main]'s [catch] would print
    the error and exit with status 1; that case is not modelled, so what is
    stated of a state in the phase [Finished] is stated of a run whose
    report could be written. *)
Definition finish (s : State) : State :=
  print LogReportGenerated
    (set_written (finalReport localeCompare (report s))
       (set_phase Finished s)).

Section ProcessUrls.

Variable data : list Row.

(** [processUrls] from the test of its [for] loop at index [i] up to the
    point where it suspends, or returns and [main] goes on to its end. [main]
    enters it at index 0, and the timer of the pause re-enters it at the
    next index. *)
Definition processUrls (i : nat) (s : State) : State :=
  if Nat.ltb i (length data)
  then start_chunk i (take (CHUNK_SIZE cfg) (drop i data)) s
  else finish s.

Definition fire (ev : Event) (s : State) : State :=
  match job ev with
  | Resolution i p =>
      let '(s', r) := callback_resume i p s in settle_callback i r s'
  | ChunkDelay =>
      match phase s with
      | Delaying i => processUrls (i + CHUNK_SIZE cfg) s
      | _ => s
      end
  end.

(** Fire the [k]-th pending event. It must be one of those due first, and
    the process must not have exited. *)
Definition step (k : nat) (s : State) : option State :=
  match exit_code s, pending s !! k with
  | None, Some ev =>
      if forallb (fun ev' => due ev <=? due ev') (pending s)
      then Some (fire ev (set_pending (delete k (pending s))
                            (set_now (Z.max (now s) (due ev)) s)))
      else None
  | _, _ => None
  end.

End ProcessUrls.

(** *** Reading the input ([getData], index.js 259-286) *)

(** What the stream returned by [csv()] emits, the one [getData] listens to:
    a ["data"] event per row, then ["end"] or an ["error"] event with its
    code. An error of the file stream that feeds it, such as a file that
    cannot be opened, is not among them: [pipe] does not forward it and the
    file stream has no listener, so [getData] does not reject on it and
    [main]'s [catch] does not run. Such a run is not modelled. *)
Record CsvStream := { stream_rows : list Row; stream_error : option string }.

(** The ["data"] handler warns about a row without its two URLs and keeps
    it all the same. *)
Definition getData_warnings (rows : list Row) : list ConsoleLine :=
  WarnRowMissingColumns <$> List.filter missing_urls rows.

Definition getData (input : CsvStream) : JsError + list Row :=
  let results := stream_rows input in
  match stream_error input with
  | Some c => inl (StreamError c)
  | None =>
      if Nat.eqb (length results) 0 then inl NoDataFound else inr results
  end.

(** *** [main] (index.js 39-87), after the CSV file has been chosen *)

Definition boot (input : CsvStream) : State :=
  {| now := 0; requests := []; pending := []; phase := Starting;
     report := empty_report;
     console := getData_warnings (stream_rows input);
     written := None; exit_code := None |}.

(** [catch (error) { console.error(...); process.exit(1) }] *)
Definition catch_main (e : JsError) (s : State) : State :=
  {| now := now s; requests := requests s; pending := pending s;
     phase := phase s; report := report s;
     console := console s ++ [ErrorInMain e];
     written := written s; exit_code := Some 1 |}.

Definition main (input : CsvStream) : State :=
  match getData input with
  | inl e => catch_main e (boot input)
  | inr data => processUrls data 0 (boot input)
  end.

(** The states the program passes through between two turns of the event
    loop. *)
Inductive reachable (input : CsvStream) : State -> Prop :=
| reachable_main : reachable input (main input)
| reachable_step s k s' :
    reachable input s ->
    step (stream_rows input) k s = Some s' ->
    reachable input s'.

(** Fire the events with the given indices one after the other. *)
Definition run_events (data : list Row) (ks : list nat) (s : State)
    : option State :=
  foldl (fun os k => os ≫= step data k) (Some s) ks.

(** The exit status of the process, once it has one: that of
    [process.exit], or 0 when nothing is left to wait for. *)
Definition exit_status (s : State) : option Z :=
  match exit_code s with
  | Some c => Some c
  | None => if pending s is [] then Some 0 else None
  end.

End Scheduler.

(** ** A small world to run the program in

    An instance of the platform's functions for the examples: a URL parser
    that accepts [scheme://host/path] for any scheme, splits it at the first
    slash after the host and knows no query strings, and a collation that
    compares strings by their length. *)

Module World.

Fixpoint split_slash (s : string) : string * string :=
  match s with
  | EmptyString => (EmptyString, "/"%string)
  | String c s' =>
      if Ascii.eqb c "/"%char then (EmptyString, s)
      else let '(host, path) := split_slash s' in (String c host, path)
  end.

Fixpoint find_scheme (s : string) : option (string * string) :=
  match s with
  | String ":" (String "/" (String "/" rest)) => Some (":"%string, rest)
  | String c s' =>
      match find_scheme s' with
      | Some (scheme, rest) => Some (String c scheme, rest)
      | None => None
      end
  | EmptyString => None
  end.

Definition parseURL (s : string) : option ParsedURL :=
  match find_scheme s with
  | Some (scheme, rest) =>
      let '(host, path) := split_slash rest in
      if String.eqb host "" then None
      else Some {| url_protocol := scheme; url_hostname := host;
                   url_pathname := path; url_search := "" |}
  | None => None
  end.

Definition localeCompare (a b : string) : Z :=
  Z.of_nat (String.length a) - Z.of_nat (String.length b).

Definition row (src destination : string) : Row :=
  {[ "src"%string := src; "destination"%string := destination ]}.

(** A network that answers the requests with the outcomes of a list, in
    order, and with a plain 200 after that. *)
Definition scripted (l : list NetOutcome) (n : nat) (opts : RequestOptions)
    : NetOutcome :=
  nth n l (Response 200 None).

(** What a resolution reported, if it was fulfilled. *)
Definition verdict (r : (JsError + Outcome) * list Action)
    : option (bool * Z * Z) :=
  match r.1 with
  | inr o => Some (is_valid o, redirectCounter o, code o)
  | inl _ => None
  end.

(** A network that resets the first two connections and then answers. *)
Definition flaky_net (n : nat) (opts : RequestOptions) : NetOutcome :=
  if Nat.ltb n 2 then RequestFailed "ECONNRESET" else Response 200 None.

(** A network on which everything redirects to [target]. *)
Definition redirecting_net (target : string) (n : nat) (opts : RequestOptions)
    : NetOutcome :=
  Response 301 (Some target).

Definition parsed (protocol hostname pathname : string) : ParsedURL :=
  {| url_protocol := protocol; url_hostname := hostname;
     url_pathname := pathname; url_search := "" |}.

(** Sixteen rows, two chunks of eight; the source of the first row is not
    a URL. *)
Definition sixteen_rows : list Row :=
  row "not a url" "https://a.example/new"
    :: repeat (row "http://a.example/old" "https://a.example/new") 15.

(** A file of one row that has no [src] column. *)
Definition file_without_src : CsvStream :=
  {| stream_rows := [{[ "destination"%string := "https://a.example/new"%string ]}];
     stream_error := None |}.

Definition empty_file : CsvStream :=
  {| stream_rows := []; stream_error := None |}.

Definition sixteen_row_file : CsvStream :=
  {| stream_rows := sixteen_rows; stream_error := None |}.

Definition outcome (src : string) (ok : bool) : Outcome :=
  {| code := 200; source := src; dest_wanted := "https://a.example/new";
     dest_actual := Some "https://a.example/new"%string;
     redirectCounter := 1;
     redirectsList :=
       [{| hop_location := Some "https://a.example/new"%string;
           hop_code := if ok then 301 else 302 |}];
     is_valid := ok |}.

(** The state at the end of [processUrls] after three resolutions. *)
Definition three_outcomes : State :=
  {| now := 6000; requests := []; pending := []; phase := Delaying 0;
     report :=
       record_outcome (outcome "http://a.example/long" false)
         (record_outcome (outcome "http://a.example/b" false)
            (record_outcome (outcome "http://a.example/a" true)
               empty_report));
     console := []; written := None; exit_code := None |}.

(** A file of one row, and a network that answers its source with a
    permanent redirect and everything else with a plain 200, each after a
    tenth of a second. *)
Definition one_row_file : CsvStream :=
  {| stream_rows := [row "http://a.example/old" "https://a.example/new"];
     stream_error := None |}.

Definition one_hop_net (n : nat) (opts : RequestOptions) : Z * NetOutcome :=
  (100, scripted [Response 301 (Some "https://a.example/new"%string)] n opts).

(** A network on which every request is answered, without a Location
    header, after five seconds. *)
Definition slow_net (n : nat) (opts : RequestOptions) : Z * NetOutcome :=
  (5000, Response 200 None).


(** The default configuration with a chunk size of zero. *)
Definition no_chunks : Config :=
  {| MAX_REDIRECTIONS := 3; MAX_RETRIES := 3; INITIAL_BACKOFF := 1000;
     REQUEST_TIMEOUT := 10000; CHUNK_SIZE := 0; CHUNK_DELAY := 2000;
     PERMANENT_REDIRECT := [301; 308]; COLUMN_SOURCE := "src";
     COLUMN_DESTINATION := "destination" |}.



(** A network that resets the first two connections and leaves the third
    request without an answer. *)
Definition reset_then_silent (n : nat) (opts : RequestOptions)
    : option NetOutcome :=
  if Nat.ltb n 2 then Some (RequestFailed "ECONNRESET") else None.



(** Nine rows, a chunk of eight and a chunk of one, and a network on which
    every request is answered, without a Location header, after a tenth of
    a second. *)
Definition nine_row_file : CsvStream :=
  {| stream_rows := repeat (row "http://a.example/old" "https://a.example/new") 9;
     stream_error := None |}.

Definition quick_net (n : nat) (opts : RequestOptions) : Z * NetOutcome :=
  (100, Response 200 None).


End World.

(** ** Vocabulary of the statements *)

Section Vocabulary.

Variable parseURL : string -> option ParsedURL.
Variable cfg : Config.

(** [getHeaders] gets as far as issuing a request for [u]: the URL parses
    into [p] and its protocol is the one of the chosen module. *)
Definition fetchable (u : string) (p : ParsedURL) : Prop :=
  parseURL u = Some p
  /\ handler_accepts (protocolHandler p) (url_protocol p) = true.

(** What [getHeaders] resolves with for a response. *)
Definition headers_of (status : Z) (location_header : option string) : Headers :=
  {| statusCode := status;
     location := if truthy location_header then location_header else None |}.

(** The actions of [k] failed attempts for [p], the first with retry count
    [r]: each is the request followed by its backoff. *)
Fixpoint failed_attempts (p : ParsedURL) (r : Z) (k : nat) : list Action :=
  match k with
  | O => []
  | S k' =>
      Requested (protocolHandler p) (request_options cfg p)
        :: Waited (INITIAL_BACKOFF cfg * 2 ^ r)
        :: failed_attempts p (r + 1) k'
  end.

(** The first [k] requests from serial number [n] on fail with a transient
    error. *)
Definition transient_until (net : nat -> RequestOptions -> NetOutcome)
    (p : ParsedURL) (n k : nat) : Prop :=
  forall j, (j < k)%nat ->
    exists c, net (n + j)%nat (request_options cfg p) = RequestFailed c
              /\ is_transient c = true.

(** Every request gets a response with a Location header that can be
    fetched in turn. *)
Definition always_redirects (net : nat -> RequestOptions -> NetOutcome) : Prop :=
  forall n opts, exists status loc p,
    net n opts = Response status (Some loc)
    /\ truthy (Some loc) = true
    /\ fetchable loc p.

(** [u] is the target of one of the requests of a run. *)
Definition fetched (u : string) (tr : list Action) : Prop :=
  exists p, parseURL u = Some p
            /\ In (Requested (protocolHandler p) (request_options cfg p)) tr.

(** What holds of an outcome: its chain is as long as its hop count, and if
    the hop count has reached the limit [maxRedirections] then its code and
    destination are those of the last hop of its chain and it is not
    valid. *)
Definition reports_last_hop (maxRedirections : Z) (o : Outcome) : Prop :=
  Z.of_nat (length (redirectsList o)) = redirectCounter o
  /\ (1 <= redirectCounter o -> maxRedirections <= redirectCounter o ->
      exists hop, last (redirectsList o) = Some hop
                  /\ code o = hop_code hop
                  /\ dest_actual o = hop_location hop
                  /\ is_valid o = false).

(** The counting invariant of the report, and of the report as written. *)
Definition consistent (r : Report) : Prop :=
  total (result r) = valid (result r) + invalid (result r)
  /\ total (result r) = Z.of_nat (length (urls r)).

Definition consistent_final (w : FinalReport) : Prop :=
  total (final_result w) = valid (final_result w) + invalid (final_result w)
  /\ total (final_result w) = Z.of_nat (length (final_urls w)).

Definition counts_hold (s : State) : Prop :=
  consistent (report s)
  /\ forall w, written s = Some w -> consistent_final w.

Definition request_count (tr : list Action) : Z :=
  Z.of_nat (length (List.filter is_request tr)).

Section Outcomes.

Variables (src wanted : string).

(** The record [check] resolves with at the hop limit. *)
Definition truncated (h : Headers) (l : list RedirectHop) (c : Z) : Outcome :=
  {| code := statusCode h; source := src; dest_wanted := wanted;
     dest_actual := location h; redirectCounter := c;
     redirectsList := l; is_valid := false |}.

(** The record [check] resolves with when a response has no Location. *)
Definition completed (u : string) (h : Headers) (l : list RedirectHop)
    (c : Z) : Outcome :=
  {| code := statusCode h; source := src; dest_wanted := wanted;
     dest_actual := Some u; redirectCounter := c; redirectsList := l;
     is_valid := isRedirectValid cfg u wanted l c (statusCode h) |}.

End Outcomes.

End Vocabulary.

(** A resolution started in the chunk at row [i] is still in flight. *)
Definition in_flight (i : nat) (s : State) : bool :=
  existsb (fun ev => match job ev with
                     | Resolution i' _ => Nat.eqb i i'
                     | ChunkDelay => false
                     end) (pending s).

(** A request has been issued for the chunk at row [j]. *)
Definition chunk_started (j : nat) (s : State) : bool :=
  existsb (fun r => Nat.eqb (req_chunk r) j) (requests s).

(** The number of resolutions waiting for a response or a backoff timer. *)
Definition resolutions_in_flight (s : State) : nat :=
  length (List.filter (fun ev => match job ev with
                                 | Resolution _ _ => true
                                 | ChunkDelay => false
                                 end) (pending s)).

(** What the specification asks of the scheduler: no chunk has started while
    a resolution of an earlier chunk is in flight. *)
Definition chunks_sequential (s : State) : Prop :=
  forall i j, (i < j)%nat -> in_flight i s = true -> chunk_started j s = false.

(** No rejection of [Promise.all] has been caught so far. *)
Definition quiet_line (l : ConsoleLine) : Prop :=
  match l with
  | ErrorProcessingChunk _ => False
  | _ => True
  end.

Definition no_rejection (s : State) : Prop := Forall quiet_line (console s).

Definition resolution_of (i : nat) (ev : Event) : Prop :=
  exists p, job ev = Resolution i p.

(** [s'] is [s] after the callbacks of chunk [i] ran for a while: [k] more
    resolutions of that chunk wait for an event, its requests were added,
    and nothing was caught. *)
Definition extends (i k : nat) (s s' : State) : Prop :=
  phase s' = phase s
  /\ (exists lines, console s' = console s ++ lines /\ Forall quiet_line lines)
  /\ (exists evs, pending s' = pending s ++ evs
                  /\ length evs = k
                  /\ Forall (resolution_of i) evs)
  /\ (exists recs, requests s' = requests s ++ recs
                   /\ Forall (fun r => req_chunk r = i) recs).

(** The scheduler as the specification describes it: while the chunk at row
    [i] is awaited, exactly its unsettled resolutions are in flight, at most
    [chunk_size] of them, and during the pause nothing but the timer is. *)
Definition orderly (chunk_size : nat) (s : State) : Prop :=
  match phase s with
  | Starting => pending s = []
  | AwaitingAll i n =>
      (0 < n <= chunk_size)%nat
      /\ length (pending s) = n
      /\ Forall (resolution_of i) (pending s)
      /\ Forall (fun r => (req_chunk r <= i)%nat) (requests s)
  | Delaying i =>
      (exists t, pending s = [{| due := t; job := ChunkDelay |}])
      /\ Forall (fun r => (req_chunk r <= i)%nat) (requests s)
  | Finished => pending s = []
  end.

(** ** Vocabulary of the further properties *)

(** [all_requests Q p]: every request [p] can issue satisfies [Q], whatever
    the network answers. *)
Fixpoint all_requests {A : Type} (Q : Handler -> RequestOptions -> Prop)
    (p : Prog A) : Prop :=
  match p with
  | Ret _ => True
  | Throw _ => True
  | Request h opts k => Q h opts /\ forall o, all_requests Q (k o)
  | SetTimeout _ k => all_requests Q k
  | ConsoleError _ k => all_requests Q k
  end.

(** The milliseconds a run spent on timers. *)
Fixpoint wait_total (tr : list Action) : Z :=
  match tr with
  | [] => 0
  | Waited ms :: tr' => ms + wait_total tr'
  | _ :: tr' => wait_total tr'
  end.

(** A header as [getHeaders] hands it on: no Location, or a non-empty one. *)
Definition normalised (h : Headers) : Prop :=
  location h = None \/ truthy (location h) = true.


(** A request as [getHeaders] builds it: a GET with the configured timeout,
    handed to the module of its protocol. *)
Definition well_formed_request (cfg : Config) (h : Handler)
    (opts : RequestOptions) : Prop :=
  opt_method opts = "GET"%string
  /\ opt_timeout opts = REQUEST_TIMEOUT cfg
  /\ (h = Https /\ opt_protocol opts = "https:"%string
      \/ h = Http /\ opt_protocol opts = "http:"%string).

(** What holds of every outcome of [checkURL src wanted maxRedirections]. *)
Definition faithful_outcome (cfg : Config) (src wanted : string)
    (maxRedirections : Z) (o : Outcome) : Prop :=
  source o = src
  /\ dest_wanted o = wanted
  /\ Z.of_nat (length (redirectsList o)) = redirectCounter o
  /\ redirectCounter o <= Z.max 1 maxRedirections
  /\ Forall (fun hop => truthy (hop_location hop) = true) (redirectsList o)
  /\ dest_actual o = match last (redirectsList o) with
                     | Some hop => hop_location hop
                     | None => Some src
                     end
  /\ (is_valid o = true ->
      redirectCounter o < maxRedirections
      /\ isRedirectValid cfg wanted wanted (redirectsList o)
           (redirectCounter o) (code o) = true
      /\ dest_actual o = Some wanted).


(** [s] with lines added to its console, records to its requests and events
    to its pending list: all the code of a resolution can do to the state
    short of recording an outcome. *)
Definition grow (lines : list ConsoleLine) (recs : list RequestRecord)
    (evs : list Event) (s : State) : State :=
  {| now := now s; requests := requests s ++ recs;
     pending := pending s ++ evs; phase := phase s; report := report s;
     console := console s ++ lines; written := written s;
     exit_code := exit_code s |}.

(** The rest of a resolution of chunk [i] issues only requests that satisfy
    [Q] and is fulfilled only with outcomes that satisfy [P]. *)
Definition keeps (Q : Handler -> RequestOptions -> Prop) (P : Outcome -> Prop)
    (i : nat) (ev : Event) : Prop :=
  exists p, job ev = Resolution i p /\ all_requests Q p /\ all_rets P p.

(** A request of chunk [i], issued at time [t], that satisfies [Q]. *)
Definition issued (Q : Handler -> RequestOptions -> Prop) (i : nat) (t : Z)
    (r : RequestRecord) : Prop :=
  req_chunk r = i /\ req_time r = t /\ Q (req_handler r) (req_options r).

(** The rows of a list that have both URLs. *)
Definition usable (cfg : Config) (rows : list Row) : list Row :=
  List.filter (fun item => negb (missing_urls cfg item)) rows.


(** The resolution of a row with both URLs keeps to [Q] and [P]. *)
Definition row_keeps (parseURL : string -> option ParsedURL) (cfg : Config)
    (Q : Handler -> RequestOptions -> Prop) (P : Outcome -> Prop)
    (item : Row) : Prop :=
  forall sourceUrl destinationUrl,
    item !! COLUMN_SOURCE cfg = Some sourceUrl ->
    item !! COLUMN_DESTINATION cfg = Some destinationUrl ->
    missing_urls cfg item = false ->
    all_requests Q
      (checkURL parseURL cfg sourceUrl destinationUrl (MAX_REDIRECTIONS cfg))
    /\ all_rets P
         (checkURL parseURL cfg sourceUrl destinationUrl (MAX_REDIRECTIONS cfg)).

(** What resolutions of chunk [i] add to the state at time [t]. *)
Definition grown (Q : Handler -> RequestOptions -> Prop) (P : Outcome -> Prop)
    (i : nat) (t : Z) (lines : list ConsoleLine) (recs : list RequestRecord)
    (evs : list Event) : Prop :=
  Forall quiet_line lines
  /\ Forall (issued Q i t) recs
  /\ Forall (keeps Q P i) evs.


(** The rest of a pending resolution keeps to [Q] and [P]. *)
Definition kept (Q : Handler -> RequestOptions -> Prop) (P : Outcome -> Prop)
    (ev : Event) : Prop :=
  match job ev with
  | Resolution _ p => all_requests Q p /\ all_rets P p
  | ChunkDelay => True
  end.

(** [s'] is [s0] after the callbacks of the rows of [chunk] were started as
    chunk [i]: a rejection was caught, or no row had both URLs and the pause
    began, or [main] awaits one resolution per row with both URLs. *)
Definition chunk_begun (Q : Handler -> RequestOptions -> Prop)
    (P : Outcome -> Prop) (cfg : Config) (i : nat) (chunk : list Row)
    (s0 s' : State) : Prop :=
  exists lines recs evs,
    grown Q P i (now s0) lines recs evs
    /\ (length recs <= length evs <= length (usable cfg chunk))%nat
    /\ ((exists e, s' = catch_chunk cfg i e (grow lines recs evs s0))
        \/ (evs = [] /\ recs = [] /\ usable cfg chunk = []
            /\ s' = after_chunk cfg i (grow lines [] [] s0))
        \/ (evs <> [] /\ length evs = length (usable cfg chunk)
            /\ s' = set_phase (AwaitingAll i (length evs))
                      (grow lines recs evs s0))).

(** [s'] is [s0] after a resolution of chunk [i] was resumed: it suspended
    again, or recorded its outcome, or was rejected. *)
Definition resolution_resumed (Q : Handler -> RequestOptions -> Prop)
    (P : Outcome -> Prop) (cfg : Config) (i : nat) (s0 s' : State) : Prop :=
  exists lines recs evs,
    grown Q P i (now s0) lines recs evs
    /\ (length recs <= 1)%nat
    /\ ((length evs = 1%nat /\ s' = grow lines recs evs s0)
        \/ (exists o,
              P o
              /\ s' = settle_callback cfg i (Fulfilled ())
                        (callback_record o (grow lines [] [] s0)))
        \/ (exists e,
              s' = settle_callback cfg i (Rejected e) (grow lines [] [] s0))).

(** The state in which the handler of the event [ev], the [k]-th pending
    one, starts to run. *)
Definition at_event (k : nat) (ev : Event) (s : State) : State :=
  set_pending (delete k (pending s)) (set_now (Z.max (now s) (due ev)) s).


(** The outcome [o] is a faithful outcome of a row of [data] that has both
    URLs. *)
Definition from_row (cfg : Config) (data : list Row) (o : Outcome) : Prop :=
  exists item,
    item ∈ data
    /\ item !! COLUMN_SOURCE cfg = Some (source o)
    /\ item !! COLUMN_DESTINATION cfg = Some (dest_wanted o)
    /\ missing_urls cfg item = false
    /\ faithful_outcome cfg (source o) (dest_wanted o) (MAX_REDIRECTIONS cfg) o.

(** The counters of the report count its outcomes by their verdict. *)
Definition counted_by_verdict (r : Report) : Prop :=
  valid (result r) = Z.of_nat (length (List.filter is_valid (urls r)))
  /\ invalid (result r)
     = Z.of_nat (length (List.filter (fun o => negb (is_valid o)) (urls r))).


(** The timers of the pause between chunks among the pending events. *)
Definition is_delay (ev : Event) : bool :=
  match job ev with
  | ChunkDelay => true
  | Resolution _ _ => false
  end.

Definition pending_delays (s : State) : list Event :=
  List.filter is_delay (pending s).


(** The report on disk is the final report of an earlier state of the
    report in memory, to which [os] have been added since. *)
Definition written_from (localeCompare : string -> string -> Z)
    (w : FinalReport) (r : Report) (os : list Outcome) : Prop :=
  exists r0, w = finalReport localeCompare r0 /\ urls r = urls r0 ++ os.




(** Row [i] opens the [j]-th chunk after the first, and [j] pauses fit
    into the time up to [t]. *)
Definition chunk_time (cfg : Config) (i : nat) (t : Z) : Prop :=
  exists j : nat,
    i = (j * CHUNK_SIZE cfg)%nat /\ Z.of_nat j * CHUNK_DELAY cfg <= t.

Definition paced_requests (cfg : Config) (s : State) : Prop :=
  Forall (fun r => chunk_time cfg (req_chunk r) (req_time r)) (requests s).

Definition paced_pending (cfg : Config) (s : State) : Prop :=
  Forall (fun ev => match job ev with
                    | Resolution i _ => chunk_time cfg i (now s)
                    | ChunkDelay => True
                    end) (pending s).

(** No request was issued, and none will be, before the pauses that
    precede its chunk have passed: the timer of the pause is pending during
    the pause only, alone, and is due when the next chunk may start. *)
Definition paced (cfg : Config) (s : State) : Prop :=
  paced_requests cfg s
  /\ paced_pending cfg s
  /\ match phase s with
     | AwaitingAll i _ => chunk_time cfg i (now s) /\ pending_delays s = []
     | Delaying i =>
         exists ev, pending_delays s = [ev]
                    /\ chunk_time cfg (i + CHUNK_SIZE cfg) (due ev)
     | _ => pending_delays s = []
     end.


(** ** Choosing the input ([selectCsvFile], index.js 359-385)

    The directory listing, the prompt and [path.join] belong to the
    platform: [readdirSync] gives the entries of a directory or the message
    of the error it throws, [prompt] the answer picked among the choices or
    the message of the error the prompt is rejected with. *)

(** [s.endsWith(suffix)] *)
Fixpoint endsWith (s suffix : string) : bool :=
  String.eqb s suffix
  || match s with
     | EmptyString => false
     | String _ s' => endsWith s' suffix
     end.

(** What [selectCsvFile] does, in order: it lists a directory, logs one of
    its two messages, shows the prompt with its choices, and calls
    [process.exit]. *)
Inductive SelectAction :=
| ListedDirectory (dir : string)
| LoggedNoCsvFilesFound
| Prompted (choices : list string)
| LoggedErrorReadingCsvDirectory (message : string)
| Exited (status : Z).

Section SelectCsvFile.

Variable readdirSync : string -> string + list string.
Variable prompt : list string -> string + string.
Variable join : string -> string -> string.

(** [files.filter((file) => file.endsWith(".csv"))] *)
Definition csvFiles (files : list string) : list string :=
  List.filter (fun file => endsWith file ".csv") files.

(** The path [selectCsvFile] returns, if it returns, and what it did. The
    [catch] covers the whole [try] block, the prompt included. *)
Definition selectCsvFile (dirname : string)
    : option string * list SelectAction :=
  let csvDir := join dirname "csv" in
  match readdirSync csvDir with
  | inl message =>
      (None,
       [ListedDirectory csvDir; LoggedErrorReadingCsvDirectory message;
        Exited 1])
  | inr files =>
      if Nat.eqb (length (csvFiles files)) 0
      then (None, [ListedDirectory csvDir; LoggedNoCsvFilesFound; Exited 1])
      else
        match prompt (csvFiles files) with
        | inl message =>
            (None,
             [ListedDirectory csvDir; Prompted (csvFiles files);
              LoggedErrorReadingCsvDirectory message; Exited 1])
        | inr selectedFile =>
            (Some (join csvDir selectedFile),
             [ListedDirectory csvDir; Prompted (csvFiles files)])
        end
  end.

End SelectCsvFile.


(** ** How long a run lasts *)

(** Whatever the network answers, [p] settles after at most [n] events:
    responses, errors and timers. *)
Fixpoint settles_within {A : Type} (n : nat) (p : Prog A) : Prop :=
  match p with
  | Ret _ => True
  | Throw _ => True
  | Request _ _ k =>
      match n with
      | O => False
      | S n' => forall o, settles_within n' (k o)
      end
  | SetTimeout _ k =>
      match n with
      | O => False
      | S n' => settles_within n' k
      end
  | ConsoleError _ k => settles_within n k
  end.

(** The events one resolution can take: a fetch per hop and one more, each
    fetch a request and a timer per retry and one last request. *)
Definition resolution_bound (cfg : Config) : nat :=
  ((Z.to_nat (MAX_REDIRECTIONS cfg) + 1)
   * (2 * Z.to_nat (MAX_RETRIES cfg) + 1))%nat.

(** The turns of the event loop a run of [rows] rows can take. *)
Definition turns_bound (cfg : Config) (rows : nat) : nat :=
  (rows * (resolution_bound cfg + 2) + 1)%nat.

(** The turns a pending event can still cause: its own, and those of the
    rest of its resolution. *)
Definition event_cost (ev : Event) (n : nat) : Prop :=
  match job ev with
  | Resolution _ p => exists m, (S m <= n)%nat /\ settles_within m p
  | ChunkDelay => (1 <= n)%nat
  end.

Definition costs (s : State) (c : nat) : Prop :=
  exists ns, Forall2 event_cost (pending s) ns /\ (sum_list ns <= c)%nat.

(** The turns the rows after the chunk at [i] can cause, and the timer of
    the pause that a chunk being awaited has yet to set. *)
Definition phase_cost (cfg : Config) (data : list Row) (ph : Phase) : nat :=
  match ph with
  | AwaitingAll i _ =>
      (1 + (length data - (i + CHUNK_SIZE cfg)) * (resolution_bound cfg + 2))%nat
  | Delaying i =>
      ((length data - (i + CHUNK_SIZE cfg)) * (resolution_bound cfg + 2))%nat
  | _ => O
  end.

(** At most [m] turns are left to [s]. *)
Definition within (cfg : Config) (data : list Row) (m : nat) (s : State)
    : Prop :=
  exists c, costs s c /\ (c + phase_cost cfg data (phase s) <= m)%nat.


(** ** How a run ends *)

(** The event resumes a resolution of the chunk at row [i]. *)
Definition of_chunk (i : nat) (ev : Event) : bool :=
  match job ev with
  | Resolution i' _ => Nat.eqb i i'
  | ChunkDelay => false
  end.

(** The resolutions of the chunk at row [i] that wait for an event. *)
Definition awaited (i : nat) (s : State) : nat :=
  length (List.filter (of_chunk i) (pending s)).

(** The event does not belong to a chunk after the one at row [i]. *)
Definition not_after (i : nat) (ev : Event) : Prop :=
  match job ev with
  | Resolution i' _ => (i' <= i)%nat
  | ChunkDelay => True
  end.

(** What [main] waits for is on its way: while it awaits a chunk, as many
    resolutions of that chunk are pending as are unsettled; it is in its
    first phase only after it failed and exited, and in its last only after
    it wrote the report. *)
Definition live (s : State) : Prop :=
  match phase s with
  | Starting => exit_code s = Some 1 /\ pending s = []
  | AwaitingAll i n =>
      exit_code s = None /\ (1 <= n)%nat /\ awaited i s = n
      /\ Forall (not_after i) (pending s)
  | Delaying i => exit_code s = None /\ Forall (not_after i) (pending s)
  | Finished => exit_code s = None /\ exists w, written s = Some w
  end.


(** [r'] is [r] after the code that follows [await checkURL(...)] ran for
    the outcome [o] (index.js 123-145): one more in [total], one more in
    [valid] or in [invalid] according to [is_valid], and [o] at the end of
    [urls]. *)
Definition recorded (o : Outcome) (r r' : Report) : Prop :=
  total (result r') = total (result r) + 1
  /\ valid (result r') = valid (result r) + (if is_valid o then 1 else 0)
  /\ invalid (result r') = invalid (result r) + (if is_valid o then 0 else 1)
  /\ urls r' = urls r ++ [o].


(** ** A network that may stay silent

    [run_or_hang net p n] plays [p] like [run], against a network that may
    leave a request without an answer ([None]): the computation then stops
    for good at that request, and the promise never settles, which the
    result [None] stands for. *)
Fixpoint run_or_hang {A : Type}
    (net : nat -> RequestOptions -> option NetOutcome)
    (p : Prog A) (n : nat) : option (JsError + A) * list Action :=
  match p with
  | Ret a => (Some (inr a), [])
  | Throw e => (Some (inl e), [])
  | Request h opts k =>
      match net n opts with
      | None => (None, [Requested h opts])
      | Some res =>
          let '(r, tr) := run_or_hang net (k res) (S n) in
          (r, Requested h opts :: tr)
      end
  | SetTimeout ms k =>
      let '(r, tr) := run_or_hang net k n in (r, Waited ms :: tr)
  | ConsoleError e k =>
      let '(r, tr) := run_or_hang net k n in (r, Printed e :: tr)
  end.

(** The first [k] requests from serial number [n] on are answered, with a
    transient error. *)
Definition transient_answers (cfg : Config)
    (net : nat -> RequestOptions -> option NetOutcome)
    (p : ParsedURL) (n k : nat) : Prop :=
  forall j, (j < k)%nat ->
    exists c, net (n + j)%nat (request_options cfg p) = Some (RequestFailed c)
              /\ is_transient c = true.

(** * Theorems *)

(** ** The validity policy *)

(** C1. [isRedirectValid] answers [true] exactly when the final URL is the
    expected destination, the hop count is 1, the first hop of the chain has
    code 301 or 308, and the final status code is 200. Starting from
    arguments that pass, each single change named by the specification (another
    final URL, hop count 0, hop count 2, first hop code 302, final status
    204) makes the answer [false]. *)
Theorem isRedirectValid_four_conditions :
  (forall finalURL expectedDestination chain hopCount finalStatusCode,
      isRedirectValid CONFIG finalURL expectedDestination chain hopCount
        finalStatusCode = true
      <-> finalURL = expectedDestination
          /\ hopCount = 1
          /\ (exists hop, head chain = Some hop
                          /\ (hop_code hop = 301 \/ hop_code hop = 308))
          /\ finalStatusCode = 200)
  /\ (forall target hop rest,
        hop_code hop = 301 \/ hop_code hop = 308 ->
        isRedirectValid CONFIG target target (hop :: rest) 1 200 = true
        /\ (forall other, other <> target ->
              isRedirectValid CONFIG other target (hop :: rest) 1 200 = false)
        /\ isRedirectValid CONFIG target target (hop :: rest) 0 200 = false
        /\ isRedirectValid CONFIG target target (hop :: rest) 2 200 = false
        /\ isRedirectValid CONFIG target target
             ({| hop_location := hop_location hop; hop_code := 302 |} :: rest)
             1 200 = false
        /\ isRedirectValid CONFIG target target (hop :: rest) 1 204 = false).
Proof.
  assert (Hiff : forall finalURL expectedDestination chain hopCount finalStatusCode,
      isRedirectValid CONFIG finalURL expectedDestination chain hopCount
        finalStatusCode = true
      <-> finalURL = expectedDestination
          /\ hopCount = 1
          /\ (exists hop, head chain = Some hop
                          /\ (hop_code hop = 301 \/ hop_code hop = 308))
          /\ finalStatusCode = 200).
  { intros u t chain n c. unfold isRedirectValid.
    rewrite !andb_true_iff, orb_true_iff, String.eqb_eq, !Z.eqb_eq.
    destruct chain as [|hop rest]; cbn.
    - split.
      + intros [[[_ _] [H|H]] _]; discriminate.
      + intros (_ & _ & (hop & Hhop & _) & _). discriminate.
    - rewrite !Z.eqb_eq. split.
      + intros [[[-> ->] H] ->]. repeat split; eauto.
      + intros (-> & -> & (hop' & [= <-] & H) & ->). repeat split; auto. }
  split; [exact Hiff|].
  intros target hop rest Hcode.
  split; [apply Hiff; repeat split; eauto|].
  split; [intros other Hne|];
    repeat match goal with |- _ /\ _ => split end;
    apply not_true_is_false; rewrite Hiff;
    intros (H1 & H2 & (hop' & [= <-] & H3) & H4);
    cbn in *; try congruence; lia.
Qed.

Lemma isRedirectValid_four_conditions_witness :
  isRedirectValid CONFIG "https://a.example/new" "https://a.example/new"
    [{| hop_location := Some "https://a.example/new"%string; hop_code := 301 |}]
    1 200 = true
  /\ isRedirectValid CONFIG "https://a.example/other" "https://a.example/new"
       [{| hop_location := Some "https://a.example/new"%string; hop_code := 301 |}]
       1 200 = false.
Proof.
  pose proof (proj2 isRedirectValid_four_conditions
                "https://a.example/new"%string
                {| hop_location := Some "https://a.example/new"%string;
                   hop_code := 301 |} [] (or_introl eq_refl)) as (H1 & H2 & _).
  split; [exact H1|].
  apply H2. discriminate.
Defined.

(** ** The header fetcher *)

Section FetcherProofs.

Variable parseURL : string -> option ParsedURL.
Variable cfg : Config.
Variable net : nat -> RequestOptions -> NetOutcome.

Lemma getHeaders_unparseable u r :
  parseURL u = None ->
  getHeaders parseURL cfg u r = Throw (InvalidURL (Some u)).
Proof. intros H. rewrite getHeaders_equation_1, H. reflexivity. Qed.

Lemma run_getHeaders_response u p r n status loc :
  fetchable parseURL u p ->
  net n (request_options cfg p) = Response status loc ->
  run net (getHeaders parseURL cfg u r) n
  = (inr (headers_of status loc),
     [Requested (protocolHandler p) (request_options cfg p)]).
Proof.
  intros [Hp Hacc] Hnet.
  rewrite getHeaders_equation_1, Hp. cbn. rewrite Hacc. cbn.
  rewrite Hnet. reflexivity.
Qed.

Lemma run_getHeaders_retry u p r n c :
  fetchable parseURL u p ->
  net n (request_options cfg p) = RequestFailed c ->
  is_transient c = true ->
  r < MAX_RETRIES cfg ->
  run net (getHeaders parseURL cfg u r) n
  = ((run net (getHeaders parseURL cfg u (r + 1)) (S n)).1,
     Requested (protocolHandler p) (request_options cfg p)
       :: Waited (INITIAL_BACKOFF cfg * 2 ^ r)
       :: (run net (getHeaders parseURL cfg u (r + 1)) (S n)).2).
Proof.
  intros [Hp Hacc] Hnet Htr Hlt.
  rewrite (getHeaders_equation_1 _ _ u r), Hp. cbn. rewrite Hacc. cbn.
  rewrite Hnet, Htr.
  destruct (Z_lt_dec r (MAX_RETRIES cfg)) as [_|]; [|lia]. cbn.
  destruct (run net (getHeaders parseURL cfg u (r + 1)) (S n)).
  reflexivity.
Qed.

Lemma run_getHeaders_give_up u p r n c :
  fetchable parseURL u p ->
  net n (request_options cfg p) = RequestFailed c ->
  is_transient c = false \/ MAX_RETRIES cfg <= r ->
  run net (getHeaders parseURL cfg u r) n
  = (inl (NetworkError c),
     [Requested (protocolHandler p) (request_options cfg p);
      Printed (NetworkError c)]).
Proof.
  intros [Hp Hacc] Hnet Hwhy.
  rewrite getHeaders_equation_1, Hp. cbn. rewrite Hacc. cbn.
  rewrite Hnet.
  destruct (is_transient c); [|reflexivity].
  destruct (Z_lt_dec r (MAX_RETRIES cfg)); [|reflexivity].
  destruct Hwhy; [discriminate|lia].
Qed.

(** After [k] transient failures within the budget the fetch is where it
    would be had it started with retry count [r + k]. *)
Lemma run_getHeaders_failed_attempts u p k : forall r n,
  fetchable parseURL u p ->
  transient_until cfg net p n k ->
  r + Z.of_nat k <= MAX_RETRIES cfg ->
  run net (getHeaders parseURL cfg u r) n
  = ((run net (getHeaders parseURL cfg u (r + Z.of_nat k)) (n + k)%nat).1,
     failed_attempts cfg p r k
       ++ (run net (getHeaders parseURL cfg u (r + Z.of_nat k)) (n + k)%nat).2).
Proof.
  induction k as [|k IH]; intros r n Hf Htr Hle.
  - rewrite Z.add_0_r, Nat.add_0_r. cbn.
    destruct (run net _ n); reflexivity.
  - destruct (Htr O ltac:(lia)) as (c & Hc & Hc').
    rewrite Nat.add_0_r in Hc.
    rewrite (run_getHeaders_retry u p r n c) by (auto; lia).
    rewrite (IH (r + 1) (S n)); auto; [|intros j Hj|lia].
    + replace (r + 1 + Z.of_nat k) with (r + Z.of_nat (S k)) by lia.
      replace (S n + k)%nat with (n + S k)%nat by lia.
      reflexivity.
    + destruct (Htr (S j) ltac:(lia)) as (c' & Hc1 & Hc2).
      exists c'. split; auto.
      replace (S n + j)%nat with (n + S j)%nat by lia. exact Hc1.
Qed.

(** C3. A request that fails with [ECONNRESET] or [ENOMEM] is issued again,
    with the same options, after a backoff of [INITIAL_BACKOFF * 2^r]
    milliseconds, where [r] counts the retries made so far, and at most
    [MAX_RETRIES] times. If [k] attempts fail this way, with [k] within the
    budget (in particular [k = MAX_RETRIES - 1]), and the next one gets a
    response, [getHeaders] is fulfilled with that response and no error is
    printed or thrown. If an attempt fails with another error, or the
    attempt after [MAX_RETRIES] retries fails, [getHeaders] is rejected with
    that error. *)
Theorem getHeaders_retries_transient_errors u p (k : nat) :
  fetchable parseURL u p ->
  transient_until cfg net p 0 k ->
  Z.of_nat k <= MAX_RETRIES cfg ->
  (forall c, is_transient c = true
             <-> c = "ENOMEM"%string \/ c = "ECONNRESET"%string)
  /\ (forall status loc,
      net k (request_options cfg p) = Response status loc ->
      run net (getHeaders parseURL cfg u 0) 0
      = (inr (headers_of status loc),
         failed_attempts cfg p 0 k
           ++ [Requested (protocolHandler p) (request_options cfg p)]))
  /\ (forall c,
        net k (request_options cfg p) = RequestFailed c ->
        is_transient c = false \/ Z.of_nat k = MAX_RETRIES cfg ->
        run net (getHeaders parseURL cfg u 0) 0
        = (inl (NetworkError c),
           failed_attempts cfg p 0 k
             ++ [Requested (protocolHandler p) (request_options cfg p);
                 Printed (NetworkError c)])).
Proof.
  intros Hf Htr Hle.
  pose proof (run_getHeaders_failed_attempts u p k 0 0 Hf Htr Hle) as Hrun.
  cbn [Z.add Nat.add] in Hrun.
  split; [|split].
  - intros c. unfold is_transient.
    rewrite orb_true_iff, !String.eqb_eq. reflexivity.
  - intros status loc Hnet. rewrite Hrun.
    rewrite (run_getHeaders_response u p _ k status loc); auto.
  - intros c Hnet Hwhy. rewrite Hrun.
    rewrite (run_getHeaders_give_up u p _ k c); auto.
    destruct Hwhy; [auto|right; lia].
Qed.

End FetcherProofs.

(** ** Computations in general *)

Section ProgFacts.

Context {A B : Type}.

Lemma all_rets_intro (P : A -> Prop) (p : Prog A) :
  (forall a, P a) -> all_rets P p.
Proof. intros HP. induction p; cbn; auto. Qed.

Lemma all_rets_bind (P : B -> Prop) (p : Prog A) (f : A -> Prog B) :
  all_rets (fun a => all_rets P (f a)) p -> all_rets P (p ≫= f).
Proof.
  unfold mbind, Prog_bind.
  induction p as [a|e|h opts k IH|ms k IH|e k IH]; cbn; auto.
Qed.

Lemma all_rets_impl (P Q : A -> Prop) (p : Prog A) :
  (forall a, P a -> Q a) -> all_rets P p -> all_rets Q p.
Proof. intros HPQ. induction p; cbn; auto. Qed.

(** Running [p ≫= f]: run [p], then [f] on its value, with the requests of
    [p] counted. *)
Lemma run_bind net (p : Prog A) (f : A -> Prog B) : forall n,
  run net (p ≫= f) n
  = match run net p n with
    | (inl e, tr) => (inl e, tr)
    | (inr a, tr) =>
        ((run net (f a) (n + length (List.filter is_request tr))%nat).1,
         tr ++ (run net (f a) (n + length (List.filter is_request tr))%nat).2)
    end.
Proof.
  unfold mbind, Prog_bind.
  induction p as [a|e|h opts k IH|ms k IH|e k IH]; intros n; cbn.
  - rewrite Nat.add_0_r. destruct (run net (f a) n); reflexivity.
  - reflexivity.
  - rewrite IH. destruct (run net (k (net n opts)) (S n)) as [[e|a] tr]; cbn.
    + reflexivity.
    + replace (n + S (length (List.filter is_request tr)))%nat
        with (S n + length (List.filter is_request tr))%nat by lia.
      reflexivity.
  - rewrite IH. destruct (run net k n) as [[e|a] tr]; reflexivity.
  - rewrite IH. destruct (run net k n) as [[e'|a] tr]; reflexivity.
Qed.

End ProgFacts.

(** ** The redirect resolver *)

Section ResolverProofs.

Variable parseURL : string -> option ParsedURL.
Variable cfg : Config.
Variables (src wanted : string) (maxRedirections : Z).

#[local] Abbreviation check := (check parseURL cfg src wanted maxRedirections).
#[local] Abbreviation truncated := (truncated src wanted).
#[local] Abbreviation completed := (completed cfg src wanted).

Lemma check_body headers l0 c0 :
  check headers l0 c0
  = let l := (follow_hop headers l0 c0).1 in
    let c := (follow_hop headers l0 c0).2 in
    match hop_limit_reached maxRedirections headers c with
    | Some h => Ret (truncated h l c)
    | None =>
        match URLToCheck_of src headers with
        | None => Throw (InvalidURL None)
        | Some u =>
            getHeaders parseURL cfg u 0 ≫= fun headers' =>
              match bool_dec (truthy (location headers')) true with
              | left _ => check (Some headers') l c
              | right _ => Ret (completed u headers' l c)
              end
        end
    end.
Proof.
  rewrite check_equation_1. cbv zeta. unfold truncated, completed.
  destruct (inspect_option _) as [[h e]|e]; rewrite e; [reflexivity|].
  destruct (URLToCheck_of src headers); reflexivity.
Qed.

Lemma check_at_limit h l c :
  truthy (location h) = true ->
  maxRedirections <= c + 1 ->
  check (Some h) l c
  = Ret (truncated h
           (l ++ [{| hop_location := location h; hop_code := statusCode h |}])
           (c + 1)).
Proof.
  intros Ht Hle. rewrite check_body. cbn. rewrite Ht. cbn.
  destruct (Z.leb_spec maxRedirections (c + 1)); [reflexivity|lia].
Qed.

Lemma check_below_limit h u l c :
  location h = Some u ->
  truthy (location h) = true ->
  c + 1 < maxRedirections ->
  check (Some h) l c
  = getHeaders parseURL cfg u 0 ≫= fun headers' =>
      match bool_dec (truthy (location headers')) true with
      | left _ =>
          check (Some headers')
            (l ++ [{| hop_location := location h; hop_code := statusCode h |}])
            (c + 1)
      | right _ =>
          Ret (completed u headers'
                 (l ++ [{| hop_location := location h;
                           hop_code := statusCode h |}])
                 (c + 1))
      end.
Proof.
  intros Hu Ht Hlt. rewrite check_body. cbn. rewrite Ht. cbn.
  destruct (Z.leb_spec maxRedirections (c + 1)); [lia|].
  rewrite Hu. reflexivity.
Qed.

Lemma checkURL_unfold :
  checkURL parseURL cfg src wanted maxRedirections
  = getHeaders parseURL cfg src 0 ≫= fun headers' =>
      match bool_dec (truthy (location headers')) true with
      | left _ => check (Some headers') [] 0
      | right _ => Ret (completed src headers' [] 0)
      end.
Proof. unfold checkURL. rewrite check_body. reflexivity. Qed.

Lemma check_unparseable h u l c :
  location h = Some u ->
  truthy (location h) = true ->
  c + 1 < maxRedirections ->
  parseURL u = None ->
  check (Some h) l c = Throw (InvalidURL (Some u)).
Proof.
  intros Hu Ht Hlt Hp. rewrite (check_below_limit h u) by auto.
  rewrite getHeaders_unparseable by auto. reflexivity.
Qed.

Lemma checkURL_unparseable :
  parseURL src = None ->
  checkURL parseURL cfg src wanted maxRedirections
  = Throw (InvalidURL (Some src)).
Proof.
  intros Hp. rewrite checkURL_unfold, getHeaders_unparseable by auto.
  reflexivity.
Qed.

Lemma check_reports_last_hop (m : nat) : forall headers l c,
  (check_measure maxRedirections headers c < m)%nat ->
  Z.of_nat (length l) = c ->
  match headers with
  | Some h => truthy (location h) = true
  | None => c = 0
  end ->
  all_rets (reports_last_hop maxRedirections) (check headers l c).
Proof.
  induction m as [|m IH]; intros headers l c Hm Hlen Hpre; [lia|].
  rewrite check_body. cbv zeta.
  unfold check_measure in Hm.
  destruct headers as [h|]; cbn [follow_hop hop_limit_reached] in *.
  - rewrite Hpre in *. cbn [fst snd] in *.
    destruct (Z.leb_spec maxRedirections (c + 1)) as [Hle|Hlt].
    + cbn. split; cbn.
      * rewrite length_app. cbn. lia.
      * intros _ _. eexists. rewrite last_snoc. repeat split.
    + cbn [URLToCheck_of].
      destruct (location h) as [u|] eqn:Hu; [|discriminate].
      apply all_rets_bind, all_rets_intro. intros headers'.
      destruct (bool_dec _ true) as [Ht'|Hn].
      * apply IH; auto.
        -- unfold check_measure. cbn [follow_hop]. rewrite Ht'. cbn [snd]. lia.
        -- rewrite length_app. cbn. lia.
      * cbn. split; cbn; [rewrite length_app; cbn; lia|lia].
  - cbn [fst snd URLToCheck_of] in *. subst c.
    apply all_rets_bind, all_rets_intro. intros headers'.
    destruct (bool_dec _ true) as [Ht'|Hn].
    + apply IH; auto.
      unfold check_measure. cbn [follow_hop]. rewrite Ht'. cbn [snd]. lia.
    + cbn. split; cbn; [auto|lia].
Qed.

(** C10, as the code has it. When [check] is entered with the headers of a
    hop whose count reaches the limit, it resolves at once, without another
    request: the outcome carries the status code of that hop's response as
    its code and that hop's Location as its actual destination, which
    therefore is not fetched after it was received. And every outcome of
    [checkURL] has a chain as long as its hop count and, at the limit, the
    code and Location of the last hop of its chain. *)
Theorem check_truncates_at_last_hop :
  (forall h l c,
      truthy (location h) = true ->
      maxRedirections <= c + 1 ->
      check (Some h) l c
      = Ret {| code := statusCode h;
               source := src;
               dest_wanted := wanted;
               dest_actual := location h;
               redirectCounter := c + 1;
               redirectsList :=
                 l ++ [{| hop_location := location h;
                          hop_code := statusCode h |}];
               is_valid := false |})
  /\ all_rets (reports_last_hop maxRedirections)
       (checkURL parseURL cfg src wanted maxRedirections).
Proof.
  split.
  - intros h l c Ht Hle. rewrite check_at_limit by auto. reflexivity.
  - unfold checkURL.
    apply (check_reports_last_hop (S (check_measure maxRedirections None 0)));
      auto.
Qed.

Variable net : nat -> RequestOptions -> NetOutcome.

Lemma check_keeps_redirecting (m : nat) : forall h l c n,
  truthy (location h) = true ->
  (exists u p, location h = Some u /\ fetchable parseURL u p) ->
  always_redirects parseURL net ->
  Z.to_nat (maxRedirections - (c + 1)) = m ->
  exists o tr,
    run net (check (Some h) l c) n = (inr o, tr)
    /\ is_valid o = false
    /\ redirectCounter o = Z.max (c + 1) maxRedirections
    /\ request_count tr = Z.max (c + 1) maxRedirections - (c + 1).
Proof.
  induction m as [|m IH]; intros h l c n Ht (u & p & Hu & Hf) Hnet Hm.
  - rewrite check_at_limit by (auto; lia).
    eexists _, _. split; [reflexivity|]. cbn. unfold request_count. cbn.
    repeat split; lia.
  - rewrite (check_below_limit h u) by (auto; lia).
    rewrite run_bind.
    destruct (Hnet n (request_options cfg p))
      as (status & loc & p' & Hresp & Hloc & Hf').
    rewrite (run_getHeaders_response parseURL cfg net u p 0 n status (Some loc) Hf Hresp).
    unfold headers_of. rewrite Hloc.
    destruct (bool_dec _ true) as [Ht'|Hn]; [|cbn [location] in Hn; congruence].
    edestruct (IH {| statusCode := status; location := Some loc |}
                  (l ++ [{| hop_location := location h;
                            hop_code := statusCode h |}])
                  (c + 1) (n + 1)%nat)
      as (o & tr & Hrun & Hv & Hc & Hreq); eauto; [lia|].
    cbn [List.filter is_request length].
    rewrite Hrun. cbn [fst snd].
    eexists _, _. split; [reflexivity|].
    split; [exact Hv|]. split; [lia|].
    unfold request_count in *. cbn [app List.filter is_request length].
    lia.
Qed.

(** C2, as the code has it. When every response carries a Location header,
    [checkURL] stops by itself: it is fulfilled with an outcome that is not
    valid, whose hop count is [maxRedirections] when that is at least 1, and
    1 otherwise because the source is always fetched and its hop counted
    before the limit is looked at; the number of requests issued is that
    same number, so nothing is fetched once the limit is reached. *)
Theorem checkURL_stops_at_hop_limit p :
  fetchable parseURL src p ->
  always_redirects parseURL net ->
  exists o tr,
    run net (checkURL parseURL cfg src wanted maxRedirections) 0 = (inr o, tr)
    /\ is_valid o = false
    /\ redirectCounter o = Z.max 1 maxRedirections
    /\ request_count tr = Z.max 1 maxRedirections.
Proof.
  intros Hf Hnet.
  rewrite checkURL_unfold, run_bind.
  destruct (Hnet O (request_options cfg p))
    as (status & loc & p' & Hresp & Hloc & Hf').
  rewrite (run_getHeaders_response parseURL cfg net src p 0 0 status (Some loc) Hf Hresp).
  unfold headers_of. rewrite Hloc.
  destruct (bool_dec _ true) as [Ht'|Hn]; [|cbn [location] in Hn; congruence].
  edestruct (check_keeps_redirecting
               (Z.to_nat (maxRedirections - (0 + 1)))
               {| statusCode := status; location := Some loc |} [] 0 1%nat)
    as (o & tr & Hrun & Hv & Hc & Hreq); eauto.
  cbn [List.filter is_request length Nat.add].
  rewrite Hrun. cbn [fst snd].
  eexists _, _. split; [reflexivity|].
  split; [exact Hv|]. split; [exact Hc|].
  unfold request_count in *. cbn [app List.filter is_request length].
  cbn [Z.add] in Hreq. lia.
Qed.

End ResolverProofs.

(** ** The scheduler *)

Section SchedulerProofs.

Variable parseURL : string -> option ParsedURL.
Variable localeCompare : string -> string -> Z.
Variable cfg : Config.
Variable net : nat -> RequestOptions -> Z * NetOutcome.

#[local] Abbreviation drive := (drive net).
#[local] Abbreviation callback_resume := (callback_resume net).
#[local] Abbreviation callback := (callback parseURL cfg net).
#[local] Abbreviation map_callbacks := (map_callbacks parseURL cfg net).
#[local] Abbreviation start_chunk := (start_chunk parseURL cfg net).
#[local] Abbreviation processUrls := (processUrls parseURL localeCompare cfg net).
#[local] Abbreviation fire := (fire parseURL localeCompare cfg net).
#[local] Abbreviation step := (step parseURL localeCompare cfg net).
#[local] Abbreviation main := (main parseURL localeCompare cfg net).
#[local] Abbreviation reachable := (reachable parseURL localeCompare cfg net).

(** *** The counting invariant *)

Lemma record_outcome_counts o r :
  total (result (record_outcome o r)) = total (result r) + 1
  /\ valid (result (record_outcome o r))
     = valid (result r) + (if is_valid o then 1 else 0)
  /\ invalid (result (record_outcome o r))
     = invalid (result r) + (if is_valid o then 0 else 1)
  /\ urls (record_outcome o r) = urls r ++ [o].
Proof.
  unfold record_outcome, count_verdict, count_total.
  destruct (is_valid o); cbn; repeat split; lia.
Qed.

Lemma record_outcome_consistent o r :
  consistent r -> consistent (record_outcome o r).
Proof.
  unfold consistent.
  destruct (record_outcome_counts o r) as (Ht & Hv & Hi & Hu).
  rewrite Ht, Hv, Hi, Hu, length_app. cbn.
  destruct (is_valid o); lia.
Qed.

Lemma sort_insert_length {A} (cmp : A -> A -> Z) x l :
  length (sort_insert cmp x l) = S (length l).
Proof.
  induction l as [|y l IH]; cbn; [reflexivity|].
  destruct (cmp x y <=? 0); cbn; auto.
Qed.

Lemma Array_sort_length {A} (cmp : A -> A -> Z) l :
  length (Array_sort cmp l) = length l.
Proof.
  induction l as [|x l IH]; cbn; [reflexivity|].
  rewrite sort_insert_length. f_equal. exact IH.
Qed.

Lemma finalReport_consistent r :
  consistent r -> consistent_final (finalReport localeCompare r).
Proof.
  unfold consistent, consistent_final, finalReport. cbn.
  rewrite Array_sort_length, length_fmap. auto.
Qed.

Lemma drive_report i p : forall s,
  report (drive i p s).1 = report s
  /\ written (drive i p s).1 = written s.
Proof.
  induction p as [a|e|h opts k IH|ms k IH|e k IH]; intros s; cbn; auto.
  - destruct (net _ opts) as [latency res]. cbn. auto.
  - rewrite (proj1 (IH _)), (proj2 (IH _)). cbn. auto.
Qed.

Lemma callback_resume_counts i p s :
  counts_hold s -> counts_hold (callback_resume i p s).1.
Proof.
  intros [Hr Hw]. unfold callback_resume.
  destruct (drive_report i p s) as [Hrep Hwr].
  destruct (drive i p s) as [s' [|o|e]]; cbn in *;
    unfold counts_hold; cbn; rewrite ?Hrep, ?Hwr; auto.
  split; auto using record_outcome_consistent.
Qed.

Lemma callback_counts i item s :
  counts_hold s -> counts_hold (callback i item s).1.
Proof.
  intros H. unfold callback.
  destruct (item !! _); [|exact H].
  destruct (item !! _); [|exact H].
  destruct (missing_urls cfg item); [exact H|].
  apply callback_resume_counts, H.
Qed.

Lemma map_callbacks_counts i chunk : forall s n rej,
  counts_hold s ->
  counts_hold
    (foldl (fun acc item =>
              let '(s, unsettled, rejection) := acc in
              match callback i item s with
              | (s', StillPending) => (s', S unsettled, rejection)
              | (s', Fulfilled _) => (s', unsettled, rejection)
              | (s', Rejected e) =>
                  (s', unsettled,
                   if rejection is Some _ then rejection else Some e)
              end)
           (s, n, rej) chunk).1.1.
Proof.
  induction chunk as [|item chunk IH]; intros s n rej H; cbn; [exact H|].
  pose proof (callback_counts i item s H) as H'.
  destruct (callback i item s) as [s' [|[]|e]]; apply IH, H'.
Qed.

Lemma after_chunk_counts i s :
  counts_hold s -> counts_hold (after_chunk cfg i s).
Proof. intros H. exact H. Qed.

Lemma catch_chunk_counts i e s :
  counts_hold s -> counts_hold (catch_chunk cfg i e s).
Proof. intros H. exact H. Qed.

Lemma start_chunk_counts i chunk s :
  counts_hold s -> counts_hold (start_chunk i chunk s).
Proof.
  intros H. unfold start_chunk, map_callbacks.
  pose proof (map_callbacks_counts i chunk s O None H) as H'.
  destruct (foldl _ _ chunk) as [[s' n] rej]. cbn in H'.
  destruct rej; [exact H'|]. destruct (Nat.eqb n 0); exact H'.
Qed.

Lemma settle_callback_counts i r s :
  counts_hold s -> counts_hold (settle_callback cfg i r s).
Proof.
  intros H. unfold settle_callback.
  destruct (phase s), r; try exact H;
    destruct (Nat.eqb _ _); try exact H.
  destruct (Nat.eqb _ _); exact H.
Qed.

Lemma finish_counts s :
  counts_hold s -> counts_hold (finish localeCompare s).
Proof.
  intros [Hr _]. split; [exact Hr|].
  intros w [= <-]. apply finalReport_consistent, Hr.
Qed.

Lemma processUrls_counts data i s :
  counts_hold s -> counts_hold (processUrls data i s).
Proof.
  intros H. unfold processUrls.
  destruct (Nat.ltb _ _); auto using start_chunk_counts, finish_counts.
Qed.

Lemma fire_counts data ev s :
  counts_hold s -> counts_hold (fire data ev s).
Proof.
  intros H. unfold fire.
  destruct (job ev) as [i p|].
  - pose proof (callback_resume_counts i p s H) as H'.
    destruct (callback_resume i p s) as [s' r].
    apply settle_callback_counts, H'.
  - destruct (phase s); auto using processUrls_counts.
Qed.

Lemma step_counts data k s s' :
  step data k s = Some s' -> counts_hold s -> counts_hold s'.
Proof.
  unfold step. intros Hstep H.
  destruct (exit_code s); [discriminate|].
  destruct (pending s !! k) as [ev|]; [|discriminate].
  destruct (forallb _ _); [|discriminate].
  injection Hstep as <-. apply fire_counts, H.
Qed.

Lemma main_counts input : counts_hold (main input).
Proof.
  assert (H0 : counts_hold (boot cfg input)).
  { split; [split; reflexivity|discriminate]. }
  unfold main.
  destruct (getData input) as [e|data]; [exact H0|].
  apply processUrls_counts, H0.
Qed.

(** *** Rows without URLs *)

Lemma missing_urls_iff item :
  missing_urls cfg item = true
  <-> (item !! COLUMN_SOURCE cfg = None
       \/ item !! COLUMN_SOURCE cfg = Some ""%string
       \/ item !! COLUMN_DESTINATION cfg = None
       \/ item !! COLUMN_DESTINATION cfg = Some ""%string).
Proof.
  clear parseURL localeCompare net.
  unfold missing_urls. rewrite orb_true_iff, !negb_true_iff.
  destruct (item !! COLUMN_SOURCE cfg) as [a|];
    destruct (item !! COLUMN_DESTINATION cfg) as [b|]; cbn;
    rewrite ?negb_false_iff, ?String.eqb_eq; split; intros H;
    try tauto;
    repeat match goal with
           | H : _ \/ _ |- _ => destruct H
           | H : Some _ = Some _ |- _ => injection H as ->
           | H : None = Some _ |- _ => discriminate
           | H : Some _ = None |- _ => discriminate
           end; subst; auto.
Qed.

Lemma callback_skips i item s :
  missing_urls cfg item = true -> callback i item s = (s, Fulfilled ()).
Proof.
  intros H. unfold callback. rewrite H.
  destruct (item !! _); [|reflexivity].
  destruct (item !! _); reflexivity.
Qed.

(** C8. A row whose source or destination is absent or empty is skipped by
    the callback before anything else happens: the state, with its
    requests, its pending events and its report, is left as it was, and a
    chunk behaves with the row as it does without it. *)
Theorem rows_without_urls_are_skipped item :
  item !! COLUMN_SOURCE cfg = None
  \/ item !! COLUMN_SOURCE cfg = Some ""%string
  \/ item !! COLUMN_DESTINATION cfg = None
  \/ item !! COLUMN_DESTINATION cfg = Some ""%string ->
  (forall i s, callback i item s = (s, Fulfilled ()))
  /\ (forall i before after s,
        start_chunk i (before ++ item :: after) s
        = start_chunk i (before ++ after) s).
Proof.
  intros H. apply missing_urls_iff in H.
  split; [intros i s; apply callback_skips, H|].
  intros i before after s. unfold start_chunk, map_callbacks.
  rewrite !foldl_app. cbn [foldl].
  destruct (foldl _ _ before) as [[s' n] rej].
  rewrite callback_skips by exact H. reflexivity.
Qed.

(** *** Failures *)

Lemma catch_chunk_keeps i e s :
  report (catch_chunk cfg i e s) = report s
  /\ requests (catch_chunk cfg i e s) = requests s
  /\ pending (catch_chunk cfg i e s)
     = pending s ++ [{| due := now s + CHUNK_DELAY cfg; job := ChunkDelay |}]
  /\ console (catch_chunk cfg i e s) = console s ++ [ErrorProcessingChunk e].
Proof. repeat split. Qed.

Lemma settle_rejected_keeps i e s :
  report (settle_callback cfg i (Rejected e) s) = report s
  /\ requests (settle_callback cfg i (Rejected e) s) = requests s
  /\ (forall ev, In ev (pending s) ->
                 In ev (pending (settle_callback cfg i (Rejected e) s))).
Proof.
  unfold settle_callback.
  destruct (phase s); auto.
  destruct (Nat.eqb _ _); auto.
  repeat split. intros ev Hev. cbn. apply in_or_app. auto.
Qed.

(** C7. For a string that [new URL] does not parse, [getHeaders] rejects at
    once with the parser's error, whatever the retry count: the computation
    has no request, no timer and no retry in it. The error reaches the
    caller: [checkURL] rejects with it when the source does not parse, and
    [check] rejects with it when the Location of a hop does not parse. In
    the scheduler the callback of that row alone is rejected, with the state
    untouched, and a rejection leaves the report, the requests issued and
    every pending event of the other resolutions as they are. *)
Theorem unparseable_url_fails_fast u :
  parseURL u = None ->
  (forall r, getHeaders parseURL cfg u r = Throw (InvalidURL (Some u)))
  /\ (forall r net' n,
        run net' (getHeaders parseURL cfg u r) n
        = (inl (InvalidURL (Some u)), []))
  /\ (forall wanted maxRedirections,
        checkURL parseURL cfg u wanted maxRedirections
        = Throw (InvalidURL (Some u)))
  /\ (forall src wanted maxRedirections h l c,
        location h = Some u ->
        truthy (location h) = true ->
        c + 1 < maxRedirections ->
        check parseURL cfg src wanted maxRedirections (Some h) l c
        = Throw (InvalidURL (Some u)))
  /\ (forall i item destinationUrl s,
        item !! COLUMN_SOURCE cfg = Some u ->
        item !! COLUMN_DESTINATION cfg = Some destinationUrl ->
        missing_urls cfg item = false ->
        callback i item s = (s, Rejected (InvalidURL (Some u))))
  /\ (forall i e s,
        report (settle_callback cfg i (Rejected e) s) = report s
        /\ requests (settle_callback cfg i (Rejected e) s) = requests s
        /\ (forall ev, In ev (pending s) ->
                       In ev (pending (settle_callback cfg i (Rejected e) s)))).
Proof.
  intros Hp.
  split; [intros r; apply getHeaders_unparseable, Hp|].
  split; [intros r net' n; rewrite getHeaders_unparseable by exact Hp;
          reflexivity|].
  split; [intros wanted m; apply checkURL_unparseable, Hp|].
  split; [intros src wanted m h l c Hu Ht Hlt;
          apply (check_unparseable _ _ _ _ _ h u); auto|].
  split; [|intros i e s; apply settle_rejected_keeps].
  intros i item d s Hs Hd Hm. unfold callback, callback_resume.
  rewrite Hs, Hd, Hm, checkURL_unparseable by exact Hp. reflexivity.
Qed.

(** *** The input *)

Lemma drive_exit_code i p : forall s,
  exit_code (drive i p s).1 = exit_code s.
Proof.
  induction p as [a|e|h opts k IH|ms k IH|e k IH]; intros s; cbn; auto.
  - destruct (net _ opts) as [latency res]. reflexivity.
  - rewrite IH. reflexivity.
Qed.

Lemma callback_exit_code i item s :
  exit_code (callback i item s).1 = exit_code s.
Proof.
  unfold callback, callback_resume.
  destruct (item !! _); [|reflexivity].
  destruct (item !! _); [|reflexivity].
  destruct (missing_urls cfg item); [reflexivity|].
  pose proof (drive_exit_code i
                (checkURL parseURL cfg s0 s1 (MAX_REDIRECTIONS cfg)) s) as H.
  destruct (drive i _ s) as [s' [|o|e]]; exact H.
Qed.

Lemma map_callbacks_exit_code i chunk : forall s n rej,
  exit_code
    (foldl (fun acc item =>
              let '(s, unsettled, rejection) := acc in
              match callback i item s with
              | (s', StillPending) => (s', S unsettled, rejection)
              | (s', Fulfilled _) => (s', unsettled, rejection)
              | (s', Rejected e) =>
                  (s', unsettled,
                   if rejection is Some _ then rejection else Some e)
              end)
           (s, n, rej) chunk).1.1
  = exit_code s.
Proof.
  induction chunk as [|item chunk IH]; intros s n rej; cbn; [reflexivity|].
  pose proof (callback_exit_code i item s) as H.
  destruct (callback i item s) as [s' [|[]|e]]; rewrite IH; exact H.
Qed.

Lemma processUrls_exit_code data i s :
  exit_code (processUrls data i s) = exit_code s.
Proof.
  unfold processUrls. destruct (Nat.ltb _ _); [|reflexivity].
  unfold start_chunk, map_callbacks.
  pose proof (map_callbacks_exit_code i
                (take (CHUNK_SIZE cfg) (drop i data)) s O None) as H.
  destruct (foldl _ _ _) as [[s' n] rej]. cbn in H.
  destruct rej; [exact H|]. destruct (Nat.eqb n 0); exact H.
Qed.

Lemma fire_exit_code data ev s :
  exit_code (fire data ev s) = exit_code s.
Proof.
  unfold fire. destruct (job ev) as [i p|].
  - unfold callback_resume. pose proof (drive_exit_code i p s) as H.
    assert (Hs : forall r s1, exit_code (settle_callback cfg i r s1)
                              = exit_code s1).
    { intros r s1. unfold settle_callback.
      destruct (phase s1), r; auto; destruct (Nat.eqb _ _); auto.
      destruct (Nat.eqb _ _); auto. }
    destruct (drive i p s) as [s' [|o|e]]; cbn in H; rewrite Hs; exact H.
  - destruct (phase s); auto. apply processUrls_exit_code.
Qed.

Lemma run_events_reachable input ks : forall s s',
  reachable input s ->
  run_events parseURL localeCompare cfg net (stream_rows input) ks s = Some s' ->
  reachable input s'.
Proof.
  unfold run_events.
  induction ks as [|k ks IH] using rev_ind; intros s s' Hs Hrun.
  - injection Hrun as <-. exact Hs.
  - rewrite foldl_app in Hrun. cbn in Hrun.
    destruct (foldl _ _ ks) as [s1|] eqn:E; [|discriminate].
    eapply reachable_step; [eapply IH; eauto|exact Hrun].
Qed.

(** C6, as the code has it. When the stream of the CSV parser reports an
    error, or ends without having produced a single row, [getData] rejects
    and [main] exits with status 1 before [processUrls] is called: no
    request was issued, nothing is pending, no report is written and the
    program takes no further step. When the stream ends after at least one
    row, [getData] resolves with all the rows, whatever they hold: a row
    without its two URLs only gets a warning on the console, and [main] does
    not exit at any point before it has gone through every chunk and comes
    to write the report. *)
Theorem main_aborts_only_without_rows input :
  (stream_error input <> None \/ stream_rows input = [] ->
   exit_status (main input) = Some 1
   /\ requests (main input) = []
   /\ pending (main input) = []
   /\ written (main input) = None
   /\ forall s, reachable input s -> s = main input)
  /\ (stream_error input = None -> stream_rows input <> [] ->
      getData input = inr (stream_rows input)
      /\ console (boot cfg input)
         = WarnRowMissingColumns
             <$> List.filter (missing_urls cfg) (stream_rows input)
      /\ forall s, reachable input s -> phase s <> Finished ->
                   exit_code s = None).
Proof.
  split.
  - intros Hbad.
    assert (He : exists e, getData input = inl e).
    { unfold getData. destruct (stream_error input); [eauto|].
      destruct Hbad as [H|H]; [congruence|]. rewrite H. eauto. }
    destruct He as [e He].
    assert (Hmain : main input = catch_main e (boot cfg input)).
    { unfold main. rewrite He. reflexivity. }
    rewrite Hmain. repeat split.
    intros s Hs. induction Hs as [|s k s' _ IH Hstep]; [exact Hmain|].
    subst s. discriminate.
  - intros Herr Hrows.
    assert (Hdata : getData input = inr (stream_rows input)).
    { unfold getData. rewrite Herr.
      destruct (stream_rows input); [congruence|reflexivity]. }
    split; [exact Hdata|]. split; [reflexivity|].
    intros s Hs _. induction Hs as [|s k s' _ IH Hstep].
    + unfold main. rewrite Hdata. apply processUrls_exit_code.
    + unfold step in Hstep. rewrite IH in Hstep.
      destruct (pending s !! k) as [ev|]; [|discriminate].
      destruct (forallb _ _); [|discriminate].
      injection Hstep as <-. rewrite fire_exit_code. exact IH.
Qed.

End SchedulerProofs.

(** ** Chunks when nothing is rejected *)

Section SequentialProofs.

Variable parseURL : string -> option ParsedURL.
Variable localeCompare : string -> string -> Z.
Variable cfg : Config.
Variable net : nat -> RequestOptions -> Z * NetOutcome.

#[local] Abbreviation drive := (drive net).
#[local] Abbreviation callback_resume := (callback_resume net).
#[local] Abbreviation callback := (callback parseURL cfg net).
#[local] Abbreviation map_callbacks := (map_callbacks parseURL cfg net).
#[local] Abbreviation start_chunk := (start_chunk parseURL cfg net).
#[local] Abbreviation processUrls := (processUrls parseURL localeCompare cfg net).
#[local] Abbreviation fire := (fire parseURL localeCompare cfg net).
#[local] Abbreviation step := (step parseURL localeCompare cfg net).
#[local] Abbreviation main := (main parseURL localeCompare cfg net).
#[local] Abbreviation reachable := (reachable parseURL localeCompare cfg net).

Lemma extends_refl i s : extends i 0 s s.
Proof.
  split; [reflexivity|].
  split; [exists []; rewrite app_nil_r; auto|].
  split; exists []; rewrite app_nil_r; auto.
Qed.

Lemma extends_trans i k k' s s' s'' :
  extends i k s s' -> extends i k' s' s'' -> extends i (k + k') s s''.
Proof.
  intros (Hph & (l & Hl & Ql) & (evs & Hevs & Hk & Qe) & (rs & Hrs & Qr))
         (Hph' & (l' & Hl' & Ql') & (evs' & Hevs' & Hk' & Qe') & (rs' & Hrs' & Qr')).
  split; [congruence|].
  split; [exists (l ++ l'); rewrite Hl', Hl, app_assoc;
          split; [reflexivity|apply Forall_app; auto]|].
  split.
  - exists (evs ++ evs'). rewrite Hevs', Hevs, app_assoc, length_app.
    repeat split; [lia|apply Forall_app; auto].
  - exists (rs ++ rs'). rewrite Hrs', Hrs, app_assoc.
    split; [reflexivity|apply Forall_app; auto].
Qed.

Lemma extends_print i l s : quiet_line l -> extends i 0 s (print l s).
Proof.
  intros Hl. split; [reflexivity|].
  split; [exists [l]; auto|].
  split; exists []; cbn; rewrite app_nil_r; auto.
Qed.

Lemma drive_extends i p : forall s,
  extends i (if (drive i p s).2 is StillPending then 1 else 0) s (drive i p s).1.
Proof.
  induction p as [a|e|h opts k IH|ms k IH|e k IH]; intros s.
  - apply extends_refl.
  - apply extends_refl.
  - cbn. destruct (net _ opts) as [latency res]. cbn.
    split; [reflexivity|].
    split; [exists []; rewrite app_nil_r; auto|].
    split.
    + eexists [_]. repeat split. repeat constructor. eexists. reflexivity.
    + eexists [_]. repeat split. repeat constructor.
  - cbn. split; [reflexivity|].
    split; [exists []; rewrite app_nil_r; auto|].
    split.
    + eexists [_]. repeat split. repeat constructor. eexists. reflexivity.
    + exists []. rewrite app_nil_r. auto.
  - cbn. specialize (IH (print (ErrorFailedToFetch e) s)).
    eapply (extends_trans i 0); [apply (extends_print i (ErrorFailedToFetch e)); exact I|exact IH].
Qed.

Lemma callback_resume_extends i p s :
  extends i (if (callback_resume i p s).2 is StillPending then 1 else 0) s
    (callback_resume i p s).1.
Proof.
  unfold callback_resume. pose proof (drive_extends i p s) as H.
  destruct (drive i p s) as [s' [|o|e]]; cbn in *; auto.
  eapply (extends_trans i 0 0); [exact H|].
  unfold callback_record.
  destruct (extends_print i
              (if is_valid o then LogValidRedirect o else LogInvalidRedirect o)
              s') as (H1 & H2 & H3 & H4); [destruct (is_valid o); exact I|].
  repeat split; auto.
Qed.

Lemma callback_extends i item s :
  extends i (if (callback i item s).2 is StillPending then 1 else 0) s
    (callback i item s).1.
Proof.
  unfold callback.
  destruct (item !! _); [|apply extends_refl].
  destruct (item !! _); [|apply extends_refl].
  destruct (missing_urls cfg item); [apply extends_refl|].
  apply callback_resume_extends.
Qed.

Lemma map_callbacks_extends i chunk : forall s n rej,
  let r := foldl (fun acc item =>
                    let '(s, unsettled, rejection) := acc in
                    match callback i item s with
                    | (s', StillPending) => (s', S unsettled, rejection)
                    | (s', Fulfilled _) => (s', unsettled, rejection)
                    | (s', Rejected e) =>
                        (s', unsettled,
                         if rejection is Some _ then rejection else Some e)
                    end)
                 (s, n, rej) chunk in
  exists k, r.1.2 = (n + k)%nat /\ (k <= length chunk)%nat
            /\ extends i k s r.1.1.
Proof.
  induction chunk as [|item chunk IH]; intros s n rej; cbn.
  - exists 0%nat. split; [lia|]. split; [lia|]. apply extends_refl.
  - pose proof (callback_extends i item s) as H.
    destruct (callback i item s) as [s' [|[]|e]]; cbn in H;
      match goal with
      | |- context [foldl _ (s', ?n', ?rej') chunk] =>
          destruct (IH s' n' rej') as (k & Hn & Hk & He)
      end.
    + exists (1 + k)%nat. split; [rewrite Hn; lia|]. split; [lia|].
      eapply extends_trans; eauto.
    + exists k. split; [exact Hn|]. split; [lia|].
      apply (extends_trans i 0 k _ s'); auto.
    + exists k. split; [exact Hn|]. split; [lia|].
      apply (extends_trans i 0 k _ s'); auto.
Qed.

Lemma extends_console i k s s' :
  extends i k s s' -> no_rejection s' <-> no_rejection s.
Proof.
  intros (_ & (l & Hl & Ql) & _). unfold no_rejection.
  rewrite Hl, Forall_app. tauto.
Qed.

Lemma catch_chunk_is_seen i e s : ~ no_rejection (catch_chunk cfg i e s).
Proof.
  unfold no_rejection. cbn. rewrite Forall_app, Forall_singleton. cbn. tauto.
Qed.

Lemma start_chunk_console i chunk s :
  no_rejection (start_chunk i chunk s) -> no_rejection s.
Proof.
  unfold start_chunk, map_callbacks.
  destruct (map_callbacks_extends i chunk s O None) as (k & _ & _ & Hext).
  destruct (foldl _ _ chunk) as [[s' n] rej]. cbn in Hext.
  intros Hq. apply (extends_console _ _ _ _ Hext).
  destruct rej as [e|]; [destruct (catch_chunk_is_seen _ _ _ Hq)|].
  destruct (Nat.eqb n 0); exact Hq.
Qed.

Lemma processUrls_console data i s :
  no_rejection (processUrls data i s) -> no_rejection s.
Proof.
  unfold processUrls. destruct (Nat.ltb _ _); [apply start_chunk_console|].
  unfold no_rejection. cbn. rewrite Forall_app. tauto.
Qed.

Lemma settle_callback_console i r s :
  no_rejection (settle_callback cfg i r s) -> no_rejection s.
Proof.
  unfold settle_callback.
  destruct (phase s), r; auto; destruct (Nat.eqb _ _); auto.
  - destruct (Nat.eqb _ _); auto.
  - intros H. destruct (catch_chunk_is_seen _ _ _ H).
Qed.

Lemma fire_console data ev s :
  no_rejection (fire data ev s) -> no_rejection s.
Proof.
  unfold fire. destruct (job ev) as [i p|].
  - pose proof (callback_resume_extends i p s) as Hext.
    destruct (callback_resume i p s) as [s1 r]. cbn in Hext.
    intros Hq. apply (extends_console _ _ _ _ Hext).
    eapply settle_callback_console, Hq.
  - destruct (phase s); auto. apply processUrls_console.
Qed.

Lemma step_console data k s s' :
  step data k s = Some s' -> no_rejection s' -> no_rejection s.
Proof.
  unfold step. intros Hstep Hq.
  destruct (exit_code s); [discriminate|].
  destruct (pending s !! k) as [ev|]; [|discriminate].
  destruct (forallb _ _); [|discriminate].
  injection Hstep as <-. apply fire_console in Hq. exact Hq.
Qed.

Lemma start_chunk_orderly i chunk s :
  pending s = [] ->
  Forall (fun r => (req_chunk r <= i)%nat) (requests s) ->
  (length chunk <= CHUNK_SIZE cfg)%nat ->
  no_rejection (start_chunk i chunk s) ->
  orderly (CHUNK_SIZE cfg) (start_chunk i chunk s).
Proof.
  intros Hp Hr Hlen. unfold start_chunk, map_callbacks.
  destruct (map_callbacks_extends i chunk s O None) as (k & Hn & Hk & Hext).
  destruct (foldl _ _ chunk) as [[s' n] rej]. cbn in Hn, Hext. subst n.
  pose proof Hext as (Hph & _ & (evs & Hevs & Hlevs & Qevs) & (recs & Hrecs & Qrecs)).
  rewrite Hp in Hevs. cbn in Hevs.
  assert (Hreq : Forall (fun r => (req_chunk r <= i)%nat) (requests s')).
  { rewrite Hrecs. apply Forall_app. split; [exact Hr|].
    eapply Forall_impl; [exact Qrecs|]. cbn. intros r ->. lia. }
  destruct rej as [e|]; [intros H; destruct (catch_chunk_is_seen _ _ _ H)|].
  destruct (Nat.eqb_spec k 0) as [->|Hk0]; intros _.
  - unfold orderly. cbn. split; [|exact Hreq].
    destruct evs; [|discriminate]. rewrite Hevs. eauto.
  - unfold orderly. cbn. rewrite Hevs.
    repeat split; auto; lia.
Qed.

Lemma processUrls_orderly data i s :
  pending s = [] ->
  Forall (fun r => (req_chunk r <= i)%nat) (requests s) ->
  no_rejection (processUrls data i s) ->
  orderly (CHUNK_SIZE cfg) (processUrls data i s).
Proof.
  intros Hp Hr. unfold processUrls. destruct (Nat.ltb _ _).
  - apply start_chunk_orderly; auto. rewrite length_take. lia.
  - intros _. exact Hp.
Qed.

Lemma fire_orderly data k ev s :
  orderly (CHUNK_SIZE cfg) s ->
  pending s !! k = Some ev ->
  no_rejection
    (fire data ev (set_pending (delete k (pending s))
                     (set_now (Z.max (now s) (due ev)) s))) ->
  orderly (CHUNK_SIZE cfg)
    (fire data ev (set_pending (delete k (pending s))
                     (set_now (Z.max (now s) (due ev)) s))).
Proof.
  intros Hord Hk. unfold orderly in Hord. unfold fire.
  set (s0 := set_pending _ _).
  assert (Hph0 : phase s0 = phase s) by reflexivity.
  assert (Hreq0 : requests s0 = requests s) by reflexivity.
  assert (Hpend0 : pending s0 = delete k (pending s)) by reflexivity.
  clearbody s0.
  destruct (phase s) as [|i n|i|] eqn:Hph.
  - rewrite Hord in Hk. discriminate.
  - destruct Hord as (Hn & Hlen & Hres & Hreq).
    assert (Hev : resolution_of i ev).
    { rewrite Forall_forall in Hres. apply Hres.
      eapply list_elem_of_lookup_2. exact Hk. }
    destruct Hev as [p Hjob]. rewrite Hjob.
    pose proof (callback_resume_extends i p s0) as Hext.
    destruct (callback_resume i p s0) as [s1 r]. cbn [fst snd] in Hext.
    pose proof Hext as (Hph1 & _ & (evs & Hevs & Hlevs & Qevs)
                        & (recs & Hrecs & Qrecs)).
    rewrite Hph0 in Hph1. rewrite Hreq0 in Hrecs. rewrite Hpend0 in Hevs.
    assert (Hdel : length (delete k (pending s)) = Nat.pred n).
    { rewrite length_delete by eauto. lia. }
    assert (Hreq1 : Forall (fun r => (req_chunk r <= i)%nat) (requests s1)).
    { rewrite Hrecs. apply Forall_app. split; [exact Hreq|].
      eapply Forall_impl; [exact Qrecs|]. cbn. intros r' ->. lia. }
    assert (Hres1 : Forall (resolution_of i) (pending s1)).
    { rewrite Hevs. apply Forall_app. split; [|exact Qevs].
      eapply Forall_delete. exact Hres. }
    assert (Hlen1 : length (pending s1)
                    = (Nat.pred n + length evs)%nat).
    { rewrite Hevs, length_app, Hdel. reflexivity. }
    unfold settle_callback. rewrite Hph1.
    destruct r as [|[]|e].
    + intros _. unfold orderly. rewrite Hph1.
      repeat split; auto; lia.
    + rewrite Nat.eqb_refl.
      destruct (Nat.eqb_spec n 1) as [->|Hn1]; intros _.
      * unfold orderly. cbn. split; [|exact Hreq1].
        destruct (pending s1); [|cbn in Hlen1; lia]. cbn. eauto.
      * unfold orderly. cbn. repeat split; auto; lia.
    + rewrite Nat.eqb_refl. intros H.
      destruct (catch_chunk_is_seen _ _ _ H).
  - destruct Hord as ([t Hpend] & Hreq).
    rewrite Hpend in Hk. destruct k as [|k]; [|discriminate].
    injection Hk as <-. cbn [job]. rewrite Hph0.
    intros Hq. apply processUrls_orderly in Hq; auto.
    + rewrite Hpend0, Hpend. reflexivity.
    + rewrite Hreq0. eapply Forall_impl; [exact Hreq|]. cbn. intros; lia.
  - rewrite Hord in Hk. discriminate.
Qed.

Lemma reachable_orderly input s :
  reachable input s -> no_rejection s -> orderly (CHUNK_SIZE cfg) s.
Proof.
  induction 1 as [|s k s' _ IH Hstep]; intros Hq.
  - unfold main in *. destruct (getData input) as [e|data]; [reflexivity|].
    apply processUrls_orderly in Hq; [tauto|reflexivity|constructor].
  - pose proof (step_console _ _ _ _ Hstep Hq) as Hq0.
    specialize (IH Hq0). unfold step in Hstep.
    destruct (exit_code s); [discriminate|].
    destruct (pending s !! k) as [ev|] eqn:Hk; [|discriminate].
    destruct (forallb _ _); [|discriminate].
    injection Hstep as <-. apply fire_orderly; auto.
Qed.

(** The windows of the [for] loop: the chunk at row [i] is not empty, has at
    most [c] rows, exactly [c] when that many are left, and sits in the data
    between the rows before [i] and those from [i + c] on. *)
Lemma chunk_window (data : list Row) (c i : nat) :
  (i < length data)%nat -> (0 < c)%nat ->
  take c (drop i data) <> []
  /\ length (take c (drop i data)) = Nat.min c (length data - i)
  /\ take i data ++ take c (drop i data) ++ drop (i + c) data = data.
Proof.
  intros Hi Hc. split; [|split].
  - intros H. apply (f_equal length) in H.
    rewrite length_take, length_drop in H. cbn in H. lia.
  - rewrite length_take, length_drop. reflexivity.
  - rewrite <- drop_drop, take_drop, take_drop. reflexivity.
Qed.

(** X17. As long as no callback has been rejected, the scheduler is orderly:
    the resolutions in flight are those of the chunk being awaited, never
    more than [CHUNK_SIZE], and no chunk has started before the one before it
    has settled. *)
Lemma sequential_without_rejection input s :
  reachable input s ->
  no_rejection s ->
  chunks_sequential s /\ (resolutions_in_flight s <= CHUNK_SIZE cfg)%nat.
Proof.
  intros Hreach Hq.
  pose proof (reachable_orderly input s Hreach Hq) as Hord.
  unfold orderly in Hord. unfold chunks_sequential, resolutions_in_flight, in_flight, chunk_started.
  destruct (phase s) as [|i n|i|].
  - rewrite Hord. cbn. split; [intros; discriminate|lia].
  - destruct Hord as (Hn & Hlen & Hres & Hreq). split.
    + intros i' j Hij Hfl. apply existsb_exists in Hfl as (ev & Hin & Hev).
      rewrite Forall_forall in Hres.
      destruct (Hres ev) as [p Hjob]; [apply list_elem_of_In, Hin|].
      rewrite Hjob in Hev. apply Nat.eqb_eq in Hev. subst i'.
      apply not_true_is_false. intros Hst.
      apply existsb_exists in Hst as (r & Hr & Hrj).
      rewrite Forall_forall in Hreq.
      specialize (Hreq r ltac:(apply list_elem_of_In, Hr)).
      apply Nat.eqb_eq in Hrj. lia.
    + etransitivity; [apply List.filter_length_le|]. lia.
  - destruct Hord as ([t Hpend] & Hreq). rewrite Hpend. cbn.
    split; [intros; discriminate|lia].
  - rewrite Hord. cbn. split; [intros; discriminate|lia].
Qed.

End SequentialProofs.

(** ** The report as written *)

Section ReportProofs.

Variable localeCompare : string -> string -> Z.

(** The collation is a consistent comparator: it orders any two strings one
    way or the other, and transitively. *)
Hypothesis localeCompare_total :
  forall a b, 0 < localeCompare a b -> localeCompare b a <= 0.
Hypothesis localeCompare_trans :
  forall a b c,
    localeCompare a b <= 0 -> localeCompare b c <= 0 -> localeCompare a c <= 0.

#[local] Abbreviation before :=
  (fun a b : FormattedUrl => compare_urls localeCompare a b <= 0).

Lemma compare_urls_total a b :
  0 < compare_urls localeCompare a b -> before b a.
Proof.
  unfold compare_urls.
  destruct (is_valid (url a)), (is_valid (url b)); cbn; auto; lia.
Qed.

Lemma compare_urls_trans a b c : before a b -> before b c -> before a c.
Proof.
  unfold compare_urls.
  destruct (is_valid (url a)), (is_valid (url b)), (is_valid (url c)); cbn;
    eauto; lia.
Qed.

Lemma sort_insert_perm {A} (cmp : A -> A -> Z) x l :
  sort_insert cmp x l ≡ₚ x :: l.
Proof.
  induction l as [|y l IH]; cbn; [reflexivity|].
  destruct (cmp x y <=? 0); [reflexivity|].
  rewrite IH. apply Permutation_swap.
Qed.

Lemma Array_sort_perm {A} (cmp : A -> A -> Z) l : Array_sort cmp l ≡ₚ l.
Proof.
  induction l as [|x l IH]; cbn; [reflexivity|].
  rewrite sort_insert_perm. f_equiv. exact IH.
Qed.

Lemma sort_insert_sorted x l :
  StronglySorted before l ->
  StronglySorted before (sort_insert (compare_urls localeCompare) x l).
Proof.
  induction 1 as [|y l Hl IH Hy]; cbn.
  - repeat constructor.
  - destruct (Z.leb_spec (compare_urls localeCompare x y) 0) as [Hle|Hgt].
    + constructor; [constructor; assumption|].
      constructor; [exact Hle|].
      eapply Forall_impl; [exact Hy|].
      intros z Hz. cbn. eapply compare_urls_trans; eauto.
    + constructor; [exact IH|].
      rewrite sort_insert_perm. constructor; [|exact Hy].
      apply compare_urls_total, Hgt.
Qed.

Lemma Array_sort_sorted l :
  StronglySorted before (Array_sort (compare_urls localeCompare) l).
Proof.
  induction l as [|x l IH]; cbn; [constructor|].
  apply sort_insert_sorted, IH.
Qed.

Lemma StronglySorted_lookup {A} (R : A -> A -> Prop) l :
  StronglySorted R l ->
  forall i j a b, (i < j)%nat -> l !! i = Some a -> l !! j = Some b -> R a b.
Proof.
  induction 1 as [|x l Hl IH Hx]; intros i j a b Hij Ha Hb.
  - discriminate.
  - destruct j as [|j]; [lia|]. cbn in Hb.
    destruct i as [|i]; cbn in Ha.
    + injection Ha as <-. rewrite Forall_forall in Hx.
      apply Hx. eapply list_elem_of_lookup_2. exact Hb.
    + apply (IH i j); auto. lia.
Qed.

(** C9. The sequence of outcomes handed to the writer is the outcomes of the
    report, each with its status mark, rearranged so that no valid outcome
    comes before an invalid one and, among outcomes of equal validity, the
    sources ascend in the order of [localeCompare]. The counts of the
    written report are those of the report. *)
Theorem final_report_is_sorted (s : State) :
  let w := finalReport localeCompare (report s) in
  written (finish localeCompare s) = Some w
  /\ final_result w = result (report s)
  /\ final_urls w ≡ₚ format_url <$> urls (report s)
  /\ forall i j a b,
       (i < j)%nat ->
       final_urls w !! i = Some a ->
       final_urls w !! j = Some b ->
       (is_valid (url a) = true -> is_valid (url b) = true)
       /\ (is_valid (url a) = is_valid (url b) ->
           localeCompare (source (url a)) (source (url b)) <= 0).
Proof.
  cbv zeta. split; [reflexivity|]. split; [reflexivity|].
  split; [apply Array_sort_perm|].
  intros i j a b Hij Ha Hb.
  pose proof (StronglySorted_lookup _ _
                (Array_sort_sorted (format_url <$> urls (report s)))
                i j a b Hij Ha Hb) as Hab.
  cbn in Hab. unfold compare_urls in Hab.
  destruct (is_valid (url a)), (is_valid (url b)); cbn in Hab;
    split; intros; auto; try discriminate; lia.
Qed.

End ReportProofs.

(** ** The program at work *)

(** The four scenarios of the specification. *)

Example scenario_A_one_permanent_hop :
  World.verdict
    (run (World.scripted [Response 301 (Some "https://a.example/new"%string);
                          Response 200 None])
       (checkURL World.parseURL CONFIG "http://a.example/old"
          "https://a.example/new" (MAX_REDIRECTIONS CONFIG)) 0)
  = Some (true, 1, 200).
Proof. vm_compute. reflexivity. Qed.

Example scenario_B_temporary_hop :
  World.verdict
    (run (World.scripted [Response 302 (Some "https://b.example/new"%string);
                          Response 200 None])
       (checkURL World.parseURL CONFIG "http://b.example/old"
          "https://b.example/new" (MAX_REDIRECTIONS CONFIG)) 0)
  = Some (false, 1, 200).
Proof. vm_compute. reflexivity. Qed.

Example scenario_C_two_hops :
  World.verdict
    (run (World.scripted [Response 301 (Some "https://c.example/mid"%string);
                          Response 301 (Some "https://c.example/new"%string);
                          Response 200 None])
       (checkURL World.parseURL CONFIG "http://c.example/old"
          "https://c.example/new" (MAX_REDIRECTIONS CONFIG)) 0)
  = Some (false, 2, 200).
Proof. vm_compute. reflexivity. Qed.

Example scenario_D_no_hop :
  World.verdict
    (run (World.scripted [Response 200 None])
       (checkURL World.parseURL CONFIG "https://d.example/"
          "https://d.example/" (MAX_REDIRECTIONS CONFIG)) 0)
  = Some (false, 0, 200).
Proof. vm_compute. reflexivity. Qed.

(** A relative Location does not parse without a base: the resolution is
    rejected. *)
Example relative_location_is_rejected :
  (run (World.scripted [Response 301 (Some "/new"%string)])
     (checkURL World.parseURL CONFIG "http://a.example/old"
        "http://a.example/new" (MAX_REDIRECTIONS CONFIG)) 0).1
  = inl (InvalidURL (Some "/new"%string)).
Proof. vm_compute. reflexivity. Qed.

Lemma getHeaders_retries_transient_errors_witness :
  let p := World.parsed "https:" "a.example" "/new" in
  fetchable World.parseURL "https://a.example/new" p
  /\ transient_until CONFIG World.flaky_net p 0 2
  /\ Z.of_nat 2 <= MAX_RETRIES CONFIG
  /\ run World.flaky_net
       (getHeaders World.parseURL CONFIG "https://a.example/new" 0) 0
     = (inr {| statusCode := 200; location := None |},
        [Requested Https (request_options CONFIG p); Waited 1000;
         Requested Https (request_options CONFIG p); Waited 2000;
         Requested Https (request_options CONFIG p)]).
Proof.
  cbv zeta.
  assert (Hf : fetchable World.parseURL "https://a.example/new"
                 (World.parsed "https:" "a.example" "/new")).
  { split; reflexivity. }
  assert (Htr : transient_until CONFIG World.flaky_net
                  (World.parsed "https:" "a.example" "/new") 0 2).
  { intros j Hj. exists "ECONNRESET"%string.
    destruct j as [|[|j]]; [split; reflexivity..|lia]. }
  assert (Hle : Z.of_nat 2 <= MAX_RETRIES CONFIG) by (cbn; lia).
  split; [exact Hf|]. split; [exact Htr|]. split; [exact Hle|].
  exact (proj1 (proj2 (getHeaders_retries_transient_errors World.parseURL
                         CONFIG World.flaky_net _ _ 2 Hf Htr Hle))
           200 None eq_refl).
Defined.

Lemma checkURL_stops_at_hop_limit_witness :
  let net := World.redirecting_net "https://a.example/new" in
  fetchable World.parseURL "http://a.example/old"
    (World.parsed "http:" "a.example" "/old")
  /\ always_redirects World.parseURL net
  /\ exists o tr,
       run net (checkURL World.parseURL CONFIG "http://a.example/old"
                  "https://a.example/new" 3) 0 = (inr o, tr)
       /\ is_valid o = false
       /\ redirectCounter o = Z.max 1 3
       /\ request_count tr = Z.max 1 3.
Proof.
  cbv zeta.
  assert (Hf : fetchable World.parseURL "http://a.example/old"
                 (World.parsed "http:" "a.example" "/old")).
  { split; reflexivity. }
  assert (Hnet : always_redirects World.parseURL
                   (World.redirecting_net "https://a.example/new")).
  { intros n opts.
    exists 301, "https://a.example/new"%string,
      (World.parsed "https:" "a.example" "/new").
    repeat split. }
  split; [exact Hf|]. split; [exact Hnet|].
  exact (checkURL_stops_at_hop_limit World.parseURL CONFIG
           "http://a.example/old" "https://a.example/new" 3 _ _ Hf Hnet).
Defined.

(** With a limit of 0 and a source that redirects, the resolver follows one
    hop and reports a hop count of 1, above the limit. *)
Lemma hop_limit_zero_counterexample :
  let net := World.redirecting_net "https://a.example/new" in
  fetchable World.parseURL "http://a.example/old"
    (World.parsed "http:" "a.example" "/old")
  /\ always_redirects World.parseURL net
  /\ exists o tr,
       run net (checkURL World.parseURL CONFIG "http://a.example/old"
                  "https://a.example/new" 0) 0 = (inr o, tr)
       /\ redirectCounter o = 1
       /\ redirectCounter o <> 0
       /\ request_count tr = 1.
Proof.
  cbv zeta. split; [split; reflexivity|]. split.
  - intros n opts.
    exists 301, "https://a.example/new"%string,
      (World.parsed "https:" "a.example" "/new").
    repeat split.
  - eexists _, _. split; [vm_compute; reflexivity|].
    repeat split. discriminate.
Qed.

Lemma check_truncates_at_last_hop_witness :
  let h := {| statusCode := 301; location := Some "https://a.example/new"%string |} in
  truthy (location h) = true
  /\ 3 <= 2 + 1
  /\ check World.parseURL CONFIG "http://a.example/old" "https://a.example/new"
       3 (Some h) [] 2
     = Ret {| code := 301;
              source := "http://a.example/old";
              dest_wanted := "https://a.example/new";
              dest_actual := Some "https://a.example/new"%string;
              redirectCounter := 2 + 1;
              redirectsList :=
                [{| hop_location := Some "https://a.example/new"%string;
                    hop_code := 301 |}];
              is_valid := false |}.
Proof.
  cbv zeta. split; [reflexivity|]. split; [lia|].
  exact (proj1 (check_truncates_at_last_hop World.parseURL CONFIG
                  "http://a.example/old" "https://a.example/new" 3)
           {| statusCode := 301; location := Some "https://a.example/new"%string |}
           [] 2 eq_refl ltac:(lia)).
Defined.

(** A URL that redirects to itself: at the hop limit the actual destination
    reported is the source, which the resolver did fetch, three times. And a
    server that sends a Location header with status 200: each response counts
    as a hop, and at the limit the code reported is 200. *)
Lemma redirect_loop_counterexample :
  let u := "http://a.example/"%string in
  (exists o tr,
      run (World.redirecting_net u)
        (checkURL World.parseURL CONFIG u "http://a.example/new" 3) 0
      = (inr o, tr)
      /\ redirectCounter o = MAX_REDIRECTIONS CONFIG
      /\ dest_actual o = Some u
      /\ fetched World.parseURL CONFIG u tr
      /\ request_count tr = 3)
  /\ (exists o tr,
        run (fun _ _ => Response 200 (Some "http://a.example/next"%string))
          (checkURL World.parseURL CONFIG u "http://a.example/new" 3) 0
        = (inr o, tr)
        /\ redirectCounter o = MAX_REDIRECTIONS CONFIG
        /\ code o = 200).
Proof.
  cbv zeta. split.
  - eexists _, _. split; [vm_compute; reflexivity|].
    split; [reflexivity|]. split; [reflexivity|]. split; [|reflexivity].
    exists (World.parsed "http:" "a.example" "/").
    split; [reflexivity|]. left. reflexivity.
  - eexists _, _. split; [vm_compute; reflexivity|].
    split; reflexivity.
Qed.

(** C5 on the code. The first of sixteen rows has a source that is not a URL
    and the other requests take five seconds. [Promise.all] rejects at once,
    the rejection is caught, and two seconds later the second chunk starts
    while the seven resolutions of the first are still in flight: fifteen
    requests are open at once, with a chunk size of eight. *)
Theorem second_chunk_starts_before_first_settles :
  exists s,
    reachable World.parseURL World.localeCompare CONFIG World.slow_net
      World.sixteen_row_file s
    /\ now s = CHUNK_DELAY CONFIG
    /\ in_flight 0 s = true
    /\ chunk_started 8 s = true
    /\ ~ chunks_sequential s
    /\ resolutions_in_flight s = 15%nat
    /\ (CHUNK_SIZE CONFIG < resolutions_in_flight s)%nat.
Proof.
  assert (Hobs :
    run_events World.parseURL World.localeCompare CONFIG World.slow_net
      World.sixteen_rows [7%nat]
      (main World.parseURL World.localeCompare CONFIG World.slow_net
         World.sixteen_row_file)
    ≫= (fun s => Some (now s, in_flight 0 s, chunk_started 8 s,
                       resolutions_in_flight s))
    = Some (2000, true, true, 15%nat)) by (vm_compute; reflexivity).
  destruct (run_events _ _ _ _ _ _ _) as [s|] eqn:Hrun; [|discriminate].
  injection Hobs as Hnow Hfl Hst Hn.
  exists s. split.
  - eapply (run_events_reachable _ _ _ _ World.sixteen_row_file);
      [apply reachable_main|exact Hrun].
  - repeat split; auto.
    + intros Hseq. specialize (Hseq 0%nat 8%nat ltac:(lia) Hfl). congruence.
    + rewrite Hn. cbn. lia.
Qed.

Lemma main_aborts_only_without_rows_witness :
  (stream_error World.empty_file <> None \/ stream_rows World.empty_file = [])
  /\ exit_status
       (main World.parseURL World.localeCompare CONFIG World.slow_net
          World.empty_file) = Some 1
  /\ requests
       (main World.parseURL World.localeCompare CONFIG World.slow_net
          World.empty_file) = [].
Proof.
  assert (H : stream_error World.empty_file <> None
              \/ stream_rows World.empty_file = []) by (right; reflexivity).
  split; [exact H|].
  destruct (proj1 (main_aborts_only_without_rows World.parseURL
                     World.localeCompare CONFIG World.slow_net
                     World.empty_file) H) as (H1 & H2 & _).
  split; [exact H1|exact H2].
Defined.

(** A file whose only row lacks the source column: the row gets a warning,
    the run goes on without a request, an empty report is written and the
    process ends with status 0. *)
Lemma file_without_columns_counterexample :
  Forall (fun row => missing_urls CONFIG row = true)
    (stream_rows World.file_without_src)
  /\ exit_code
       (main World.parseURL World.localeCompare CONFIG World.slow_net
          World.file_without_src) = None
  /\ run_events World.parseURL World.localeCompare CONFIG World.slow_net
       (stream_rows World.file_without_src) [0%nat]
       (main World.parseURL World.localeCompare CONFIG World.slow_net
          World.file_without_src)
     ≫= (fun s => Some (exit_status s, written s, requests s, pending s))
     = Some (Some 0,
             Some {| final_result := {| valid := 0; invalid := 0; total := 0 |};
                     final_urls := [] |},
             [], []).
Proof.
  split; [repeat constructor|].
  split; vm_compute; reflexivity.
Qed.

Lemma unparseable_url_fails_fast_witness :
  World.parseURL "not a url" = None
  /\ (forall r,
        getHeaders World.parseURL CONFIG "not a url" r
        = Throw (InvalidURL (Some "not a url"%string)))
  /\ (forall i s,
        callback World.parseURL CONFIG World.slow_net i
          (World.row "not a url" "https://a.example/new") s
        = (s, Rejected (InvalidURL (Some "not a url"%string)))).
Proof.
  assert (Hp : World.parseURL "not a url" = None) by reflexivity.
  destruct (unparseable_url_fails_fast World.parseURL CONFIG World.slow_net
              "not a url" Hp) as (H1 & _ & _ & _ & H5 & _).
  split; [exact Hp|]. split; [exact H1|].
  intros i s.
  apply (H5 i _ "https://a.example/new"%string s); reflexivity.
Defined.

Lemma rows_without_urls_are_skipped_witness :
  World.row "" "https://a.example/new" !! COLUMN_SOURCE CONFIG = Some ""%string
  /\ forall i s,
       callback World.parseURL CONFIG World.slow_net i
         (World.row "" "https://a.example/new") s
       = (s, Fulfilled ()).
Proof.
  assert (H : World.row "" "https://a.example/new" !! COLUMN_SOURCE CONFIG
              = Some ""%string) by reflexivity.
  split; [exact H|].
  exact (proj1 (rows_without_urls_are_skipped World.parseURL CONFIG
                  World.slow_net _ (or_intror (or_introl H)))).
Defined.

Lemma final_report_is_sorted_witness :
  let w := finalReport World.localeCompare (report World.three_outcomes) in
  (forall a b, 0 < World.localeCompare a b -> World.localeCompare b a <= 0)
  /\ (forall a b c,
        World.localeCompare a b <= 0 -> World.localeCompare b c <= 0 ->
        World.localeCompare a c <= 0)
  /\ written (finish World.localeCompare World.three_outcomes) = Some w
  /\ final_result w = result (report World.three_outcomes)
  /\ forall i j a b,
       (i < j)%nat ->
       final_urls w !! i = Some a ->
       final_urls w !! j = Some b ->
       (is_valid (url a) = true -> is_valid (url b) = true)
       /\ (is_valid (url a) = is_valid (url b) ->
           World.localeCompare (source (url a)) (source (url b)) <= 0).
Proof.
  assert (Htotal : forall a b,
             0 < World.localeCompare a b -> World.localeCompare b a <= 0).
  { unfold World.localeCompare. intros a b. lia. }
  assert (Htrans : forall a b c,
             World.localeCompare a b <= 0 -> World.localeCompare b c <= 0 ->
             World.localeCompare a c <= 0).
  { unfold World.localeCompare. intros a b c. lia. }
  destruct (final_report_is_sorted World.localeCompare Htotal Htrans
              World.three_outcomes) as (H1 & H2 & _ & H4).
  split; [exact Htotal|]. split; [exact Htrans|].
  split; [exact H1|]. split; [exact H2|exact H4].
Defined.

(** * Further properties *)

(** ** The header fetcher on any network *)

Section FetcherOnAnyNetwork.

Variable parseURL : string -> option ParsedURL.
Variable cfg : Config.
Variable net : nat -> RequestOptions -> NetOutcome.

Lemma request_count_app tr tr' :
  request_count (tr ++ tr') = request_count tr + request_count tr'.
Proof.
  unfold request_count. rewrite List.filter_app, length_app. lia.
Qed.

Lemma request_count_failed_attempts p k : forall r,
  request_count (failed_attempts cfg p r k) = Z.of_nat k.
Proof.
  induction k as [|k IH]; intros r; [reflexivity|].
  change (failed_attempts cfg p r (S k))
    with ([Requested (protocolHandler p) (request_options cfg p);
           Waited (INITIAL_BACKOFF cfg * 2 ^ r)]
            ++ failed_attempts cfg p (r + 1) k).
  rewrite request_count_app, IH. unfold request_count. cbn. lia.
Qed.

Lemma wait_total_app tr tr' :
  wait_total (tr ++ tr') = wait_total tr + wait_total tr'.
Proof.
  induction tr as [|a tr IH]; cbn; [lia|].
  destruct a; rewrite IH; lia.
Qed.

Lemma wait_total_failed_attempts p k : forall r,
  0 <= r ->
  wait_total (failed_attempts cfg p r k)
  = INITIAL_BACKOFF cfg * 2 ^ r * (2 ^ Z.of_nat k - 1).
Proof.
  induction k as [|k IH]; intros r Hr; [cbn; lia|].
  cbn [failed_attempts wait_total]. rewrite IH by lia.
  rewrite Nat2Z.inj_succ, Z.pow_succ_r by lia.
  rewrite Z.pow_add_r by lia. lia.
Qed.

Lemma In_failed_attempts p k a : forall r,
  In a (failed_attempts cfg p r k) ->
  a = Requested (protocolHandler p) (request_options cfg p)
  \/ exists j, (j < k)%nat /\ a = Waited (INITIAL_BACKOFF cfg * 2 ^ (r + Z.of_nat j)).
Proof.
  induction k as [|k IH]; intros r; cbn; [tauto|].
  intros [<-|[<-|H]]; [auto| |].
  - right. exists 0%nat. split; [lia|]. rewrite Z.add_0_r. reflexivity.
  - destruct (IH _ H) as [->|(j & Hj & ->)]; [auto|].
    right. exists (S j). split; [lia|]. f_equal. f_equal. f_equal. lia.
Qed.

(** A URL for which [getHeaders] throws before any request. *)
Lemma run_getHeaders_unfetchable u r n :
  (forall p, ~ fetchable parseURL u p) ->
  exists e, run net (getHeaders parseURL cfg u r) n = (inl e, []).
Proof.
  intros Hno. rewrite getHeaders_equation_1.
  destruct (parseURL u) as [p|] eqn:Hp; [|eexists; reflexivity].
  cbn. destruct (handler_accepts _ _) eqn:Hacc; [|eexists; reflexivity].
  destruct (Hno p). split; assumption.
Qed.

Lemma fetchable_dec u :
  (exists p, fetchable parseURL u p) \/ (forall p, ~ fetchable parseURL u p).
Proof.
  unfold fetchable. destruct (parseURL u) as [p|]; [|right; intros p [H _]; discriminate].
  destruct (handler_accepts (protocolHandler p) (url_protocol p)) eqn:E.
  - left. eauto.
  - right. intros p' [[= <-] H]. congruence.
Qed.

(** How a fetch that starts with retry count [r] at request [n] goes: some
    [k] attempts fail with a transient error within the budget, and the next
    one ends the fetch, with a response or with the error that is thrown. *)
Lemma run_getHeaders_shape u p (m : nat) : forall r n,
  fetchable parseURL u p ->
  Z.to_nat (MAX_RETRIES cfg - r) = m ->
  exists k : nat,
    r + Z.of_nat k <= Z.max r (MAX_RETRIES cfg)
    /\ transient_until cfg net p n k
    /\ ((exists status loc,
           net (n + k)%nat (request_options cfg p) = Response status loc
           /\ run net (getHeaders parseURL cfg u r) n
              = (inr (headers_of status loc),
                 failed_attempts cfg p r k
                   ++ [Requested (protocolHandler p) (request_options cfg p)]))
        \/ (exists c,
              net (n + k)%nat (request_options cfg p) = RequestFailed c
              /\ (is_transient c = false \/ MAX_RETRIES cfg <= r + Z.of_nat k)
              /\ run net (getHeaders parseURL cfg u r) n
                 = (inl (NetworkError c),
                    failed_attempts cfg p r k
                      ++ [Requested (protocolHandler p) (request_options cfg p);
                          Printed (NetworkError c)]))).
Proof.
  induction m as [|m IH]; intros r n Hf Hm.
  - exists 0%nat. rewrite Nat.add_0_r, Z.add_0_r.
    split; [lia|]. split; [intros j Hj; lia|].
    destruct (net n (request_options cfg p)) as [status loc|c] eqn:Hnet.
    + left. exists status, loc. split; [reflexivity|].
      apply run_getHeaders_response; auto.
    + right. exists c. split; [reflexivity|]. split; [right; lia|].
      apply run_getHeaders_give_up; auto. right. lia.
  - destruct (net n (request_options cfg p)) as [status loc|c] eqn:Hnet.
    + exists 0%nat. rewrite Nat.add_0_r, Z.add_0_r.
      split; [lia|]. split; [intros j Hj; lia|].
      left. exists status, loc. split; [exact Hnet|].
      apply run_getHeaders_response; auto.
    + destruct (is_transient c) eqn:Htr.
      * destruct (IH (r + 1) (S n) Hf ltac:(lia)) as (k & Hk & Htu & Hend).
        exists (S k). split; [lia|]. split.
        { intros j Hj. destruct j as [|j].
          - rewrite Nat.add_0_r. eauto.
          - destruct (Htu j ltac:(lia)) as (c' & Hc' & Ht').
            exists c'. split; [|exact Ht'].
            replace (n + S j)%nat with (S n + j)%nat by lia. exact Hc'. }
        replace (n + S k)%nat with (S n + k)%nat by lia.
        replace (r + Z.of_nat (S k)) with (r + 1 + Z.of_nat k) by lia.
        rewrite (run_getHeaders_retry parseURL cfg net u p r n c) by (auto; lia).
        destruct Hend as [(status & loc & Hnet' & Hrun)|(c' & Hnet' & Hwhy & Hrun)];
          rewrite Hrun; cbn [fst snd failed_attempts app]; [left|right]; eauto 10.
      * exists 0%nat. rewrite Nat.add_0_r, Z.add_0_r.
        split; [lia|]. split; [intros j Hj; lia|].
        right. exists c. split; [exact Hnet|]. split; [left; exact Htr|].
        apply run_getHeaders_give_up; auto.
Qed.

(** X2. Whatever the network does and whatever the URL, the time one fetch
    spends in backoff is at most [INITIAL_BACKOFF * (2^MAX_RETRIES - 1)]
    milliseconds: 7 seconds with the default configuration. *)
Theorem getHeaders_backoff_is_bounded u :
  0 <= INITIAL_BACKOFF cfg ->
  0 <= MAX_RETRIES cfg ->
  0 <= wait_total (run net (getHeaders parseURL cfg u 0) 0).2
       <= INITIAL_BACKOFF cfg * (2 ^ MAX_RETRIES cfg - 1).
Proof.
  intros Hib Hmr.
  assert (H1 : 1 <= 2 ^ MAX_RETRIES cfg) by (apply Z.pow_le_mono_r with (b := 0); lia).
  destruct (fetchable_dec u) as [[p Hf]|Hno].
  - destruct (run_getHeaders_shape u p _ 0 0%nat Hf eq_refl)
      as (k & Hk & _ & Hend).
    assert (Hpow : 1 <= 2 ^ Z.of_nat k <= 2 ^ MAX_RETRIES cfg).
    { split; [apply Z.pow_le_mono_r with (b := 0); lia|].
      apply Z.pow_le_mono_r; lia. }
    destruct Hend as [(status & loc & _ & ->)|(c & _ & _ & ->)]; cbn [snd];
      rewrite wait_total_app, wait_total_failed_attempts by lia; cbn; nia.
  - destruct (run_getHeaders_unfetchable u 0 0%nat Hno) as [e ->]. cbn. nia.
Qed.

End FetcherOnAnyNetwork.

Section FetcherOnASilentNetwork.

Variable parseURL : string -> option ParsedURL.
Variable cfg : Config.
Variable net : nat -> RequestOptions -> option NetOutcome.

(** [run_or_hang] agrees with [run] on a network that always answers. *)
Lemma run_or_hang_answered {A} (answers : nat -> RequestOptions -> NetOutcome)
    (p : Prog A) : forall n,
  run_or_hang (fun n opts => Some (answers n opts)) p n
  = ((fun r => Some r) (run answers p n).1, (run answers p n).2).
Proof.
  induction p as [a|e|h opts k IH|ms k IH|e k IH]; intros n; cbn;
    try reflexivity.
  - rewrite IH. destruct (run answers (k (answers n opts)) (S n)). reflexivity.
  - rewrite IH. destruct (run answers k n). reflexivity.
  - rewrite IH. destruct (run answers k n). reflexivity.
Qed.

(** How a fetch that starts with retry count [r] at request [n] goes on a
    network that may stay silent. *)
Lemma run_or_hang_getHeaders u p (m : nat) : forall r n,
  fetchable parseURL u p ->
  Z.to_nat (MAX_RETRIES cfg - r) = m ->
  exists k : nat,
    r + Z.of_nat k <= Z.max r (MAX_RETRIES cfg)
    /\ transient_answers cfg net p n k
    /\ ((exists status loc,
           net (n + k)%nat (request_options cfg p) = Some (Response status loc)
           /\ run_or_hang net (getHeaders parseURL cfg u r) n
              = (Some (inr (headers_of status loc)),
                 failed_attempts cfg p r k
                   ++ [Requested (protocolHandler p) (request_options cfg p)]))
        \/ (exists c,
              net (n + k)%nat (request_options cfg p) = Some (RequestFailed c)
              /\ (is_transient c = false \/ MAX_RETRIES cfg <= r + Z.of_nat k)
              /\ run_or_hang net (getHeaders parseURL cfg u r) n
                 = (Some (inl (NetworkError c)),
                    failed_attempts cfg p r k
                      ++ [Requested (protocolHandler p) (request_options cfg p);
                          Printed (NetworkError c)]))
        \/ (net (n + k)%nat (request_options cfg p) = None
            /\ run_or_hang net (getHeaders parseURL cfg u r) n
               = (None,
                  failed_attempts cfg p r k
                    ++ [Requested (protocolHandler p)
                          (request_options cfg p)]))).
Proof.
  induction m as [|m IH]; intros r n [Hp Hacc] Hm;
    rewrite (getHeaders_equation_1 _ _ u r), Hp; cbn; rewrite Hacc; cbn;
    destruct (net n (request_options cfg p)) as [[status loc|c]|] eqn:Hnet.
  1, 4: exists 0%nat; rewrite Nat.add_0_r, Z.add_0_r;
    (split; [lia|]); (split; [intros j Hj; lia|]);
    left; exists status, loc; split; [exact Hnet|reflexivity].
  2, 4: exists 0%nat; rewrite Nat.add_0_r, Z.add_0_r;
    (split; [lia|]); (split; [intros j Hj; lia|]);
    right; right; split; [exact Hnet|reflexivity].
  - exists 0%nat. rewrite Nat.add_0_r, Z.add_0_r.
    split; [lia|]. split; [intros j Hj; lia|].
    right. left. exists c. split; [exact Hnet|]. split; [right; lia|].
    destruct (is_transient c); [|reflexivity].
    destruct (Z_lt_dec r (MAX_RETRIES cfg)); [lia|reflexivity].
  - destruct (is_transient c) eqn:Htr;
      [destruct (Z_lt_dec r (MAX_RETRIES cfg)) as [Hlt|Hge]|].
    + destruct (IH (r + 1) (S n) (conj Hp Hacc) ltac:(lia))
        as (k & Hk & Htu & Hend).
      exists (S k). split; [lia|]. split.
      { intros j Hj. destruct j as [|j].
        - rewrite Nat.add_0_r. eauto.
        - destruct (Htu j ltac:(lia)) as (c' & Hc' & Ht').
          exists c'. split; [|exact Ht'].
          replace (n + S j)%nat with (S n + j)%nat by lia. exact Hc'. }
      replace (n + S k)%nat with (S n + k)%nat by lia.
      replace (r + Z.of_nat (S k)) with (r + 1 + Z.of_nat k) by lia.
      cbn [run_or_hang].
      destruct Hend
        as [(status & loc & Hnet' & Hrun)
           |[(c' & Hnet' & Hwhy & Hrun)|(Hnet' & Hrun)]];
        rewrite Hrun; cbn [failed_attempts app]; eauto 10.
    + exists 0%nat. rewrite Nat.add_0_r, Z.add_0_r.
      split; [lia|]. split; [intros j Hj; lia|].
      right. left. exists c. split; [exact Hnet|]. split; [right; lia|].
      reflexivity.
    + exists 0%nat. rewrite Nat.add_0_r, Z.add_0_r.
      split; [lia|]. split; [intros j Hj; lia|].
      right. left. exists c. split; [exact Hnet|]. split; [left; exact Htr|].
      reflexivity.
Qed.

(** X1. On any network, one that may also leave a request without an
    answer, a fetch of a URL that parses is a number [k] of attempts that
    are answered with a transient error, [k] being at most [MAX_RETRIES],
    each followed by its backoff of [INITIAL_BACKOFF * 2^i], and one last
    attempt: [k + 1] requests in all, every one with the same module and
    options. The last attempt decides: a response fulfils the fetch, an
    error rejects it after it is printed, and when the request never ends
    the fetch never settles, for nothing else rejects it: no timer is set
    and nothing is printed after that request. *)
Theorem getHeaders_on_any_network u p :
  fetchable parseURL u p ->
  exists k : nat,
    Z.of_nat k <= Z.max 0 (MAX_RETRIES cfg)
    /\ transient_answers cfg net p 0 k
    /\ request_count (run_or_hang net (getHeaders parseURL cfg u 0) 0).2
       = Z.of_nat k + 1
    /\ (forall h opts,
          In (Requested h opts)
            (run_or_hang net (getHeaders parseURL cfg u 0) 0).2 ->
          h = protocolHandler p /\ opts = request_options cfg p)
    /\ ((exists status loc,
           net k (request_options cfg p) = Some (Response status loc)
           /\ run_or_hang net (getHeaders parseURL cfg u 0) 0
              = (Some (inr (headers_of status loc)),
                 failed_attempts cfg p 0 k
                   ++ [Requested (protocolHandler p) (request_options cfg p)]))
        \/ (exists c,
              net k (request_options cfg p) = Some (RequestFailed c)
              /\ (is_transient c = false \/ MAX_RETRIES cfg <= Z.of_nat k)
              /\ run_or_hang net (getHeaders parseURL cfg u 0) 0
                 = (Some (inl (NetworkError c)),
                    failed_attempts cfg p 0 k
                      ++ [Requested (protocolHandler p) (request_options cfg p);
                          Printed (NetworkError c)]))
        \/ (net k (request_options cfg p) = None
            /\ run_or_hang net (getHeaders parseURL cfg u 0) 0
               = (None,
                  failed_attempts cfg p 0 k
                    ++ [Requested (protocolHandler p)
                          (request_options cfg p)]))).
Proof.
  intros Hf.
  destruct (run_or_hang_getHeaders u p _ 0 0%nat Hf eq_refl)
    as (k & Hk & Htu & Hend).
  cbn [Nat.add Z.add] in Hend.
  exists k. split; [exact Hk|]. split; [exact Htu|].
  assert (Htrace : exists last,
             (run_or_hang net (getHeaders parseURL cfg u 0) 0).2
             = failed_attempts cfg p 0 k
                 ++ Requested (protocolHandler p) (request_options cfg p)
                 :: last
             /\ Forall (fun a => is_request a = false) last).
  { destruct Hend as [(status & loc & _ & ->)|[(c & _ & _ & ->)|(_ & ->)]];
      cbn [snd]; eexists; (split; [reflexivity|]); repeat constructor. }
  destruct Htrace as (last & Htr & Hlast).
  split; [|split; [|exact Hend]].
  - rewrite Htr, request_count_app, request_count_failed_attempts.
    unfold request_count. cbn.
    assert (Hnil : List.filter is_request last = []).
    { clear Htr. induction Hlast as [|a l Ha _ IHl]; [reflexivity|].
      cbn. rewrite Ha. exact IHl. }
    rewrite Hnil. cbn. lia.
  - intros h opts Hin. rewrite Htr in Hin. apply in_app_or in Hin.
    destruct Hin as [Hin|[Hin|Hin]].
    + apply In_failed_attempts in Hin as [Heq|(j & _ & Heq)];
        [injection Heq as -> ->; auto|discriminate].
    + injection Hin as -> ->. auto.
    + rewrite Forall_forall in Hlast.
      specialize (Hlast _ ltac:(apply list_elem_of_In; exact Hin)).
      discriminate.
Qed.

End FetcherOnASilentNetwork.

Section FetcherOnAnyAnswer.

Variable parseURL : string -> option ParsedURL.
Variable cfg : Config.

Lemma getHeaders_normalised (m : nat) : forall u r,
  (Z.to_nat (MAX_RETRIES cfg - r) < m)%nat ->
  all_rets normalised (getHeaders parseURL cfg u r).
Proof.
  induction m as [|m IH]; intros u r Hm; [lia|].
  rewrite getHeaders_equation_1.
  destruct (parseURL u) as [p|]; [|exact I].
  cbn. destruct (negb _); [exact I|]. cbn.
  intros [status loc|c]; cbn.
  - unfold normalised. cbn. destruct (truthy loc) eqn:E; auto.
  - destruct (is_transient c); [|exact I].
    destruct (Z_lt_dec r (MAX_RETRIES cfg)); [|exact I].
    cbn. apply IH. lia.
Qed.

Lemma getHeaders_requests (m : nat) : forall u r,
  (Z.to_nat (MAX_RETRIES cfg - r) < m)%nat ->
  all_requests (well_formed_request cfg) (getHeaders parseURL cfg u r).
Proof.
  induction m as [|m IH]; intros u r Hm; [lia|].
  rewrite getHeaders_equation_1.
  destruct (parseURL u) as [p|]; [|exact I].
  cbn. destruct (negb _) eqn:Hacc; [exact I|]. cbn.
  apply negb_false_iff in Hacc. split.
  - repeat split. unfold protocolHandler, handler_accepts in *. cbn in *.
    destruct (String.eqb (url_protocol p) "https:") eqn:E.
    + left. split; [reflexivity|]. apply String.eqb_eq, E.
    + right. split; [reflexivity|]. apply String.eqb_eq, Hacc.
  - intros [status loc|c]; cbn; [exact I|].
    destruct (is_transient c); [|exact I].
    destruct (Z_lt_dec r (MAX_RETRIES cfg)); [|exact I].
    cbn. apply IH. lia.
Qed.

(** X3. Whatever the URL, the retry count and the network, the headers
    [getHeaders] resolves with have no Location or a non-empty one: a
    response with an empty Location header is handed on as a response
    without one. *)
Theorem getHeaders_never_hands_on_an_empty_location :
  (forall u r, all_rets normalised (getHeaders parseURL cfg u r))
  /\ (forall status,
        headers_of status (Some ""%string) = headers_of status None).
Proof.
  split; [|reflexivity].
  intros u r. apply (getHeaders_normalised (S (Z.to_nat (MAX_RETRIES cfg - r)))).
  lia.
Qed.

End FetcherOnAnyAnswer.

(** ** The validity policy under any configuration *)

Lemma isRedirectValid_true_iff cfg u t chain c f :
  isRedirectValid cfg u t chain c f = true
  <-> u = t /\ c = 1 /\ f = 200
      /\ match head chain with
         | Some hop => In (hop_code hop) (take 2 (PERMANENT_REDIRECT cfg))
         | None => (length (PERMANENT_REDIRECT cfg) < 2)%nat
         end.
Proof.
  unfold isRedirectValid.
  rewrite !andb_true_iff, orb_true_iff, String.eqb_eq, !Z.eqb_eq.
  assert (Hcode :
    strict_eq_num (hop_code <$> head chain) (nth_error (PERMANENT_REDIRECT cfg) 0)
      = true
    \/ strict_eq_num (hop_code <$> head chain)
         (nth_error (PERMANENT_REDIRECT cfg) 1) = true
    <-> match head chain with
        | Some hop => In (hop_code hop) (take 2 (PERMANENT_REDIRECT cfg))
        | None => (length (PERMANENT_REDIRECT cfg) < 2)%nat
        end).
  { destruct (head chain) as [hop|]; cbn;
      destruct (PERMANENT_REDIRECT cfg) as [|a [|b rest]]; cbn;
      rewrite ?take_0, ?Z.eqb_eq; cbn; intuition (try discriminate; try lia). }
  rewrite Hcode. tauto.
Qed.

(** X8. Under any configuration, [isRedirectValid] is true exactly when the
    URLs are equal, the hop count is 1, the final status is 200, and the code
    of the first hop is the first or the second entry of
    [PERMANENT_REDIRECT]: further entries are never looked at. With an empty
    chain the code test compares [undefined] with those two entries and
    passes exactly when there are fewer than two. *)
Theorem isRedirectValid_under_any_configuration cfg u t chain c f :
  isRedirectValid cfg u t chain c f = true
  <-> u = t /\ c = 1 /\ f = 200
      /\ match head chain with
         | Some hop => In (hop_code hop) (take 2 (PERMANENT_REDIRECT cfg))
         | None => (length (PERMANENT_REDIRECT cfg) < 2)%nat
         end.
Proof. apply isRedirectValid_true_iff. Qed.


(** ** The redirect resolver on any network *)

Section ResolverOnAnyNetwork.

Variable parseURL : string -> option ParsedURL.
Variable cfg : Config.
Variables (src wanted : string) (maxRedirections : Z).

#[local] Abbreviation check := (check parseURL cfg src wanted maxRedirections).
#[local] Abbreviation checkURL := (checkURL parseURL cfg src wanted maxRedirections).
#[local] Abbreviation faithful := (faithful_outcome cfg src wanted maxRedirections).

Lemma check_faithful (m : nat) : forall headers l c,
  (check_measure maxRedirections headers c < m)%nat ->
  Z.of_nat (length l) = c ->
  Forall (fun hop => truthy (hop_location hop) = true) l ->
  match headers with
  | Some h => truthy (location h) = true /\ c + 1 <= Z.max 1 maxRedirections
  | None => l = []
  end ->
  all_rets faithful (check headers l c).
Proof.
  induction m as [|m IH]; intros headers l c Hm Hlen Hl Hpre; [lia|].
  rewrite check_body. cbv zeta.
  unfold check_measure in Hm.
  destruct headers as [h|]; cbn [follow_hop hop_limit_reached] in *.
  - destruct Hpre as [Ht Hc]. rewrite Ht in *. cbn [fst snd] in *.
    assert (Hl' : Forall (fun hop => truthy (hop_location hop) = true)
                    (l ++ [{| hop_location := location h;
                              hop_code := statusCode h |}])).
    { apply Forall_app. split; [exact Hl|]. repeat constructor. exact Ht. }
    destruct (Z.leb_spec maxRedirections (c + 1)) as [Hle|Hlt].
    + unfold faithful_outcome, truncated. cbn.
      rewrite length_app, last_snoc. cbn.
      repeat split; auto; try lia; discriminate.
    + cbn [URLToCheck_of].
      destruct (location h) as [u|] eqn:Hu; [|discriminate].
      apply all_rets_bind, all_rets_intro. intros headers'.
      destruct (bool_dec _ true) as [Ht'|Hn].
      * apply IH; auto.
        -- unfold check_measure. cbn [follow_hop]. rewrite Ht'. cbn [snd]. lia.
        -- rewrite length_app. cbn. lia.
        -- split; [exact Ht'|lia].
      * unfold faithful_outcome, completed. cbn.
        rewrite length_app, last_snoc. cbn.
        repeat split; auto; try lia.
        all: match goal with
             | H : isRedirectValid _ _ _ _ _ _ = true |- _ =>
                 pose proof H as Hv;
                 apply isRedirectValid_true_iff in Hv as (-> & _)
             end; auto.
  - cbn [fst snd URLToCheck_of] in *. subst l. cbn in Hlen. subst c.
    apply all_rets_bind, all_rets_intro. intros headers'.
    destruct (bool_dec _ true) as [Ht'|Hn].
    + apply IH; auto.
      * unfold check_measure. cbn [follow_hop]. rewrite Ht'. cbn [snd]. lia.
      * split; [exact Ht'|lia].
    + unfold faithful_outcome, completed. cbn.
      repeat split; auto; try lia.
      all: match goal with
           | H : isRedirectValid _ _ _ _ _ _ = true |- _ =>
               apply isRedirectValid_true_iff in H as (_ & H & _); discriminate
           end.
Qed.

Lemma checkURL_faithful : all_rets faithful checkURL.
Proof.
  unfold checkURL.
  apply (check_faithful (S (check_measure maxRedirections None 0))); auto.
Qed.

(** X4. Whatever the network answers, an outcome of [checkURL] carries the
    source and the wanted destination it was called with; its hop count is
    the length of its chain and at most [maxRedirections] (at most 1 when the
    limit is below 1); every hop of the chain has a non-empty Location; and
    the actual destination is the Location of the last hop, or the source
    when no hop was followed. *)
Theorem checkURL_outcomes_on_any_network :
  all_rets
    (fun o =>
       source o = src
       /\ dest_wanted o = wanted
       /\ Z.of_nat (length (redirectsList o)) = redirectCounter o
       /\ 0 <= redirectCounter o <= Z.max 1 maxRedirections
       /\ Forall (fun hop => truthy (hop_location hop) = true) (redirectsList o)
       /\ dest_actual o = match last (redirectsList o) with
                          | Some hop => hop_location hop
                          | None => Some src
                          end)
    checkURL.
Proof.
  eapply all_rets_impl; [|exact checkURL_faithful].
  intros o (H1 & H2 & H3 & H4 & H5 & H6 & _).
  repeat split; auto. lia.
Qed.

(** X5. Whatever the network answers, an outcome of [checkURL] that is
    marked valid has exactly one hop, whose Location is the wanted
    destination and whose code is the first or second entry of
    [PERMANENT_REDIRECT]; its final code is 200 and its actual destination is
    the wanted one. *)
Theorem checkURL_valid_means_one_permanent_hop :
  all_rets
    (fun o =>
       is_valid o = true ->
       redirectCounter o = 1
       /\ code o = 200
       /\ dest_actual o = Some wanted
       /\ exists hop,
            redirectsList o = [hop]
            /\ hop_location hop = Some wanted
            /\ In (hop_code hop) (take 2 (PERMANENT_REDIRECT cfg)))
    checkURL.
Proof.
  eapply all_rets_impl; [|exact checkURL_faithful].
  intros o (_ & _ & Hlen & _ & _ & Hdest & Hvalid) Hv.
  destruct (Hvalid Hv) as (_ & Hpolicy & Hactual).
  apply isRedirectValid_true_iff in Hpolicy as (_ & Hc & Hf & Hcode).
  rewrite Hc in Hlen.
  destruct (redirectsList o) as [|hop [|hop' rest]]; cbn in Hlen; try lia.
  cbn in Hcode, Hdest.
  repeat split; auto. exists hop. repeat split; auto. congruence.
Qed.

(** X6. With [maxRedirections] at 1 or below, no outcome of [checkURL] is
    ever valid: the first hop already reaches the limit, and an outcome
    without a hop does not pass the policy. *)
Theorem checkURL_needs_a_limit_of_two :
  maxRedirections <= 1 ->
  all_rets (fun o => is_valid o = false) checkURL.
Proof.
  intros Hmax. eapply all_rets_impl; [|exact checkURL_faithful].
  intros o (_ & _ & _ & _ & _ & _ & Hvalid).
  apply not_true_is_false. intros Hv.
  destruct (Hvalid Hv) as (Hlt & Hpolicy & _).
  apply isRedirectValid_true_iff in Hpolicy as (_ & Hc & _). lia.
Qed.

End ResolverOnAnyNetwork.


Section ResolverRequests.

Variable parseURL : string -> option ParsedURL.
Variable cfg : Config.
Variables (src wanted : string) (maxRedirections : Z).
Variable net : nat -> RequestOptions -> NetOutcome.

#[local] Abbreviation check := (check parseURL cfg src wanted maxRedirections).
#[local] Abbreviation budget := (Z.max 0 (MAX_RETRIES cfg) + 1).

Lemma getHeaders_request_bound u n :
  0 <= request_count (run net (getHeaders parseURL cfg u 0) n).2 <= budget.
Proof.
  destruct (fetchable_dec parseURL u) as [[p Hf]|Hno].
  - destruct (run_getHeaders_shape parseURL cfg net u p _ 0 n Hf eq_refl)
      as (k & Hk & _ & Hend).
    destruct Hend as [(status & loc & _ & ->)|(c & _ & _ & ->)]; cbn [snd];
      rewrite request_count_app, request_count_failed_attempts;
      unfold request_count; cbn; lia.
  - destruct (run_getHeaders_unfetchable parseURL cfg net u 0 n Hno) as [e ->].
    unfold request_count. cbn. lia.
Qed.

Lemma check_request_bound (m : nat) : forall h l c n,
  (check_measure maxRedirections (Some h) c < m)%nat ->
  truthy (location h) = true ->
  request_count (run net (check (Some h) l c) n).2
  <= Z.max 0 (maxRedirections - (c + 1)) * budget.
Proof.
  induction m as [|m IH]; intros h l c n Hm Ht; [lia|].
  unfold check_measure in Hm. cbn [follow_hop] in Hm. rewrite Ht in Hm.
  cbn [snd] in Hm.
  destruct (Z_le_gt_dec maxRedirections (c + 1)) as [Hle|Hgt].
  - rewrite check_at_limit by auto. unfold request_count. cbn. lia.
  - destruct (location h) as [u|] eqn:Hu; [|discriminate].
    rewrite (check_below_limit parseURL cfg src wanted maxRedirections h u)
      by (rewrite ?Hu; auto; lia).
    rewrite run_bind.
    pose proof (getHeaders_request_bound u n) as Hb.
    rewrite (Z.max_r 0 (maxRedirections - (c + 1))) by lia.
    set (B := budget) in *. assert (HB : 1 <= B) by (subst B; lia).
    clearbody B.
    destruct (run net (getHeaders parseURL cfg u 0) n) as [[e|a] tr];
      cbn [snd] in *; [nia|].
    rewrite request_count_app.
    destruct (bool_dec _ true) as [Ht'|Hn].
    + specialize (IH a
                    (l ++ [{| hop_location := location h;
                              hop_code := statusCode h |}])
                    (c + 1)
                    (n + length (List.filter is_request tr))%nat).
      lapply IH; [clear IH; intros IH|].
      * specialize (IH Ht').
        destruct (Z.max_spec 0 (maxRedirections - (c + 1 + 1)))
          as [[_ Hmax]|[_ Hmax]]; rewrite Hmax in IH; nia.
      * unfold check_measure. cbn [follow_hop]. rewrite Ht'. cbn [snd]. lia.
    + unfold request_count at 2. cbn. nia.
Qed.

(** X7. Whatever the network does, even a chain of redirects that never ends
    or connections that always fail, one resolution issues at most
    [max 1 maxRedirections * (MAX_RETRIES + 1)] requests: twelve with the
    default configuration. *)
Theorem checkURL_requests_are_bounded :
  request_count
    (run net (checkURL parseURL cfg src wanted maxRedirections) 0).2
  <= Z.max 1 maxRedirections * (Z.max 0 (MAX_RETRIES cfg) + 1).
Proof.
  rewrite checkURL_unfold, run_bind.
  pose proof (getHeaders_request_bound src 0) as Hb.
  assert (Hcheck : forall a n,
             truthy (location a) = true ->
             request_count (run net (check (Some a) [] 0) n).2
             <= Z.max 0 (maxRedirections - (0 + 1)) * budget).
  { intros a n Ht.
    apply (check_request_bound (S (check_measure maxRedirections (Some a) 0)));
      auto. }
  set (B := budget) in *. assert (HB : 1 <= B) by (subst B; lia).
  clearbody B.
  destruct (run net (getHeaders parseURL cfg src 0) 0) as [[e|a] tr];
    cbn [snd] in *; [nia|].
  rewrite request_count_app.
  destruct (bool_dec _ true) as [Ht'|Hn].
  - specialize (Hcheck a (0 + length (List.filter is_request tr))%nat Ht').
    destruct (Z.max_spec 0 (maxRedirections - (0 + 1)))
      as [[_ Hmax]|[_ Hmax]]; rewrite Hmax in Hcheck; nia.
  - unfold request_count at 2. cbn. nia.
Qed.

End ResolverRequests.


(** ** What the code of a resolution does to the state *)

Section GrowFacts.

Variable parseURL : string -> option ParsedURL.
Variable cfg : Config.
Variable net : nat -> RequestOptions -> Z * NetOutcome.
Variable Q : Handler -> RequestOptions -> Prop.
Variable P : Outcome -> Prop.

#[local] Abbreviation drive := (drive net).
#[local] Abbreviation callback_resume := (callback_resume net).
#[local] Abbreviation callback := (callback parseURL cfg net).

Lemma grow_nil s : grow [] [] [] s = s.
Proof. destruct s. unfold grow. cbn. rewrite !app_nil_r. reflexivity. Qed.

Lemma grow_grow l1 r1 e1 l2 r2 e2 s :
  grow l2 r2 e2 (grow l1 r1 e1 s) = grow (l1 ++ l2) (r1 ++ r2) (e1 ++ e2) s.
Proof. unfold grow. cbn. rewrite !app_assoc. reflexivity. Qed.

Lemma all_requests_bind {A B} (p : Prog A) (f : A -> Prog B) :
  all_requests Q p -> (forall a, all_requests Q (f a)) ->
  all_requests Q (p ≫= f).
Proof.
  unfold mbind, Prog_bind. intros Hp Hf.
  induction p as [a|e|h opts k IH|ms k IH|e k IH]; cbn in *; auto.
  destruct Hp as [Hq Hk]. split; auto.
Qed.

(** [drive] adds console lines that are not about a chunk, at most one
    request, and one event exactly when the resolution suspends. *)
Lemma drive_grow i p : forall s,
  all_requests Q p -> all_rets P p ->
  exists lines recs evs,
    (drive i p s).1 = grow lines recs evs s
    /\ Forall quiet_line lines
    /\ Forall (issued Q i (now s)) recs
    /\ (length recs <= 1)%nat
    /\ Forall (keeps Q P i) evs
    /\ match (drive i p s).2 with
       | StillPending => length evs = 1%nat
       | Fulfilled o => evs = [] /\ recs = [] /\ P o
       | Rejected _ => evs = [] /\ recs = []
       end.
Proof.
  induction p as [a|e|h opts k IH|ms k IH|e k IH]; intros s Hq Hp; cbn in *.
  - exists [], [], []. rewrite grow_nil. repeat split; auto.
  - exists [], [], []. rewrite grow_nil. repeat split; auto.
  - destruct Hq as [Hq Hk].
    destruct (net _ opts) as [latency res]. cbn.
    exists [], [{| req_time := now s; req_chunk := i; req_handler := h;
                   req_options := opts |}],
      [{| due := now s + latency; job := Resolution i (k res) |}].
    split; [unfold grow; cbn; rewrite app_nil_r; reflexivity|].
    repeat split; auto.
    + repeat constructor. exact Hq.
    + repeat constructor. exists (k res). auto.
  - exists [], [], [{| due := now s + ms; job := Resolution i k |}].
    split; [unfold grow; cbn; rewrite !app_nil_r; reflexivity|].
    repeat split; auto. repeat constructor. exists k. auto.
  - destruct (IH (print (ErrorFailedToFetch e) s) Hq Hp)
      as (lines & recs & evs & Heq & Hl & Hr & Hn & He & Hres).
    exists (ErrorFailedToFetch e :: lines), recs, evs.
    split; [rewrite Heq; unfold grow; cbn; rewrite <- app_assoc; reflexivity|].
    repeat split; auto. constructor; [exact I|exact Hl].
Qed.

(** [checkURL] begins with a fetch: it suspends on its first request or is
    rejected, and is never fulfilled at once. *)
Lemma drive_checkURL_suspends i src wanted maxRedirections s :
  (drive i (checkURL parseURL cfg src wanted maxRedirections) s).2 = StillPending
  \/ exists e,
      (drive i (checkURL parseURL cfg src wanted maxRedirections) s).2
      = Rejected e.
Proof.
  rewrite checkURL_unfold, getHeaders_equation_1.
  unfold mbind, Prog_bind.
  destruct (parseURL src) as [p|]; cbn; [|eauto].
  destruct (negb _); cbn; [eauto|].
  destruct (net _ _). cbn. auto.
Qed.

Lemma callback_resume_grow i p s :
  all_requests Q p -> all_rets P p ->
  exists lines recs evs,
    grown Q P i (now s) lines recs evs
    /\ (length recs <= 1)%nat
    /\ ((callback_resume i p s = (grow lines recs evs s, StillPending)
         /\ length evs = 1%nat)
        \/ (exists o,
              P o /\ evs = [] /\ recs = []
              /\ callback_resume i p s
                 = (callback_record o (grow lines [] [] s), Fulfilled ()))
        \/ (exists e,
              evs = [] /\ recs = []
              /\ callback_resume i p s = (grow lines [] [] s, Rejected e))).
Proof.
  intros Hq Hp. unfold callback_resume.
  destruct (drive_grow i p s Hq Hp)
    as (lines & recs & evs & Heq & Hl & Hr & Hn & He & Hres).
  exists lines, recs, evs. split; [repeat split; assumption|].
  split; [exact Hn|].
  destruct (drive i p s) as [s' [|o|e]]; cbn in Heq, Hres; subst s'.
  - left. auto.
  - right. left. destruct Hres as (-> & -> & Ho). eauto 6.
  - right. right. destruct Hres as [-> ->]. eauto.
Qed.

Lemma callback_grow i item s :
  row_keeps parseURL cfg Q P item ->
  (missing_urls cfg item = true /\ callback i item s = (s, Fulfilled ()))
  \/ (missing_urls cfg item = false
      /\ exists lines recs evs,
           grown Q P i (now s) lines recs evs
           /\ (length recs <= 1)%nat
           /\ ((callback i item s = (grow lines recs evs s, StillPending)
                /\ length evs = 1%nat)
               \/ (exists e,
                     evs = [] /\ recs = []
                     /\ callback i item s = (grow lines [] [] s, Rejected e)))).
Proof.
  intros Hrow. unfold callback.
  destruct (missing_urls cfg item) eqn:Hmiss.
  - left. split; [reflexivity|].
    destruct (item !! _); [|reflexivity]. destruct (item !! _); reflexivity.
  - right. split; [reflexivity|].
    unfold missing_urls in Hmiss. apply orb_false_iff in Hmiss as [Hs Hd].
    destruct (item !! COLUMN_SOURCE cfg) as [src|] eqn:Hsrc; [|discriminate].
    destruct (item !! COLUMN_DESTINATION cfg) as [dst|] eqn:Hdst; [|discriminate].
    assert (Hmiss : missing_urls cfg item = false).
    { unfold missing_urls. rewrite Hsrc, Hdst, Hs, Hd. reflexivity. }
    destruct (Hrow src dst Hsrc Hdst Hmiss) as [Hq Hp].
    destruct (callback_resume_grow i _ s Hq Hp)
      as (lines & recs & evs & Hg & Hn & Hcases).
    exists lines, recs, evs. split; [exact Hg|]. split; [exact Hn|].
    destruct Hcases as [H|[(o & _ & _ & _ & H)|H]]; auto.
    exfalso. unfold callback_resume in H.
    destruct (drive_checkURL_suspends i src dst (MAX_REDIRECTIONS cfg) s)
      as [Hd'|[e Hd']];
      destruct (drive i _ s) as [s' r]; cbn in Hd'; subst r; discriminate.
Qed.

Lemma map_callbacks_grow i chunk :
  Forall (row_keeps parseURL cfg Q P) chunk ->
  forall s n rej,
  exists lines recs evs,
    grown Q P i (now s) lines recs evs
    /\ (length recs <= length evs)%nat
    /\ (length evs <= length (usable cfg chunk))%nat
    /\ exists rej',
         foldl (fun acc item =>
                  let '(s, unsettled, rejection) := acc in
                  match callback i item s with
                  | (s', StillPending) => (s', S unsettled, rejection)
                  | (s', Fulfilled _) => (s', unsettled, rejection)
                  | (s', Rejected e) =>
                      (s', unsettled,
                       if rejection is Some _ then rejection else Some e)
                  end)
               (s, n, rej) chunk
         = (grow lines recs evs s, (n + length evs)%nat, rej')
         /\ (rej' = None ->
             rej = None /\ length evs = length (usable cfg chunk)).
Proof.
  induction 1 as [|item chunk Hitem _ IH]; intros s n rej.
  - exists [], [], []. repeat split; auto. exists rej.
    cbn. rewrite grow_nil, Nat.add_0_r. auto.
  - cbn [foldl]. unfold usable in *. cbn [List.filter].
    destruct (callback_grow i item s Hitem)
      as [[Hmiss ->]|(Hmiss & l1 & r1 & e1 & (Hl1 & Hr1 & He1) & Hn1 & Hcases)];
      rewrite Hmiss; cbn [negb].
    + apply IH.
    + destruct Hcases as [[-> Hlen]|(e & -> & -> & ->)].
      * destruct (IH (grow l1 r1 e1 s) (S n) rej)
          as (l2 & r2 & e2 & (Hl2 & Hr2 & He2) & Hn2 & Hle & rej' & Heq & Hrej).
        exists (l1 ++ l2), (r1 ++ r2), (e1 ++ e2).
        split; [repeat split; apply Forall_app; auto|].
        rewrite !length_app. cbn [length]. split; [lia|]. split; [lia|].
        exists rej'. rewrite Heq, grow_grow. split; [f_equal; f_equal; lia|].
        intros H. destruct (Hrej H). split; [auto|lia].
      * destruct (IH (grow l1 [] [] s) n
                    (if rej is Some _ then rej else Some e))
          as (l2 & r2 & e2 & (Hl2 & Hr2 & He2) & Hn2 & Hle & rej' & Heq & Hrej).
        exists (l1 ++ l2), r2, e2.
        split; [repeat split; auto; apply Forall_app; auto|].
        cbn [length] in *. split; [lia|]. split; [lia|].
        exists rej'. rewrite Heq, grow_grow. split; [reflexivity|].
        intros H. destruct (Hrej H) as [Hnone _]. destruct rej; discriminate.
Qed.

End GrowFacts.


(** ** One turn of the event loop, case by case *)

Section Turns.

Variable parseURL : string -> option ParsedURL.
Variable localeCompare : string -> string -> Z.
Variable cfg : Config.
Variable net : nat -> RequestOptions -> Z * NetOutcome.
Variable Q : Handler -> RequestOptions -> Prop.
Variable P : Outcome -> Prop.

#[local] Abbreviation start_chunk := (start_chunk parseURL cfg net).
#[local] Abbreviation processUrls := (processUrls parseURL localeCompare cfg net).
#[local] Abbreviation step := (step parseURL localeCompare cfg net).
#[local] Abbreviation main := (main parseURL localeCompare cfg net).
#[local] Abbreviation reachable := (reachable parseURL localeCompare cfg net).

Lemma kept_of_keeps i ev : keeps Q P i ev -> kept Q P ev.
Proof. intros (p & Hjob & H). unfold kept. rewrite Hjob. exact H. Qed.

Lemma start_chunk_cases i chunk s :
  Forall (row_keeps parseURL cfg Q P) chunk ->
  chunk_begun Q P cfg i chunk s (start_chunk i chunk s).
Proof.
  intros Hrows. unfold start_chunk, map_callbacks.
  destruct (map_callbacks_grow parseURL cfg net Q P i chunk Hrows s O None)
    as (lines & recs & evs & Hg & Hn & Hle & rej' & -> & Hrej).
  cbn [Nat.add].
  exists lines, recs, evs. split; [exact Hg|]. split; [lia|].
  destruct rej' as [e|]; [left; eauto|].
  destruct (Hrej eq_refl) as [_ Hlen].
  destruct evs as [|ev evs].
  - right. left. cbn in Hlen. destruct recs; [|cbn in Hn; lia].
    destruct (usable cfg chunk); [|discriminate]. auto.
  - right. right. auto.
Qed.

Lemma processUrls_cases data i s :
  Forall (row_keeps parseURL cfg Q P) data ->
  ((i < length data)%nat
   /\ chunk_begun Q P cfg i (take (CHUNK_SIZE cfg) (drop i data)) s
        (processUrls data i s))
  \/ ((length data <= i)%nat
      /\ processUrls data i s = finish localeCompare s).
Proof.
  intros Hrows. unfold processUrls.
  destruct (Nat.ltb_spec i (length data)); [left|right; auto].
  split; [assumption|]. apply start_chunk_cases.
  apply Forall_take, Forall_drop, Hrows.
Qed.

Lemma step_cases data k s s' :
  Forall (row_keeps parseURL cfg Q P) data ->
  Forall (kept Q P) (pending s) ->
  step data k s = Some s' ->
  exists ev,
    pending s !! k = Some ev
    /\ exit_code s = None
    /\ Forall (fun ev' => due ev <= due ev') (pending s)
    /\ match job ev with
       | Resolution i p => resolution_resumed Q P cfg i (at_event k ev s) s'
       | ChunkDelay =>
           match phase s with
           | Delaying i =>
               ((i + CHUNK_SIZE cfg < length data)%nat
                /\ chunk_begun Q P cfg (i + CHUNK_SIZE cfg)
                     (take (CHUNK_SIZE cfg) (drop (i + CHUNK_SIZE cfg) data))
                     (at_event k ev s) s')
               \/ ((length data <= i + CHUNK_SIZE cfg)%nat
                   /\ s' = finish localeCompare (at_event k ev s))
           | _ => s' = at_event k ev s
           end
       end.
Proof.
  intros Hrows Hkept. unfold step.
  destruct (exit_code s); [discriminate|].
  destruct (pending s !! k) as [ev|] eqn:Hk; [|discriminate].
  destruct (forallb _ _) eqn:Hdue; [|discriminate].
  intros [= <-]. exists ev. split; [reflexivity|]. split; [reflexivity|].
  split.
  { rewrite forallb_forall in Hdue. apply Forall_forall. intros ev' Hin.
    apply Z.leb_le, Hdue. apply list_elem_of_In, Hin. }
  fold (at_event k ev s). unfold fire.
  destruct (job ev) as [i p|] eqn:Hjob.
  - assert (Hp : all_requests Q p /\ all_rets P p).
    { rewrite Forall_forall in Hkept.
      specialize (Hkept ev ltac:(eapply list_elem_of_lookup_2; exact Hk)).
      unfold kept in Hkept. rewrite Hjob in Hkept. exact Hkept. }
    destruct Hp as [Hq Hp].
    destruct (callback_resume_grow net Q P i p (at_event k ev s) Hq Hp)
      as (lines & recs & evs & Hg & Hn & Hcases).
    exists lines, recs, evs. split; [exact Hg|]. split; [exact Hn|].
    destruct Hcases as [[-> Hlen]|[(o & Ho & -> & -> & ->)|(e & -> & -> & ->)]].
    + left. split; [exact Hlen|]. unfold settle_callback.
      destruct (phase _); reflexivity.
    + right. left. eauto.
    + right. right. eauto.
  - change (phase (at_event k ev s)) with (phase s).
    destruct (phase s) as [|i n|i|]; try reflexivity.
    destruct (processUrls_cases data (i + CHUNK_SIZE cfg) (at_event k ev s) Hrows)
      as [[Hlt H]|[Hge ->]]; auto.
Qed.

Lemma main_cases input :
  Forall (row_keeps parseURL cfg Q P) (stream_rows input) ->
  (exists e, main input = catch_main e (boot cfg input))
  \/ chunk_begun Q P cfg 0
       (take (CHUNK_SIZE cfg) (stream_rows input)) (boot cfg input)
       (main input).
Proof.
  intros Hrows. unfold main, getData.
  destruct (stream_error input); [left; eauto|].
  destruct (stream_rows input) as [|row rows] eqn:Hdata; [left; eauto|].
  right. cbn [length Nat.eqb].
  destruct (processUrls_cases (row :: rows) 0 (boot cfg input) Hrows)
    as [[_ H]|[Hge _]]; [exact H|cbn in Hge; lia].
Qed.

End Turns.


(** ** What every reachable state keeps *)

Section Kept.

Variable parseURL : string -> option ParsedURL.
Variable localeCompare : string -> string -> Z.
Variable cfg : Config.
Variable net : nat -> RequestOptions -> Z * NetOutcome.
Variable Q : Handler -> RequestOptions -> Prop.
Variable P : Outcome -> Prop.
Variable I : Report -> Prop.

Hypothesis I_empty : I empty_report.
Hypothesis I_record : forall o r, P o -> I r -> I (record_outcome o r).

#[local] Abbreviation reachable := (reachable parseURL localeCompare cfg net).
#[local] Abbreviation K :=
  (fun s : State =>
     Forall (kept Q P) (pending s)
     /\ Forall (fun r => Q (req_handler r) (req_options r)) (requests s)
     /\ I (report s)).

Lemma settle_callback_cases i r s :
  match r with
  | StillPending => settle_callback cfg i r s = s
  | Fulfilled _ =>
      (phase s = AwaitingAll i 1
       /\ settle_callback cfg i r s = after_chunk cfg i s)
      \/ (exists n, phase s = AwaitingAll i n /\ n <> 1%nat
                    /\ settle_callback cfg i r s
                       = set_phase (AwaitingAll i (Nat.pred n)) s)
      \/ ((forall n, phase s <> AwaitingAll i n)
          /\ settle_callback cfg i r s = s)
  | Rejected e =>
      (exists n, phase s = AwaitingAll i n
                 /\ settle_callback cfg i r s = catch_chunk cfg i e s)
      \/ ((forall n, phase s <> AwaitingAll i n)
          /\ settle_callback cfg i r s = s)
  end.
Proof.
  unfold settle_callback.
  destruct r as [|a|e]; [destruct (phase s); reflexivity| |].
  - destruct (phase s) as [|i' n|i'|]; try (right; right; split; [discriminate|reflexivity]).
    destruct (Nat.eqb_spec i i') as [<-|Hne].
    + destruct (Nat.eqb_spec n 1) as [->|Hn]; [left; auto|right; left; eauto].
    + right. right. split; [congruence|reflexivity].
  - destruct (phase s) as [|i' n|i'|]; try (right; split; [discriminate|reflexivity]).
    destruct (Nat.eqb_spec i i') as [<-|Hne]; [left; eauto|].
    right. split; [congruence|reflexivity].
Qed.

Lemma settle_callback_K i r s : K s -> K (settle_callback cfg i r s).
Proof.
  intros (Hp & Hr & Hi).
  assert (Hdelay : forall s, K s -> K (after_chunk cfg i s)).
  { intros s0 (Hp0 & Hr0 & Hi0). repeat split; auto. cbn.
    apply Forall_app. split; [exact Hp0|]. repeat constructor. }
  pose proof (settle_callback_cases i r s) as H.
  destruct r as [|a|e].
  - rewrite H. auto.
  - destruct H as [[_ ->]|[(n & _ & _ & ->)|[_ ->]]]; auto.
  - destruct H as [(n & _ & ->)|[_ ->]]; auto.
    apply (Hdelay (print (ErrorProcessingChunk e) s)). auto.
Qed.

Lemma grow_K i t lines recs evs s :
  grown Q P i t lines recs evs -> K s -> K (grow lines recs evs s).
Proof.
  intros (_ & Hrecs & Hevs) (Hp & Hr & Hi). repeat split; cbn; auto.
  - apply Forall_app. split; [exact Hp|].
    eapply Forall_impl; [exact Hevs|]. apply kept_of_keeps.
  - apply Forall_app. split; [exact Hr|].
    eapply Forall_impl; [exact Hrecs|]. intros r (_ & _ & H). exact H.
Qed.

Lemma chunk_begun_K i chunk s s' :
  K s -> chunk_begun Q P cfg i chunk s s' -> K s'.
Proof.
  intros HK (lines & recs & evs & Hg & _ & Hcases).
  pose proof (grow_K i _ lines recs evs s Hg HK) as (Hp & Hr & Hi).
  destruct Hcases as [[e ->]|[(-> & -> & _ & ->)|(_ & _ & ->)]];
    repeat split; cbn; auto;
    apply Forall_app; split; auto; repeat constructor.
Qed.

Lemma resolution_resumed_K i s s' :
  K s -> resolution_resumed Q P cfg i s s' -> K s'.
Proof.
  intros HK (lines & recs & evs & Hg & _ & Hcases).
  destruct Hcases as [[_ ->]|[(o & Ho & ->)|(e & ->)]].
  - eapply grow_K; eauto.
  - apply settle_callback_K.
    destruct Hg as (Hl & _ & _).
    pose proof (grow_K i (now s) lines [] [] s
                  ltac:(repeat split; auto) HK) as (Hp & Hr & Hi).
    repeat split; auto. cbn. apply I_record; auto.
  - apply settle_callback_K.
    destruct Hg as (Hl & _ & _).
    apply (grow_K i (now s) lines [] [] s); [repeat split; auto|exact HK].
Qed.

(** Requests, pending resolutions and the report keep to [Q], [P] and [I]
    in every reachable state, when the resolution of every row does. *)
Lemma reachable_kept input s :
  Forall (row_keeps parseURL cfg Q P) (stream_rows input) ->
  reachable input s ->
  K s.
Proof.
  intros Hrows Hreach. induction Hreach as [|s k s' _ IH Hstep].
  - assert (K0 : K (boot cfg input)) by (repeat split; auto).
    destruct (main_cases parseURL localeCompare cfg net Q P input Hrows)
      as [[e ->]|H]; [exact K0|].
    exact (chunk_begun_K _ _ _ _ K0 H).
  - destruct IH as (Hp & Hr & Hi).
    destruct (step_cases parseURL localeCompare cfg net Q P _ k s s'
                Hrows Hp Hstep) as (ev & Hk & _ & _ & Hcases).
    assert (K0 : K (at_event k ev s)).
    { repeat split; auto. cbn. apply Forall_delete, Hp. }
    destruct (job ev) as [i p|].
    + exact (resolution_resumed_K _ _ _ K0 Hcases).
    + destruct (phase s); try (rewrite Hcases; exact K0).
      destruct Hcases as [[_ H]|[_ ->]]; [exact (chunk_begun_K _ _ _ _ K0 H)|].
      destruct K0 as (Hp0 & Hr0 & Hi0). repeat split; auto.
Qed.

End Kept.


(** ** Requests and outcomes of a whole run *)

Section WholeRun.

Variable parseURL : string -> option ParsedURL.
Variable localeCompare : string -> string -> Z.
Variable cfg : Config.
Variable net : nat -> RequestOptions -> Z * NetOutcome.

#[local] Abbreviation reachable := (reachable parseURL localeCompare cfg net).

Lemma all_requests_intro {A} (Q : Handler -> RequestOptions -> Prop)
    (p : Prog A) :
  (forall h opts, Q h opts) -> all_requests Q p.
Proof. intros HQ. induction p; cbn; auto. Qed.

Lemma check_requests src wanted maxRedirections (m : nat) :
  forall headers l c,
  (check_measure maxRedirections headers c < m)%nat ->
  all_requests (well_formed_request cfg)
    (check parseURL cfg src wanted maxRedirections headers l c).
Proof.
  induction m as [|m IH]; intros headers l c Hm; [lia|].
  rewrite check_body. cbv zeta. unfold check_measure in Hm.
  destruct (hop_limit_reached maxRedirections headers _) as [h|] eqn:Hlim;
    [exact I|].
  destruct (URLToCheck_of src headers) as [u|]; [|exact I].
  apply all_requests_bind.
  - apply (getHeaders_requests parseURL cfg
             (S (Z.to_nat (MAX_RETRIES cfg - 0)))). lia.
  - intros headers'. destruct (bool_dec _ true) as [Ht'|Hn]; [|exact I].
    apply IH. unfold check_measure. cbn [follow_hop]. rewrite Ht'. cbn [snd].
    rewrite (surjective_pairing (follow_hop headers l c)) in Hlim |- *.
    cbn [snd] in *.
    assert (Hsnd : (follow_hop headers l c).2 = (follow_hop headers [] c).2).
    { unfold follow_hop. destruct headers as [h|]; [|reflexivity].
      destruct (truthy (location h)); reflexivity. }
    rewrite Hsnd in *.
    destruct headers as [h|]; [|lia].
    cbn [hop_limit_reached] in Hlim.
    destruct (Z.leb_spec maxRedirections (follow_hop (Some h) [] c).2);
      [discriminate|lia].
Qed.

Lemma checkURL_requests src wanted maxRedirections :
  all_requests (well_formed_request cfg)
    (checkURL parseURL cfg src wanted maxRedirections).
Proof.
  unfold checkURL.
  apply (check_requests _ _ _ (S (check_measure maxRedirections None 0))).
  lia.
Qed.

(** X9. Every request the program issues, in any run, is a GET with the
    configured timeout, sent through the [https] module when the protocol of
    the URL is [https:] and through [http] when it is [http:]; a URL with
    another protocol gets no request. *)
Theorem every_request_is_a_get input s :
  reachable input s ->
  Forall (fun r => well_formed_request cfg (req_handler r) (req_options r))
    (requests s).
Proof.
  intros Hreach.
  apply (reachable_kept parseURL localeCompare cfg net
           (well_formed_request cfg) (fun _ => True) (fun _ => True)
           I (fun _ _ _ _ => I) input s); [|exact Hreach].
  apply Forall_forall. intros item _ src dst _ _ _.
  split; [apply checkURL_requests|apply all_rets_intro; auto].
Qed.

(** X10. Every outcome in the report, in any run, is an outcome of a row of
    the input that has both URLs: it carries that row's source and wanted
    destination, and it is faithful, so its hop count is the length of its
    chain and within the limit, and it is valid only after exactly one
    hop. *)
Theorem every_outcome_comes_from_a_row input s :
  reachable input s ->
  Forall (from_row cfg (stream_rows input)) (urls (report s)).
Proof.
  intros Hreach.
  apply (reachable_kept parseURL localeCompare cfg net
           (fun _ _ => True) (from_row cfg (stream_rows input))
           (fun r => Forall (from_row cfg (stream_rows input)) (urls r))
           ltac:(constructor)
           ltac:(intros o r Ho Hr; cbn; apply Forall_app; split;
                 [exact Hr|repeat constructor; exact Ho])
           input s); [|exact Hreach].
  apply Forall_forall. intros item Hin src dst Hsrc Hdst Hmiss.
  split; [apply all_requests_intro; auto|].
  eapply all_rets_impl; [|apply checkURL_faithful].
  intros o Hf. pose proof Hf as (Hs & Hd & _).
  exists item. rewrite Hs, Hd. auto.
Qed.

(** X11. In every reachable state [valid] is the number of outcomes of the
    report that are marked valid and [invalid] the number of those that are
    not. *)
Theorem counters_count_by_verdict input s :
  reachable input s -> counted_by_verdict (report s).
Proof.
  intros Hreach.
  destruct (reachable_kept parseURL localeCompare cfg net
              (fun _ _ => True) (fun _ => True) counted_by_verdict
              ltac:(split; reflexivity)) with (input := input) (s := s)
    as (_ & _ & H); [| |exact Hreach|exact H].
  - intros o r _ [Hv Hi]. unfold counted_by_verdict, record_outcome.
    cbn. rewrite !List.filter_app, !length_app. cbn.
    unfold count_verdict, count_total.
    destruct (is_valid o); cbn; split; lia.
  - apply Forall_forall. intros item _ src dst _ _ _.
    split; [apply all_requests_intro|apply all_rets_intro]; auto.
Qed.

(** X16. When no row of the input has both URLs, no request is ever issued
    and the report stays empty, in every reachable state. *)
Theorem no_usable_row_no_request input s :
  Forall (fun item => missing_urls cfg item = true) (stream_rows input) ->
  reachable input s ->
  requests s = [] /\ report s = empty_report.
Proof.
  intros Hmissing Hreach.
  destruct (reachable_kept parseURL localeCompare cfg net
              (fun _ _ => False) (fun _ => False) (fun r => r = empty_report)
              eq_refl ltac:(intros o r []) input s) as (_ & Hr & Hi);
    [|exact Hreach|].
  - eapply Forall_impl; [exact Hmissing|].
    intros item Hm src dst _ _ Hm'. congruence.
  - split; [|exact Hi]. destruct (requests s) as [|r rs]; [reflexivity|].
    inversion Hr as [|? ? []].
Qed.

End WholeRun.


(** ** The report from turn to turn *)

Section ReportByTurn.

Variable parseURL : string -> option ParsedURL.
Variable localeCompare : string -> string -> Z.
Variable cfg : Config.
Variable net : nat -> RequestOptions -> Z * NetOutcome.

#[local] Abbreviation step := (step parseURL localeCompare cfg net).
#[local] Abbreviation reachable := (reachable parseURL localeCompare cfg net).
#[local] Abbreviation anyQ := (fun (_ : Handler) (_ : RequestOptions) => True).
#[local] Abbreviation anyP := (fun _ : Outcome => True).

Lemma rows_keep_any data : Forall (row_keeps parseURL cfg anyQ anyP) data.
Proof.
  apply Forall_forall. intros item _ src dst _ _ _.
  split; [apply all_requests_intro|apply all_rets_intro]; auto.
Qed.

Lemma pending_kept_any evs : Forall (kept anyQ anyP) evs.
Proof.
  apply Forall_forall. intros ev _. unfold kept.
  destruct (job ev); [|exact I].
  split; [apply all_requests_intro|apply all_rets_intro]; auto.
Qed.

(** A step, case by case, with nothing asked of requests and outcomes. *)
Lemma step_shape data k s s' :
  step data k s = Some s' ->
  exists ev,
    pending s !! k = Some ev
    /\ exit_code s = None
    /\ Forall (fun ev' => due ev <= due ev') (pending s)
    /\ match job ev with
       | Resolution i p => resolution_resumed anyQ anyP cfg i (at_event k ev s) s'
       | ChunkDelay =>
           match phase s with
           | Delaying i =>
               ((i + CHUNK_SIZE cfg < length data)%nat
                /\ chunk_begun anyQ anyP cfg (i + CHUNK_SIZE cfg)
                     (take (CHUNK_SIZE cfg) (drop (i + CHUNK_SIZE cfg) data))
                     (at_event k ev s) s')
               \/ ((length data <= i + CHUNK_SIZE cfg)%nat
                   /\ s' = finish localeCompare (at_event k ev s))
           | _ => s' = at_event k ev s
           end
       end.
Proof.
  apply step_cases; [apply rows_keep_any|apply pending_kept_any].
Qed.

Lemma settle_callback_frame i r s :
  report (settle_callback cfg i r s) = report s
  /\ written (settle_callback cfg i r s) = written s
  /\ requests (settle_callback cfg i r s) = requests s
  /\ now (settle_callback cfg i r s) = now s.
Proof.
  unfold settle_callback.
  destruct (phase s), r; auto; destruct (Nat.eqb _ _); auto.
  destruct (Nat.eqb _ _); auto.
Qed.

Lemma chunk_begun_frame Q P i chunk s s' :
  chunk_begun Q P cfg i chunk s s' ->
  report s' = report s /\ written s' = written s /\ now s' = now s.
Proof.
  intros (lines & recs & evs & _ & _ & [[e ->]|[(_ & _ & _ & ->)|(_ & _ & ->)]]);
    auto.
Qed.

Lemma resolution_resumed_frame Q P i s s' :
  resolution_resumed Q P cfg i s s' ->
  (report s' = report s \/ exists o, P o /\ report s' = record_outcome o (report s))
  /\ written s' = written s /\ now s' = now s.
Proof.
  intros (lines & recs & evs & _ & _ & [[_ ->]|[(o & Ho & ->)|(e & ->)]]).
  - auto.
  - destruct (settle_callback_frame i (Fulfilled ())
                (callback_record o (grow lines [] [] s))) as (-> & -> & _ & ->).
    split; [right; exists o; auto|auto].
  - destruct (settle_callback_frame i (Rejected e) (grow lines [] [] s))
      as (-> & -> & _ & ->).
    auto.
Qed.

Lemma step_report data k s s' :
  step data k s = Some s' ->
  (report s' = report s \/ exists o, report s' = record_outcome o (report s))
  /\ (forall ev, pending s !! k = Some ev -> job ev = ChunkDelay ->
                 report s' = report s).
Proof.
  intros Hstep.
  destruct (step_shape data k s s' Hstep) as (ev & Hk & _ & _ & Hcases).
  assert (Hdelay : job ev = ChunkDelay -> report s' = report s).
  { intros Hjob. rewrite Hjob in Hcases.
    destruct (phase s); try (rewrite Hcases; reflexivity).
    destruct Hcases as [[_ H]|[_ ->]]; [|reflexivity].
    apply chunk_begun_frame in H as (-> & _). reflexivity. }
  split; [|intros ev' Hk' Hjob; rewrite Hk in Hk'; injection Hk' as <-; auto].
  destruct (job ev) as [i p|]; [|left; auto].
  apply resolution_resumed_frame in Hcases as ([H|(o & _ & H)] & _); eauto.
Qed.

(** X12. One turn of the event loop leaves the report as it is or records
    exactly one outcome, at the end of the sequence: outcomes are never
    removed, replaced or reordered while the run lasts. The turn of the
    timer between chunks, which starts the next chunk, records none. *)
Theorem each_turn_records_at_most_one_outcome data k s s' :
  step data k s = Some s' ->
  (report s' = report s \/ exists o, report s' = record_outcome o (report s))
  /\ (forall ev, pending s !! k = Some ev -> job ev = ChunkDelay ->
                 report s' = report s).
Proof. apply step_report. Qed.

Lemma settle_callback_finished i r s :
  phase s = Finished -> settle_callback cfg i r s = s.
Proof. unfold settle_callback. intros ->. reflexivity. Qed.

Lemma resolution_resumed_finished Q P i s s' :
  resolution_resumed Q P cfg i s s' -> phase s = Finished -> phase s' = Finished.
Proof.
  intros (lines & recs & evs & _ & _ & [[_ ->]|[(o & Ho & ->)|(e & ->)]]) Hph;
    [exact Hph| |]; rewrite settle_callback_finished; exact Hph.
Qed.

(** What a step does to the file: nothing, or it is the step that ends
    [main] and writes the report of that moment. *)
Lemma step_written data k s s' :
  step data k s = Some s' ->
  (written s' = written s /\ (phase s = Finished -> phase s' = Finished))
  \/ (phase s <> Finished
      /\ written s' = Some (finalReport localeCompare (report s))
      /\ report s' = report s
      /\ phase s' = Finished).
Proof.
  intros Hstep.
  destruct (step_shape data k s s' Hstep) as (ev & Hk & _ & _ & Hcases).
  destruct (job ev) as [i p|].
  - left. split.
    + apply resolution_resumed_frame in Hcases as (_ & -> & _). reflexivity.
    + apply (resolution_resumed_finished _ _ _ _ _ Hcases).
  - destruct (phase s) as [|i n|i|] eqn:Hph;
      try (left; rewrite Hcases; cbn; split;
           [reflexivity|first [discriminate|intros _; exact Hph]]).
    destruct Hcases as [[_ H]|[_ ->]].
    + left. apply chunk_begun_frame in H as (_ & -> & _).
      split; [reflexivity|discriminate].
    + right. split; [discriminate|]. auto.
Qed.

Lemma main_written input : written (main parseURL localeCompare cfg net input) = None.
Proof.
  destruct (main_cases parseURL localeCompare cfg net anyQ anyP input
              (rows_keep_any _)) as [[e ->]|H]; [reflexivity|].
  apply chunk_begun_frame in H as (_ & -> & _). reflexivity.
Qed.

Lemma reachable_written input s w :
  reachable input s -> written s = Some w ->
  phase s = Finished /\ exists os, written_from localeCompare w (report s) os.
Proof.
  intros Hreach. revert w.
  induction Hreach as [|s k s' _ IH Hstep]; intros w Hw.
  - rewrite main_written in Hw. discriminate.
  - pose proof (step_report _ _ _ _ Hstep) as [Hrep _].
    destruct (step_written _ _ _ _ Hstep)
      as [[Hsame Hph]|(_ & Hw' & Hrep' & Hph)].
    + rewrite Hsame in Hw. destruct (IH w Hw) as (Hfin & os & r0 & -> & Hos).
      split; [auto|].
      destruct Hrep as [->|[o ->]].
      * exists os, r0. auto.
      * exists (os ++ [o]), r0. split; [reflexivity|].
        cbn. rewrite Hos, app_assoc. reflexivity.
    + split; [exact Hph|]. exists [], (report s).
      rewrite Hw' in Hw. injection Hw as <-.
      rewrite Hrep', app_nil_r. auto.
Qed.


(** X13. The report is written at most once, and only by the step that
    ends [main]: a state with a file on disk is a finished one, every later
    step leaves the file and the phase as they are, and the file holds the
    final report of the outcomes recorded up to the moment of writing, so
    that an outcome recorded later is in memory only. *)
Theorem report_is_written_once input s w :
  reachable input s -> written s = Some w ->
  phase s = Finished
  /\ (exists os, written_from localeCompare w (report s) os)
  /\ (forall k s', step (stream_rows input) k s = Some s' ->
                   written s' = Some w /\ phase s' = Finished).
Proof.
  intros Hreach Hw.
  destruct (reachable_written input s w Hreach Hw) as [Hfin Hos].
  split; [exact Hfin|]. split; [exact Hos|].
  intros k s' Hstep.
  destruct (step_written _ _ _ _ Hstep) as [[-> Hph]|(Hne & _)]; [auto|].
  destruct (Hne Hfin).
Qed.

(** ** The rows accounted for *)









(** ** The pace of the chunks *)

Lemma chunk_time_mono i t t' :
  chunk_time cfg i t -> t <= t' -> chunk_time cfg i t'.
Proof. intros (j & Hi & Ht) Hle. exists j. split; [exact Hi|lia]. Qed.

Lemma chunk_time_next i t :
  chunk_time cfg i t ->
  chunk_time cfg (i + CHUNK_SIZE cfg) (t + CHUNK_DELAY cfg).
Proof. intros (j & -> & Ht). exists (S j). split; lia. Qed.

Lemma filter_delete_false {A} (f : A -> bool) (l : list A) k x :
  l !! k = Some x -> f x = false ->
  List.filter f (delete k l) = List.filter f l.
Proof.
  intros Hk Hf. rewrite <- (take_drop_middle l k x Hk) at 2.
  rewrite delete_take_drop, !List.filter_app. cbn. rewrite Hf. reflexivity.
Qed.

Lemma filter_delete_only {A} (f : A -> bool) (l : list A) k x y :
  l !! k = Some x -> f x = true -> List.filter f l = [y] ->
  x = y /\ List.filter f (delete k l) = [].
Proof.
  intros Hk Hf. rewrite <- (take_drop_middle l k x Hk) at 1.
  rewrite delete_take_drop, !List.filter_app. cbn. rewrite Hf.
  destruct (List.filter f (take k l)) as [|a [|b l1]]; cbn;
    destruct (List.filter f (drop (S k) l)); intros [=]; auto.
Qed.

Lemma delays_of_keeps Q P i evs :
  Forall (keeps Q P i) evs -> List.filter is_delay evs = [].
Proof.
  induction 1 as [|ev evs (p & Hjob & _) _ IH]; [reflexivity|].
  cbn. unfold is_delay at 1. rewrite Hjob. exact IH.
Qed.

Lemma grow_paced Q P i lines recs evs s0 :
  grown Q P i (now s0) lines recs evs ->
  chunk_time cfg i (now s0) ->
  paced_requests cfg s0 -> paced_pending cfg s0 ->
  paced_requests cfg (grow lines recs evs s0)
  /\ paced_pending cfg (grow lines recs evs s0)
  /\ pending_delays (grow lines recs evs s0) = pending_delays s0.
Proof.
  intros (_ & Hrecs & Hevs) Ht H1 H2. split; [|split].
  - apply Forall_app. split; [exact H1|].
    eapply Forall_impl; [exact Hrecs|].
    intros r (-> & -> & _). exact Ht.
  - apply Forall_app. split; [exact H2|].
    eapply Forall_impl; [exact Hevs|].
    intros ev (p & -> & _). exact Ht.
  - unfold pending_delays. cbn. rewrite List.filter_app.
    rewrite (delays_of_keeps _ _ _ _ Hevs), app_nil_r. reflexivity.
Qed.

Lemma after_chunk_paced i s1 :
  paced_requests cfg s1 -> paced_pending cfg s1 ->
  pending_delays s1 = [] -> chunk_time cfg i (now s1) ->
  paced cfg (after_chunk cfg i s1).
Proof.
  intros H1 H2 Hd Ht. split; [exact H1|]. split.
  - apply Forall_app. split; [exact H2|]. apply Forall_singleton. exact I.
  - cbn. eexists. unfold pending_delays. cbn.
    rewrite List.filter_app. fold (pending_delays s1). rewrite Hd. cbn.
    split; [reflexivity|]. cbn. apply chunk_time_next, Ht.
Qed.

Lemma awaiting_paced i n s1 :
  paced_requests cfg s1 -> paced_pending cfg s1 ->
  pending_delays s1 = [] -> chunk_time cfg i (now s1) ->
  paced cfg (set_phase (AwaitingAll i n) s1).
Proof.
  intros H1 H2 Hd Ht. split; [exact H1|]. split; [exact H2|].
  split; [exact Ht|exact Hd].
Qed.

Lemma settle_callback_paced i r s1 :
  paced cfg s1 -> paced cfg (settle_callback cfg i r s1).
Proof.
  intros Hp. pose proof Hp as (H1 & H2 & H3).
  pose proof (settle_callback_cases cfg i r s1) as Hcases.
  destruct r as [|a|e].
  - rewrite Hcases. exact Hp.
  - destruct Hcases as [[Hph ->]|[(n & Hph & _ & ->)|[_ ->]]];
      [| |exact Hp]; rewrite Hph in H3; destruct H3 as [Ht Hd].
    + apply after_chunk_paced; auto.
    + apply awaiting_paced; auto.
  - destruct Hcases as [(n & Hph & ->)|[_ ->]]; [|exact Hp].
    rewrite Hph in H3. destruct H3 as [Ht Hd].
    apply (after_chunk_paced i (print (ErrorProcessingChunk e) s1)); auto.
Qed.

Lemma chunk_begun_paced Q P i chunk s0 s' :
  chunk_begun Q P cfg i chunk s0 s' ->
  paced_requests cfg s0 -> paced_pending cfg s0 ->
  pending_delays s0 = [] -> chunk_time cfg i (now s0) ->
  paced cfg s'.
Proof.
  intros (lines & recs & evs & Hg & _ & Hcases) H1 H2 Hd Ht.
  destruct (grow_paced _ _ _ _ _ _ _ Hg Ht H1 H2) as (G1 & G2 & Gd).
  rewrite Hd in Gd.
  destruct Hcases as [[e ->]|[(-> & -> & _ & ->)|(_ & _ & ->)]].
  - apply (after_chunk_paced i
             (print (ErrorProcessingChunk e) (grow lines recs evs s0)));
      auto.
  - apply after_chunk_paced; auto.
  - apply awaiting_paced; auto.
Qed.

Lemma resolution_resumed_paced Q P i s0 s' :
  resolution_resumed Q P cfg i s0 s' ->
  paced cfg s0 -> chunk_time cfg i (now s0) -> paced cfg s'.
Proof.
  intros (lines & recs & evs & Hg & _ & Hcases) (H1 & H2 & H3) Ht.
  assert (Hgrow : forall recs evs,
             grown Q P i (now s0) lines recs evs ->
             paced cfg (grow lines recs evs s0)).
  { intros recs' evs' Hg'.
    destruct (grow_paced _ _ _ _ _ _ _ Hg' Ht H1 H2) as (G1 & G2 & Gd).
    split; [exact G1|]. split; [exact G2|].
    change (phase (grow lines recs' evs' s0)) with (phase s0).
    change (now (grow lines recs' evs' s0)) with (now s0).
    rewrite Gd. exact H3. }
  assert (Hg0 : grown Q P i (now s0) lines [] []).
  { destruct Hg as (Hl & _). split; [exact Hl|]. split; constructor. }
  destruct Hcases as [[_ ->]|[(o & _ & ->)|(e & ->)]].
  - apply Hgrow, Hg.
  - apply settle_callback_paced.
    exact (Hgrow [] [] Hg0).
  - apply settle_callback_paced, Hgrow, Hg0.
Qed.

Lemma at_event_paced k ev s :
  paced cfg s -> pending s !! k = Some ev ->
  paced_requests cfg (at_event k ev s)
  /\ paced_pending cfg (at_event k ev s)
  /\ match job ev with
     | Resolution i _ =>
         chunk_time cfg i (now (at_event k ev s))
         /\ paced cfg (at_event k ev s)
     | ChunkDelay =>
         exists i, phase s = Delaying i
                   /\ pending_delays (at_event k ev s) = []
                   /\ chunk_time cfg (i + CHUNK_SIZE cfg) (now (at_event k ev s))
     end.
Proof.
  intros (H1 & H2 & H3) Hk.
  assert (G2 : paced_pending cfg (at_event k ev s)).
  { unfold paced_pending. cbn. apply Forall_delete.
    eapply Forall_impl; [exact H2|]. intros ev'. cbn beta.
    destruct (job ev'); [|auto].
    intros H. apply (chunk_time_mono _ _ _ H). lia. }
  split; [exact H1|]. split; [exact G2|].
  destruct (job ev) as [i p|] eqn:Hjob.
  - assert (Ht : chunk_time cfg i (Z.max (now s) (due ev))).
    { unfold paced_pending in H2. rewrite Forall_forall in H2.
      specialize (H2 ev ltac:(eapply list_elem_of_lookup_2; exact Hk)).
      rewrite Hjob in H2. apply (chunk_time_mono _ _ _ H2). lia. }
    split; [exact Ht|]. split; [exact H1|]. split; [exact G2|].
    change (phase (at_event k ev s)) with (phase s).
    assert (Hd : pending_delays (at_event k ev s) = pending_delays s).
    { unfold pending_delays. cbn.
      apply (filter_delete_false _ _ _ ev Hk). unfold is_delay.
      rewrite Hjob. reflexivity. }
    rewrite Hd. destruct (phase s); auto.
    destruct H3 as [Ht' Hd']. split; [|exact Hd'].
    apply (chunk_time_mono _ _ _ Ht'). cbn. lia.
  - assert (Hdel : is_delay ev = true) by (unfold is_delay; rewrite Hjob; auto).
    assert (Hin : In ev (pending_delays s)).
    { apply List.filter_In. split; [|exact Hdel].
      apply list_elem_of_In. eapply list_elem_of_lookup_2. exact Hk. }
    destruct (phase s) as [|i n|i|];
      try (rewrite H3 in Hin; destruct Hin);
      try (destruct H3 as [_ H3]; rewrite H3 in Hin; destruct Hin).
    destruct H3 as (ev0 & Hd & Ht).
    destruct (filter_delete_only _ _ _ _ _ Hk Hdel Hd) as [<- Hnil].
    exists i. split; [reflexivity|]. split; [exact Hnil|].
    apply (chunk_time_mono _ _ _ Ht). cbn. lia.
Qed.

Lemma reachable_paced input s : reachable input s -> paced cfg s.
Proof.
  induction 1 as [|s k s' _ IH Hstep].
  - destruct (main_cases parseURL localeCompare cfg net anyQ anyP input
                (rows_keep_any _)) as [[e ->]|H].
    + split; [constructor|]. split; [constructor|reflexivity].
    + apply (chunk_begun_paced _ _ _ _ _ _ H);
        [constructor|constructor|reflexivity|].
      exists O. split; [reflexivity|cbn; lia].
  - destruct (step_shape _ _ _ _ Hstep) as (ev & Hk & _ & _ & Hcases).
    destruct (at_event_paced k ev s IH Hk) as (G1 & G2 & G3).
    destruct (job ev) as [i p|].
    + destruct G3 as [Ht Hp].
      apply (resolution_resumed_paced _ _ _ _ _ Hcases Hp Ht).
    + destruct G3 as (i & Hph & Hd & Ht). rewrite Hph in Hcases.
      destruct Hcases as [[_ H]|[_ ->]].
      * apply (chunk_begun_paced _ _ _ _ _ _ H); auto.
      * split; [exact G1|]. split; [exact G2|exact Hd].
Qed.

(** X15. The chunks are throttled: a request that belongs to the chunk
    number [j], counted from 0, is never issued before [j] times
    [CHUNK_DELAY] have passed since the start, whatever the latencies of the
    network and whichever callbacks were rejected. *)
Theorem chunks_are_spaced_by_the_delay input s :
  (0 < CHUNK_SIZE cfg)%nat ->
  reachable input s ->
  Forall (fun r =>
            Z.of_nat (req_chunk r / CHUNK_SIZE cfg) * CHUNK_DELAY cfg
            <= req_time r) (requests s).
Proof.
  intros Hc Hreach.
  destruct (reachable_paced input s Hreach) as (H1 & _).
  eapply Forall_impl; [exact H1|].
  intros r (j & -> & Ht). rewrite Nat.div_mul by lia. exact Ht.
Qed.

End ReportByTurn.


(** ** Choosing the input *)

Lemma endsWith_spec s suffix :
  endsWith s suffix = true <-> exists stem, s = (stem ++ suffix)%string.
Proof.
  induction s as [|c s IH]; cbn [endsWith].
  - rewrite orb_false_r, String.eqb_eq. split.
    + intros <-. exists ""%string. reflexivity.
    + intros [[|c stem] H]; [exact H|discriminate].
  - rewrite orb_true_iff, String.eqb_eq, IH. split.
    + intros [<-|[stem ->]].
      * exists ""%string. reflexivity.
      * exists (String c stem). reflexivity.
    + intros [[|c' stem] H]; [left; exact H|right].
      injection H as -> ->. exists stem. reflexivity.
Qed.

Lemma csvFiles_spec files x :
  In x (csvFiles files)
  <-> In x files /\ exists stem, x = (stem ++ ".csv")%string.
Proof. unfold csvFiles. rewrite List.filter_In, endsWith_spec. reflexivity. Qed.

Lemma csvFiles_sublist files : sublist (csvFiles files) files.
Proof.
  unfold csvFiles. induction files as [|x files IH]; cbn; [constructor|].
  destruct (endsWith x ".csv"); constructor; exact IH.
Qed.

Section SelectCsvFileProofs.

Variable readdirSync : string -> string + list string.
Variable prompt : list string -> string + string.
Variable join : string -> string -> string.

#[local] Abbreviation selectCsvFile := (selectCsvFile readdirSync prompt join).

(** X18. [selectCsvFile] returns no path exactly when it calls
    [process.exit], and the status is always 1. It shows the prompt exactly
    when the [csv] directory can be listed and has an entry whose name is
    some stem followed by [.csv]; the choices are then exactly those
    entries, in the order of the listing. So it exits with status 1 without
    prompting when the directory cannot be listed or has no such entry. A
    path it returns is the answer of the prompt joined to the directory. *)
Theorem selectCsvFile_offers_the_csv_files dirname :
  ((selectCsvFile dirname).1 = None
   <-> In (Exited 1) (selectCsvFile dirname).2)
  /\ (forall status,
        In (Exited status) (selectCsvFile dirname).2 -> status = 1)
  /\ ((exists choices, In (Prompted choices) (selectCsvFile dirname).2)
      <-> exists files x stem,
            readdirSync (join dirname "csv") = inr files
            /\ In x files /\ x = (stem ++ ".csv")%string)
  /\ (forall choices,
        In (Prompted choices) (selectCsvFile dirname).2 ->
        exists files,
          readdirSync (join dirname "csv") = inr files
          /\ sublist choices files
          /\ forall x,
               In x choices
               <-> In x files /\ exists stem, x = (stem ++ ".csv")%string)
  /\ (forall path,
        (selectCsvFile dirname).1 = Some path ->
        exists choices selectedFile,
          In (Prompted choices) (selectCsvFile dirname).2
          /\ prompt choices = inr selectedFile
          /\ path = join (join dirname "csv") selectedFile).
Proof.
  unfold selectCsvFile.
  destruct (readdirSync (join dirname "csv")) as [message|files] eqn:Hdir.
  { cbn. split; [tauto|]. split; [intuition congruence|].
    split; [split|split].
    - intros (choices & H). intuition discriminate.
    - intros (files & x & stem & H & _). discriminate.
    - intros choices H. exfalso. intuition discriminate.
    - discriminate. }
  assert (Hsome : csvFiles files <> []
                  <-> exists x stem, In x files /\ x = (stem ++ ".csv")%string).
  { split.
    - destruct (csvFiles files) as [|x l] eqn:Hcsv; [congruence|]. intros _.
      assert (Hin : In x (csvFiles files)) by (rewrite Hcsv; left; reflexivity).
      apply csvFiles_spec in Hin as (Hin & stem & Hx). eauto.
    - intros (x & stem & Hin & Hx) Hnil.
      assert (H : In x (csvFiles files)) by (apply csvFiles_spec; eauto).
      rewrite Hnil in H. destruct H. }
  assert (Hchoices : forall choices,
             choices = csvFiles files ->
             sublist choices files
             /\ forall x,
                  In x choices
                  <-> In x files /\ exists stem, x = (stem ++ ".csv")%string).
  { intros choices ->. split; [apply csvFiles_sublist|].
    intros x. apply csvFiles_spec. }
  destruct (csvFiles files) as [|x0 l] eqn:Hcsv; cbn [length Nat.eqb].
  { cbn. split; [tauto|]. split; [intuition congruence|].
    split; [split|split].
    - intros (choices & H). intuition discriminate.
    - intros (files0 & x & stem & [= <-] & Hin & Hx). exfalso.
      apply (proj2 Hsome); eauto.
    - intros choices H. exfalso. intuition discriminate.
    - discriminate. }
  destruct (prompt (x0 :: l)) as [message|selectedFile] eqn:Hp; cbn.
  - split; [tauto|]. split; [intuition congruence|].
    split; [split|split].
    + intros _. destruct (proj1 Hsome ltac:(discriminate)) as (x & stem & H).
      exists files, x, stem. tauto.
    + intros _. eauto.
    + intros choices [H|[H|[H|[H|[]]]]]; try discriminate.
      injection H as <-. exists files. split; [reflexivity|].
      apply Hchoices. reflexivity.
    + discriminate.
  - split; [split; [discriminate|intuition discriminate]|].
    split; [intuition discriminate|].
    split; [split|split].
    + intros _. destruct (proj1 Hsome ltac:(discriminate)) as (x & stem & H).
      exists files, x, stem. tauto.
    + intros _. eauto.
    + intros choices [H|[H|[]]]; try discriminate.
      injection H as <-. exists files. split; [reflexivity|].
      apply Hchoices. reflexivity.
    + intros path [= <-]. exists (x0 :: l), selectedFile. auto.
Qed.

End SelectCsvFileProofs.

(** ** How long a run lasts *)

Section Termination.

Variable parseURL : string -> option ParsedURL.
Variable localeCompare : string -> string -> Z.
Variable cfg : Config.
Variable net : nat -> RequestOptions -> Z * NetOutcome.

#[local] Abbreviation step := (step parseURL localeCompare cfg net).
#[local] Abbreviation main := (main parseURL localeCompare cfg net).
#[local] Abbreviation run_events := (run_events parseURL localeCompare cfg net).
#[local] Abbreviation drive := (drive net).
#[local] Abbreviation callback_resume := (callback_resume net).
#[local] Abbreviation callback := (callback parseURL cfg net).
#[local] Abbreviation start_chunk := (start_chunk parseURL cfg net).
#[local] Abbreviation N := (resolution_bound cfg).

Lemma settles_within_mono {A} (p : Prog A) : forall n m,
  (n <= m)%nat -> settles_within n p -> settles_within m p.
Proof.
  induction p as [a|e|h opts k IH|ms k IH|e k IH]; intros n m Hle; cbn; auto.
  - destruct n as [|n]; [tauto|]. destruct m as [|m]; [lia|].
    intros H o. apply (IH o n m); [lia|apply H].
  - destruct n as [|n]; [tauto|]. destruct m as [|m]; [lia|].
    apply IH. lia.
  - apply IH, Hle.
Qed.

Lemma settles_within_bind {A B} (p : Prog A) (f : A -> Prog B) m : forall n,
  settles_within n p ->
  (forall a, settles_within m (f a)) ->
  settles_within (n + m) (p ≫= f).
Proof.
  unfold mbind, Prog_bind.
  induction p as [a|e|h opts k IH|ms k IH|e k IH]; intros n Hp Hf; cbn in *.
  - apply (settles_within_mono _ m); [lia|apply Hf].
  - exact I.
  - destruct n as [|n]; [destruct Hp|]. cbn. intros o. apply IH; auto.
  - destruct n as [|n]; [destruct Hp|]. cbn. apply IH; auto.
  - apply IH; auto.
Qed.

Lemma getHeaders_settles (m : nat) : forall u r,
  (Z.to_nat (MAX_RETRIES cfg - r) <= m)%nat ->
  settles_within (2 * m + 1) (getHeaders parseURL cfg u r).
Proof.
  induction m as [|m IH]; intros u r Hm; rewrite getHeaders_equation_1;
    (destruct (parseURL u) as [p|]; [|exact I]); cbn;
    (destruct (handler_accepts _ _); cbn; [|exact I]);
    intros [status loc|c]; try exact I;
    destruct (is_transient c); try exact I;
    destruct (Z_lt_dec r (MAX_RETRIES cfg)) as [Hlt|Hge]; try exact I.
  - lia.
  - replace (m + S (m + 0) + 1)%nat with (S (2 * m + 1)) by lia.
    cbn [settles_within]. apply IH. lia.
Qed.

Lemma check_settles src wanted maxRedirections (m : nat) : forall headers l c,
  (check_measure maxRedirections headers c <= m)%nat ->
  settles_within (m * (2 * Z.to_nat (MAX_RETRIES cfg) + 1))
    (check parseURL cfg src wanted maxRedirections headers l c).
Proof.
  induction m as [|m IH]; intros headers l c Hm; rewrite check_body; cbv zeta;
    unfold check_measure in Hm.
  - destruct headers as [h|]; [|lia].
    cbn [follow_hop hop_limit_reached] in *.
    destruct (truthy (location h)); cbn [fst snd] in *;
      [destruct (Z.leb_spec maxRedirections (c + 1)) as [Hle|Hlt]
      |destruct (Z.leb_spec maxRedirections c) as [Hle|Hlt]];
      first [exact I|lia].
  - assert (Hfetch : forall u l' c',
               (Z.to_nat (maxRedirections - (c' + 1)) <= m)%nat ->
               settles_within (S m * (2 * Z.to_nat (MAX_RETRIES cfg) + 1))
                 (getHeaders parseURL cfg u 0 ≫= fun headers' =>
                    match bool_dec (truthy (location headers')) true with
                    | left _ =>
                        check parseURL cfg src wanted maxRedirections
                          (Some headers') l' c'
                    | right _ => Ret (completed cfg src wanted u headers' l' c')
                    end)).
    { intros u l' c' Hc'.
      replace (S m * (2 * Z.to_nat (MAX_RETRIES cfg) + 1))%nat
        with ((2 * Z.to_nat (MAX_RETRIES cfg) + 1)
              + m * (2 * Z.to_nat (MAX_RETRIES cfg) + 1))%nat by lia.
      apply settles_within_bind; [apply getHeaders_settles; lia|].
      intros headers'. destruct (bool_dec _ true) as [Ht'|Hn]; [|exact I].
      apply IH. unfold check_measure. cbn [follow_hop]. rewrite Ht'.
      cbn [snd]. lia. }
    destruct headers as [h|]; cbn [follow_hop hop_limit_reached] in *.
    + destruct (truthy (location h)); cbn [fst snd] in *;
        [destruct (Z.leb_spec maxRedirections (c + 1)) as [Hle|Hlt]
        |destruct (Z.leb_spec maxRedirections c) as [Hle|Hlt]];
        try exact I;
        cbn [URLToCheck_of]; (destruct (location h) as [u|]; [|exact I]);
        apply Hfetch; lia.
    + cbn [fst snd URLToCheck_of] in *. apply Hfetch. lia.
Qed.

Lemma checkURL_settles src wanted :
  settles_within N
    (checkURL parseURL cfg src wanted (MAX_REDIRECTIONS cfg)).
Proof.
  unfold checkURL. apply check_settles. unfold check_measure. cbn. lia.
Qed.

Lemma sum_list_delete (ns : list nat) : forall k n,
  ns !! k = Some n -> sum_list ns = (n + sum_list (delete k ns))%nat.
Proof.
  induction ns as [|a ns IH]; intros [|k] n Hk; try discriminate.
  - injection Hk as ->. reflexivity.
  - change (a + sum_list ns = n + (a + sum_list (delete k ns)))%nat.
    rewrite (IH k n Hk). lia.
Qed.

Lemma event_cost_positive ev n : event_cost ev n -> (1 <= n)%nat.
Proof. unfold event_cost. destruct (job ev); [intros (m & H & _); lia|auto]. Qed.

Lemma costs_mono s c c' : (c <= c')%nat -> costs s c -> costs s c'.
Proof. intros Hle (ns & H & Hs). exists ns. split; [exact H|lia]. Qed.

Lemma costs_schedule delay j s c n :
  costs s c ->
  event_cost {| due := now s + delay; job := j |} n ->
  costs (schedule delay j s) (c + n).
Proof.
  intros (ns & H & Hs) Hev. exists (ns ++ [n]). split.
  - apply Forall2_app; [exact H|]. repeat constructor. exact Hev.
  - rewrite sum_list_with_app. cbn. lia.
Qed.

Lemma within_mono data s m m' :
  (m <= m')%nat -> within cfg data m s -> within cfg data m' s.
Proof. intros Hle (c & H & Hc). exists c. split; [exact H|lia]. Qed.

Lemma drive_costs i (p : Prog Outcome) : forall n s c,
  settles_within n p -> costs s c ->
  phase (drive i p s).1 = phase s
  /\ costs (drive i p s).1
       (c + if (drive i p s).2 is StillPending then n else 0).
Proof.
  induction p as [a|e|h opts k IH|ms k IH|e k IH]; intros n s c Hp Hc; cbn in *.
  - split; [reflexivity|]. rewrite Nat.add_0_r. exact Hc.
  - split; [reflexivity|]. rewrite Nat.add_0_r. exact Hc.
  - destruct n as [|n]; [destruct Hp|].
    destruct (net _ opts) as [latency res]. cbn. split; [reflexivity|].
    apply (costs_schedule latency (Resolution i (k res))
             (log_request _ s) c (S n)); [exact Hc|].
    exists n. split; [lia|apply Hp].
  - destruct n as [|n]; [destruct Hp|]. split; [reflexivity|].
    apply (costs_schedule ms (Resolution i k) s c (S n)); [exact Hc|].
    exists n. split; [lia|exact Hp].
  - apply (IH n (print (ErrorFailedToFetch e) s) c Hp Hc).
Qed.

Lemma callback_resume_costs i p n s c :
  settles_within n p -> costs s c ->
  phase (callback_resume i p s).1 = phase s
  /\ costs (callback_resume i p s).1
       (c + if (callback_resume i p s).2 is StillPending then n else 0).
Proof.
  intros Hp Hc. destruct (drive_costs i p n s c Hp Hc) as [Hph Hcost].
  unfold callback_resume.
  destruct (drive i p s) as [s' [|o|e]]; cbn in *; auto.
Qed.

Lemma callback_costs i item s c :
  costs s c ->
  phase (callback i item s).1 = phase s
  /\ costs (callback i item s).1 (c + N).
Proof.
  intros Hc.
  assert (H0 : costs s (c + N)) by (apply (costs_mono s c); [lia|exact Hc]).
  unfold callback.
  destruct (item !! COLUMN_SOURCE cfg) as [sourceUrl|]; [|auto].
  destruct (item !! COLUMN_DESTINATION cfg) as [destinationUrl|]; [|auto].
  destruct (missing_urls cfg item); [auto|].
  destruct (callback_resume_costs i _ N s c
              (checkURL_settles sourceUrl destinationUrl) Hc) as [Hph Hcost].
  split; [exact Hph|].
  eapply costs_mono; [|exact Hcost].
  destruct (callback_resume i _ s).2; lia.
Qed.

Lemma map_callbacks_costs i chunk : forall s u rej c,
  costs s c ->
  phase (foldl (fun acc item =>
                  let '(s, unsettled, rejection) := acc in
                  match callback i item s with
                  | (s', StillPending) => (s', S unsettled, rejection)
                  | (s', Fulfilled _) => (s', unsettled, rejection)
                  | (s', Rejected e) =>
                      (s', unsettled,
                       if rejection is Some _ then rejection else Some e)
                  end)
               (s, u, rej) chunk).1.1 = phase s
  /\ costs (foldl (fun acc item =>
                     let '(s, unsettled, rejection) := acc in
                     match callback i item s with
                     | (s', StillPending) => (s', S unsettled, rejection)
                     | (s', Fulfilled _) => (s', unsettled, rejection)
                     | (s', Rejected e) =>
                         (s', unsettled,
                          if rejection is Some _ then rejection else Some e)
                     end)
                  (s, u, rej) chunk).1.1 (c + length chunk * N).
Proof.
  induction chunk as [|item chunk IH]; intros s u rej c Hc.
  - cbn. split; [reflexivity|]. rewrite Nat.add_0_r. exact Hc.
  - cbn [foldl length].
    destruct (callback_costs i item s c Hc) as [Hph Hcost].
    destruct (callback i item s) as [s' [|a|e]]; cbn [fst snd] in *;
      match goal with
      | |- context [foldl _ (s', ?u', ?rej') chunk] =>
          destruct (IH s' u' rej' (c + N)%nat Hcost) as [Hph' Hcost']
      end;
      (split; [rewrite Hph'; exact Hph|]);
      (eapply costs_mono; [|exact Hcost']); lia.
Qed.

Lemma after_chunk_within data i s c :
  costs s c ->
  within cfg data (c + 1 + phase_cost cfg data (Delaying i))
    (after_chunk cfg i s).
Proof.
  intros Hc. exists (c + 1)%nat. split; [|cbn; lia].
  apply (costs_schedule (CHUNK_DELAY cfg) ChunkDelay (set_phase (Delaying i) s)
           c 1); [exact Hc|]. unfold event_cost. cbn. lia.
Qed.

Lemma start_chunk_within data i chunk s c :
  costs s c ->
  within cfg data
    (c + length chunk * N + 1 + phase_cost cfg data (Delaying i))
    (start_chunk i chunk s).
Proof.
  intros Hc. unfold start_chunk, map_callbacks.
  destruct (map_callbacks_costs i chunk s O None c Hc) as [Hph Hcost].
  destruct (foldl _ _ chunk) as [[s' u] rej]. cbn [fst snd] in *.
  destruct rej as [e|].
  - apply (after_chunk_within data i (print (ErrorProcessingChunk e) s')).
    exact Hcost.
  - destruct (Nat.eqb u 0).
    + apply after_chunk_within. exact Hcost.
    + exists (c + length chunk * N)%nat. split; [exact Hcost|]. cbn. lia.
Qed.

Lemma settle_callback_within data i r s m :
  within cfg data m s -> within cfg data m (settle_callback cfg i r s).
Proof.
  intros Hw. unfold settle_callback.
  destruct (phase s) as [|i' n|i'|] eqn:Hph; try exact Hw;
    destruct r as [|a|e]; try exact Hw;
    (destruct (Nat.eqb_spec i i') as [<-|Hne]; [|exact Hw]);
    destruct Hw as (c & Hc & Hle); rewrite Hph in Hle; cbn in Hle.
  - destruct (Nat.eqb n 1).
    + eapply within_mono; [|apply after_chunk_within; exact Hc]. cbn. lia.
    + exists c. split; [exact Hc|]. cbn. lia.
  - eapply within_mono;
      [|apply (after_chunk_within data i (print (ErrorProcessingChunk e) s));
        exact Hc].
    cbn. lia.
Qed.

Lemma window_cost (data : list Row) j :
  (0 < CHUNK_SIZE cfg)%nat -> (j < length data)%nat ->
  (length (take (CHUNK_SIZE cfg) (drop j data)) * N + 1
   + (length data - (j + CHUNK_SIZE cfg)) * (N + 2)
   <= (length data - j) * (N + 2))%nat.
Proof.
  intros Hc Hj. rewrite length_take, length_drop.
  set (r := (length data - j)%nat). set (C := CHUNK_SIZE cfg) in *.
  assert (Hr : (1 <= r)%nat) by (subst r; lia).
  replace (length data - (j + C))%nat with (r - C)%nat by (subst r; lia).
  set (B := N). clearbody B r C.
  destruct (Nat.le_ge_cases C r) as [Hle|Hge].
  - rewrite Nat.min_l by lia.
    replace r with (C + (r - C))%nat at 2 by lia. nia.
  - rewrite Nat.min_r by lia. replace (r - C)%nat with O by lia. nia.
Qed.

Lemma step_within data k s s' m :
  (0 < CHUNK_SIZE cfg)%nat ->
  step data k s = Some s' ->
  within cfg data m s ->
  exists m', m = S m' /\ within cfg data m' s'.
Proof.
  intros HC Hstep (c & (ns & Hns & Hsum) & Hle). unfold step in Hstep.
  destruct (exit_code s); [discriminate|].
  destruct (pending s !! k) as [ev|] eqn:Hk; [|discriminate].
  destruct (forallb _ _); [|discriminate].
  injection Hstep as <-.
  destruct (Forall2_lookup_l _ _ _ _ _ Hns Hk) as (nk & Hnk & Hev).
  pose proof (sum_list_delete ns k nk Hnk) as Hsplit.
  pose proof (event_cost_positive ev nk Hev) as Hpos.
  destruct m as [|m]; [lia|]. exists m. split; [reflexivity|].
  set (s0 := set_pending (delete k (pending s))
               (set_now (Z.max (now s) (due ev)) s)).
  assert (H0 : costs s0 (sum_list (delete k ns))).
  { exists (delete k ns). split; [|lia]. apply Forall2_delete. exact Hns. }
  unfold fire. unfold event_cost in Hev.
  destruct (job ev) as [i p|].
  - destruct Hev as (m0 & Hm0 & Hp).
    destruct (callback_resume_costs i p m0 s0 _ Hp H0) as [Hph Hcost].
    destruct (callback_resume i p s0) as [s1 r]. cbn [fst snd] in *.
    apply settle_callback_within.
    eexists. split; [exact Hcost|]. rewrite Hph.
    change (phase s0) with (phase s). destruct r; lia.
  - change (phase s0) with (phase s).
    destruct (phase s) as [|i n|i|] eqn:Hph;
      try (exists (sum_list (delete k ns)); split; [exact H0|];
           change (phase s0) with (phase s); rewrite Hph; cbn in *; lia).
    unfold processUrls.
    destruct (Nat.ltb_spec (i + CHUNK_SIZE cfg) (length data)) as [Hlt|Hge].
    + eapply within_mono; [|apply start_chunk_within; exact H0].
      pose proof (window_cost data (i + CHUNK_SIZE cfg) HC Hlt) as Hw.
      cbn [phase_cost] in *. lia.
    + exists (sum_list (delete k ns)). split; [exact H0|]. cbn. lia.
Qed.

Lemma main_within input :
  within cfg (stream_rows input)
    (turns_bound cfg (length (stream_rows input))) (main input).
Proof.
  assert (H0 : costs (boot cfg input) 0).
  { exists []. split; [constructor|reflexivity]. }
  unfold main, getData.
  destruct (stream_error input);
    [exists O; split; [exact H0|cbn; unfold turns_bound; lia]|].
  destruct (Nat.eqb _ 0);
    [exists O; split; [exact H0|cbn; unfold turns_bound; lia]|].
  unfold processUrls.
  destruct (Nat.ltb_spec 0 (length (stream_rows input))) as [Hlt|Hge].
  - eapply within_mono; [|apply start_chunk_within; exact H0].
    cbn [phase_cost Nat.add]. rewrite drop_0, length_take. unfold turns_bound.
    set (n := length (stream_rows input)). set (C := CHUNK_SIZE cfg).
    set (B := N). clearbody n C B.
    destruct (Nat.le_ge_cases C n) as [Hle|Hge].
    + rewrite Nat.min_l by lia. replace n with (C + (n - C))%nat at 2 by lia.
      nia.
    + rewrite Nat.min_r by lia. replace (n - C)%nat with O by lia. nia.
  - exists O. split; [exact H0|cbn; lia].
Qed.

Lemma run_events_within data ks : forall s s' m,
  (0 < CHUNK_SIZE cfg)%nat ->
  within cfg data m s ->
  run_events data ks s = Some s' ->
  (length ks <= m)%nat.
Proof.
  unfold run_events.
  induction ks as [|k ks IH]; intros s s' m HC Hw Hrun; cbn in *; [lia|].
  destruct (step data k s) as [s1|] eqn:Hstep.
  - destruct (step_within data k s s1 m HC Hstep Hw) as (m' & -> & Hw').
    specialize (IH s1 s' m' HC Hw' Hrun). lia.
  - exfalso. clear -Hrun.
    induction ks as [|k' ks IH']; cbn in Hrun; [discriminate|auto].
Qed.

(** X19. With a positive [CHUNK_SIZE], on any network and under any order
    of the events, a run of [n] rows takes at most [n * (b + 2) + 1] turns
    of the event loop, where [b] bounds the responses, errors and timers of
    one resolution: no run goes on for ever. *)
Theorem every_run_ends input ks s :
  (0 < CHUNK_SIZE cfg)%nat ->
  run_events (stream_rows input) ks (main input) = Some s ->
  (length ks <= turns_bound cfg (length (stream_rows input)))%nat.
Proof.
  intros HC Hrun.
  exact (run_events_within _ ks _ _ _ HC (main_within input) Hrun).
Qed.

End Termination.

(** ** How a run ends *)

Section Ending.

Variable parseURL : string -> option ParsedURL.
Variable localeCompare : string -> string -> Z.
Variable cfg : Config.
Variable net : nat -> RequestOptions -> Z * NetOutcome.

#[local] Abbreviation step := (step parseURL localeCompare cfg net).
#[local] Abbreviation main := (main parseURL localeCompare cfg net).
#[local] Abbreviation reachable := (reachable parseURL localeCompare cfg net).
#[local] Abbreviation anyQ := (fun (_ : Handler) (_ : RequestOptions) => True).
#[local] Abbreviation anyP := (fun _ : Outcome => True).

Lemma step_exit_code data k s s' :
  step data k s = Some s' -> exit_code s = None /\ exit_code s' = None.
Proof.
  unfold step. destruct (exit_code s) eqn:Hex; [discriminate|].
  destruct (pending s !! k) as [ev|]; [|discriminate].
  destruct (forallb _ _); [|discriminate].
  intros [= <-]. split; [reflexivity|]. rewrite fire_exit_code. exact Hex.
Qed.

Lemma filter_delete_true {A} (f : A -> bool) (l : list A) k x :
  l !! k = Some x -> f x = true ->
  length (List.filter f l) = S (length (List.filter f (delete k l))).
Proof.
  intros Hk Hf. rewrite <- (take_drop_middle l k x Hk) at 1.
  rewrite delete_take_drop, !List.filter_app. cbn. rewrite Hf.
  rewrite !length_app. cbn. lia.
Qed.

Lemma of_chunk_keeps Q P i evs :
  Forall (keeps Q P i) evs ->
  List.filter (of_chunk i) evs = evs
  /\ Forall (not_after i) evs
  /\ forall j, j <> i -> List.filter (of_chunk j) evs = [].
Proof.
  induction 1 as [|ev evs (p & Hjob & _) _ (IH1 & IH2 & IH3)];
    [repeat split; constructor|].
  split; [|split].
  - cbn. unfold of_chunk at 1. rewrite Hjob, Nat.eqb_refl, IH1. reflexivity.
  - constructor; [|exact IH2]. unfold not_after. rewrite Hjob. lia.
  - intros j Hj. cbn. unfold of_chunk at 1. rewrite Hjob.
    destruct (Nat.eqb_spec j i); [contradiction|]. apply IH3, Hj.
Qed.

Lemma not_after_mono i j ev : (i <= j)%nat -> not_after i ev -> not_after j ev.
Proof. unfold not_after. destruct (job ev); [lia|auto]. Qed.

Lemma of_chunk_not_after i j l :
  (i < j)%nat -> Forall (not_after i) l -> List.filter (of_chunk j) l = [].
Proof.
  intros Hlt. induction 1 as [|ev l Hev _ IH]; [reflexivity|].
  cbn. rewrite IH. unfold of_chunk, not_after in *.
  destruct (job ev) as [i' p|]; [|reflexivity].
  destruct (Nat.eqb_spec j i'); [lia|reflexivity].
Qed.

(** The state after a chunk was begun at a row past every pending
    resolution is live. *)
Lemma chunk_begun_live Q P i j chunk s0 s' :
  chunk_begun Q P cfg j chunk s0 s' ->
  exit_code s0 = None ->
  Forall (not_after i) (pending s0) ->
  (pending s0 = [] \/ (i < j)%nat) ->
  live s'.
Proof.
  intros (lines & recs & evs & (_ & _ & Hevs) & _ & Hcases) Hex Hold Hij.
  destruct (of_chunk_keeps _ _ _ _ Hevs) as (Hall & Hnew & _).
  assert (Hold' : Forall (not_after j) (pending s0)).
  { destruct Hij as [->|Hlt]; [constructor|].
    eapply Forall_impl; [exact Hold|]. intros ev. apply not_after_mono. lia. }
  assert (Hnone : List.filter (of_chunk j) (pending s0) = []).
  { destruct Hij as [->|Hlt]; [reflexivity|].
    apply (of_chunk_not_after i); assumption. }
  destruct Hcases as [[e ->]|[(-> & -> & _ & ->)|(Hne & _ & ->)]];
    unfold live; cbn.
  - split; [exact Hex|]. rewrite !Forall_app. repeat split; auto.
    repeat constructor.
  - split; [exact Hex|]. rewrite !Forall_app. repeat split; auto.
    repeat constructor.
  - split; [exact Hex|]. split; [destruct evs; [congruence|cbn; lia]|].
    split.
    + unfold awaited. cbn. rewrite List.filter_app, Hnone, Hall. reflexivity.
    + apply Forall_app. auto.
Qed.

(** Settling a resolution of chunk [i0] in a state that is live once that
    resolution is counted. *)
Lemma settle_callback_live i0 r s1 :
  r <> StillPending ->
  match phase s1 with
  | Starting => False
  | AwaitingAll i n =>
      exit_code s1 = None /\ (1 <= n)%nat
      /\ awaited i s1 = (if Nat.eqb i0 i then Nat.pred n else n)
      /\ Forall (not_after i) (pending s1)
  | _ => live s1
  end ->
  live (settle_callback cfg i0 r s1).
Proof.
  intros Hr H. unfold settle_callback.
  destruct (phase s1) as [|i n|i|] eqn:Hph; [destruct H| | |];
    try (destruct r; exact H).
  destruct H as (Hex & Hn & Haw & Hold).
  destruct (Nat.eqb_spec i0 i) as [->|Hne].
  - destruct r as [|a|e]; [congruence| |].
    + destruct (Nat.eqb_spec n 1) as [->|Hn1]; unfold live; cbn.
      * split; [exact Hex|]. apply Forall_app. split; [exact Hold|].
        repeat constructor.
      * split; [exact Hex|]. split; [lia|]. split; [exact Haw|exact Hold].
    + unfold live. cbn. split; [exact Hex|].
      apply Forall_app. split; [exact Hold|]. repeat constructor.
  - assert (Hl : live s1) by (unfold live; rewrite Hph; auto).
    destruct r; exact Hl.
Qed.

Lemma resolution_resumed_live Q P k ev i0 p s s' :
  live s -> pending s !! k = Some ev -> job ev = Resolution i0 p ->
  resolution_resumed Q P cfg i0 (at_event k ev s) s' ->
  live s'.
Proof.
  intros Hlive Hk Hjob (lines & recs & evs & (_ & _ & Hevs) & _ & Hcases).
  destruct (of_chunk_keeps _ _ _ _ Hevs) as (Hall & Hnew & Hother).
  assert (Hof : of_chunk i0 ev = true).
  { unfold of_chunk. rewrite Hjob. apply Nat.eqb_refl. }
  assert (Hothers : forall i, i <> i0 -> of_chunk i ev = false).
  { intros i Hi. unfold of_chunk. rewrite Hjob.
    destruct (Nat.eqb_spec i i0); [contradiction|reflexivity]. }
  assert (Hin : ev ∈ pending s) by (eapply list_elem_of_lookup_2; exact Hk).
  (* the state once the event is taken off the list *)
  assert (Hoff :
    match phase s with
    | Starting => False
    | AwaitingAll i n =>
        exit_code s = None /\ (1 <= n)%nat
        /\ length (List.filter (of_chunk i) (delete k (pending s)))
           = (if Nat.eqb i0 i then Nat.pred n else n)
        /\ Forall (not_after i) (delete k (pending s))
        /\ (i0 <= i)%nat
    | Delaying i =>
        exit_code s = None /\ Forall (not_after i) (delete k (pending s))
        /\ (i0 <= i)%nat
    | Finished => exit_code s = None /\ exists w, written s = Some w
    end).
  { unfold live in Hlive. destruct (phase s) as [|i n|i|].
    - destruct Hlive as [_ Hnil]. rewrite Hnil in Hk. discriminate.
    - destruct Hlive as (Hex & Hn & Haw & Hold).
      assert (Hle : (i0 <= i)%nat).
      { rewrite Forall_forall in Hold. specialize (Hold ev Hin).
        unfold not_after in Hold. rewrite Hjob in Hold. exact Hold. }
      split; [exact Hex|]. split; [exact Hn|]. split; [|split].
      + unfold awaited in Haw. destruct (Nat.eqb_spec i0 i) as [->|Hne].
        * rewrite (filter_delete_true _ _ _ _ Hk Hof) in Haw. lia.
        * rewrite (filter_delete_false _ _ _ _ Hk (Hothers i ltac:(auto))).
          exact Haw.
      + apply Forall_delete, Hold.
      + exact Hle.
    - destruct Hlive as (Hex & Hold). split; [exact Hex|].
      split; [apply Forall_delete, Hold|].
      rewrite Forall_forall in Hold. specialize (Hold ev Hin).
      unfold not_after in Hold. rewrite Hjob in Hold. exact Hold.
    - exact Hlive. }
  assert (Hsettle : forall r o_lines s1,
             r <> StillPending ->
             phase s1 = phase s -> exit_code s1 = exit_code s ->
             written s1 = written s ->
             pending s1 = delete k (pending s) ++ o_lines ->
             o_lines = [] ->
             live (settle_callback cfg i0 r s1)).
  { intros r o_lines s1 Hr Hph Hex Hw Hp ->. rewrite app_nil_r in Hp.
    apply settle_callback_live; [exact Hr|].
    unfold live, awaited. rewrite Hph, Hex, Hw, Hp.
    destruct (phase s) as [|i n|i|]; [exact Hoff| | |exact Hoff].
    - destruct Hoff as (H1 & H2 & H3 & H4 & _). auto.
    - destruct Hoff as (H1 & H2 & _). auto. }
  destruct Hcases as [[Hlen ->]|[(o & _ & ->)|(e & ->)]].
  - unfold live, awaited. cbn.
    destruct evs as [|ev' [|]]; try discriminate.
    destruct (phase s) as [|i n|i|]; [destruct Hoff| | |exact Hoff].
    + destruct Hoff as (Hex & Hn & Haw & Hold & Hle).
      split; [exact Hex|]. split; [exact Hn|]. split.
      * rewrite List.filter_app, length_app, Haw.
        destruct (Nat.eqb_spec i0 i) as [->|Hne].
        -- rewrite Hall. cbn. lia.
        -- rewrite (Hother i ltac:(auto)). cbn. lia.
      * apply Forall_app. split; [exact Hold|].
        eapply Forall_impl; [exact Hnew|]. intros x. apply not_after_mono, Hle.
    + destruct Hoff as (Hex & Hold & Hle). split; [exact Hex|].
      apply Forall_app. split; [exact Hold|].
      eapply Forall_impl; [exact Hnew|]. intros x. apply not_after_mono, Hle.
  - apply (Hsettle _ []); auto; discriminate.
  - apply (Hsettle _ []); auto; discriminate.
Qed.

Lemma main_live input : live (main input).
Proof.
  destruct (main_cases parseURL localeCompare cfg net anyQ anyP input
              (rows_keep_any _ _ _)) as [[e ->]|H].
  - split; reflexivity.
  - apply (chunk_begun_live _ _ 0 _ _ _ _ H); [reflexivity|constructor|].
    left. reflexivity.
Qed.

Lemma reachable_live input s :
  (0 < CHUNK_SIZE cfg)%nat -> reachable input s -> live s.
Proof.
  intros HC. induction 1 as [|s k s' _ IH Hstep]; [apply main_live|].
  destruct (step_exit_code _ _ _ _ Hstep) as [Hex Hex'].
  destruct (step_shape _ _ _ _ _ _ _ _ Hstep) as (ev & Hk & _ & _ & Hcases).
  destruct (job ev) as [i0 p|] eqn:Hjob.
  - exact (resolution_resumed_live _ _ _ _ _ _ _ _ IH Hk Hjob Hcases).
  - assert (Hdel : forall i, of_chunk i ev = false).
    { intros i. unfold of_chunk. rewrite Hjob. reflexivity. }
    unfold live in IH.
    destruct (phase s) as [|i n|i|] eqn:Hph.
    + destruct IH as [_ Hnil]. rewrite Hnil in Hk. discriminate.
    + subst s'. unfold live, awaited. cbn. rewrite Hph.
      destruct IH as (_ & Hn & Haw & Hold).
      split; [exact Hex|]. split; [exact Hn|]. split.
      * rewrite (filter_delete_false _ _ _ _ Hk (Hdel i)). exact Haw.
      * apply Forall_delete, Hold.
    + destruct IH as (_ & Hold). destruct Hcases as [[_ H]|[_ ->]].
      * apply (chunk_begun_live _ _ i _ _ _ _ H); [exact Hex| |right; lia].
        apply Forall_delete, Hold.
      * unfold live. cbn. split; [exact Hex|]. eauto.
    + subst s'. unfold live. cbn. rewrite Hph. exact IH.
Qed.

(** X20. With a positive [CHUNK_SIZE], in every reachable state what [main]
    waits for is under way. While it awaits a chunk with [n] unsettled
    resolutions, [n] is at least 1 and exactly [n] events of that chunk are
    pending, each the open request or the backoff timer of one of them;
    during the pause exactly one timer of the pause is pending; and [main]
    is in its first phase only after it failed and exited with status 1,
    with nothing pending. So when nothing is pending, [main] has failed at
    the start or has gone through every chunk: the scheduler never waits for
    a resolution or a timer that is not there, though it waits for as long
    as a request stays open. *)
Theorem main_waits_only_for_what_is_pending input s :
  (0 < CHUNK_SIZE cfg)%nat ->
  reachable input s ->
  match phase s with
  | Starting => exit_code s = Some 1 /\ pending s = []
  | AwaitingAll i n =>
      (1 <= n)%nat /\ awaited i s = n /\ exit_code s = None
  | Delaying i => (exists ev, pending_delays s = [ev]) /\ exit_code s = None
  | Finished => True
  end
  /\ (pending s = [] -> phase s = Starting \/ phase s = Finished).
Proof.
  intros HC Hreach.
  pose proof (reachable_live input s HC Hreach) as Hlive.
  pose proof (reachable_paced parseURL localeCompare cfg net input s Hreach)
    as (_ & _ & Hpaced).
  unfold live, awaited in *.
  destruct (phase s) as [|i n|i|].
  - split; [exact Hlive|]. auto.
  - destruct Hlive as (Hex & Hn & Haw & _). split; [auto|].
    intros Hnil. rewrite Hnil in Haw. cbn in Haw. lia.
  - destruct Hlive as (Hex & _). destruct Hpaced as (ev & Hd & _).
    split; [eauto|].
    intros Hnil. unfold pending_delays in Hd. rewrite Hnil in Hd.
    discriminate.
  - auto.
Qed.

(** X21. With a [CHUNK_SIZE] of zero the loop of [processUrls] never
    advances: on an input with rows, every reachable state is the pause
    after an empty chunk at row 0, with no request issued and no report
    written, and the timer of the pause can fire once more. *)
Theorem zero_chunk_size_never_finishes input s :
  CHUNK_SIZE cfg = 0%nat ->
  stream_error input = None ->
  stream_rows input <> [] ->
  reachable input s ->
  phase s = Delaying 0
  /\ requests s = []
  /\ written s = None
  /\ exists s', step (stream_rows input) 0 s = Some s'.
Proof.
  intros HC Herr Hrows Hreach.
  assert (Hlen : Nat.ltb 0 (length (stream_rows input)) = true).
  { apply Nat.ltb_lt. destruct (stream_rows input); [congruence|cbn; lia]. }
  assert (Hinv : phase s = Delaying 0 /\ requests s = [] /\ written s = None
                 /\ exit_code s = None
                 /\ exists t, pending s = [{| due := t; job := ChunkDelay |}]).
  { induction Hreach as [|s k s' _ IH Hstep].
    - unfold main, getData. rewrite Herr.
      destruct (Nat.eqb_spec (length (stream_rows input)) 0) as [H0|_];
        [apply Nat.ltb_lt in Hlen; lia|].
      unfold processUrls. rewrite Hlen, HC. cbn. eauto 10.
    - destruct IH as (Hph & Hreq & Hw & Hex & t & Hp).
      unfold step in Hstep. rewrite Hex, Hp in Hstep.
      destruct k as [|k]; [|discriminate]. cbn in Hstep.
      rewrite Z.leb_refl in Hstep. cbn in Hstep. rewrite Hph in Hstep.
      unfold processUrls in Hstep. rewrite HC in Hstep.
      cbn [Nat.add] in Hstep. rewrite Hlen in Hstep.
      injection Hstep as <-. rewrite take_0.
      unfold start_chunk, map_callbacks. cbn. rewrite Hreq, Hw, Hex. eauto 10. }
  destruct Hinv as (Hph & Hreq & Hw & Hex & t & Hp).
  split; [exact Hph|]. split; [exact Hreq|]. split; [exact Hw|].
  unfold step. rewrite Hex, Hp. cbn. rewrite Z.leb_refl. cbn. eauto.
Qed.

End Ending.

(** ** The counts of the report, turn by turn *)

Section ReportCounts.

Variable parseURL : string -> option ParsedURL.
Variable localeCompare : string -> string -> Z.
Variable cfg : Config.
Variable net : nat -> RequestOptions -> Z * NetOutcome.

#[local] Abbreviation step := (step parseURL localeCompare cfg net).
#[local] Abbreviation reachable := (reachable parseURL localeCompare cfg net).

(** The turn of a resolution: the report changes exactly when the
    resolution is fulfilled in that turn, and then by its outcome. *)
Lemma resolution_turn_report data k s s' ev i p :
  step data k s = Some s' ->
  pending s !! k = Some ev ->
  job ev = Resolution i p ->
  match (drive net i p (at_event k ev s)).2 with
  | Fulfilled o => report s' = record_outcome o (report s)
  | _ => report s' = report s
  end.
Proof.
  unfold step. intros Hstep Hk Hjob.
  destruct (exit_code s); [discriminate|]. rewrite Hk in Hstep.
  destruct (forallb _ _); [|discriminate].
  injection Hstep as <-. fold (at_event k ev s).
  unfold fire. rewrite Hjob. unfold callback_resume.
  pose proof (drive_report net i p (at_event k ev s)) as [Hrep _].
  destruct (drive net i p (at_event k ev s)) as [s1 [|o|e]]; cbn [fst snd] in *;
    rewrite (proj1 (settle_callback_frame cfg i _ _)).
  - exact Hrep.
  - cbn. rewrite Hrep. reflexivity.
  - exact Hrep.
Qed.

(** C4. In every state the program can be observed in, between two turns of
    the event loop, during the run and after it, the report satisfies
    [total = valid + invalid = length urls], and so does the report handed
    to the writer. The report changes only in the turn in which a resolution
    is fulfilled, and then all at once: that turn adds one to [total], one
    to [valid] or to [invalid] according to [is_valid] of the outcome the
    resolution was fulfilled with, and that outcome at the end of [urls]. A
    turn in which the resolution suspends again or is rejected, and the turn
    of the timer that starts the next chunk, leave the report as it is. *)
Theorem report_counts_hold_in_every_state :
  (forall input s, reachable input s -> counts_hold s)
  /\ (forall data k s s' ev,
        step data k s = Some s' ->
        pending s !! k = Some ev ->
        match job ev with
        | Resolution i p =>
            match (drive net i p (at_event k ev s)).2 with
            | Fulfilled o => recorded o (report s) (report s')
            | _ => report s' = report s
            end
        | ChunkDelay => report s' = report s
        end).
Proof.
  split.
  - intros input s Hreach. induction Hreach as [|s k s' _ IH Hstep].
    + apply main_counts.
    + eapply step_counts; eauto.
  - intros data k s s' ev Hstep Hk.
    destruct (job ev) as [i p|] eqn:Hjob.
    + pose proof (resolution_turn_report data k s s' ev i p Hstep Hk Hjob) as H.
      destruct (drive net i p (at_event k ev s)).2 as [|o|e]; auto.
      rewrite H. exact (record_outcome_counts o (report s)).
    + exact (proj2 (step_report parseURL localeCompare cfg net data k s s' Hstep)
               ev Hk Hjob).
Qed.

End ReportCounts.

(** ** The further properties at work *)

(** What holds of every value a program can return holds of the value a run
    of it returns. *)
Lemma all_rets_run {A : Type} (P : A -> Prop)
    (net : nat -> RequestOptions -> NetOutcome) (p : Prog A) :
  forall n a tr, all_rets P p -> run net p n = (inr a, tr) -> P a.
Proof.
  induction p as [a0|e|h opts k IH|ms k IH|e k IH]; intros n a tr Hall Hrun;
    cbn in Hrun.
  - injection Hrun as <- _. exact Hall.
  - discriminate.
  - destruct (run net (k (net n opts)) (S n)) as [r tr'] eqn:Hk.
    injection Hrun as -> _. exact (IH _ _ _ _ (Hall _) Hk).
  - destruct (run net k n) as [r tr'] eqn:Hk.
    injection Hrun as -> _. exact (IH _ _ _ Hall Hk).
  - destruct (run net k n) as [r tr'] eqn:Hk.
    injection Hrun as -> _. exact (IH _ _ _ Hall Hk).
Qed.

(** Two resets, then silence: two retries, three requests, and a fetch that
    never settles. *)
Lemma getHeaders_on_any_network_witness :
  let p := World.parsed "https:" "a.example" "/new" in
  fetchable World.parseURL "https://a.example/new" p
  /\ run_or_hang World.reset_then_silent
       (getHeaders World.parseURL CONFIG "https://a.example/new" 0) 0
     = (None,
        [Requested Https (request_options CONFIG p); Waited 1000;
         Requested Https (request_options CONFIG p); Waited 2000;
         Requested Https (request_options CONFIG p)])
  /\ exists k : nat,
       Z.of_nat k <= Z.max 0 (MAX_RETRIES CONFIG)
       /\ transient_answers CONFIG World.reset_then_silent p 0 k
       /\ request_count
            (run_or_hang World.reset_then_silent
               (getHeaders World.parseURL CONFIG "https://a.example/new" 0) 0).2
          = Z.of_nat k + 1.
Proof.
  cbv zeta.
  assert (Hf : fetchable World.parseURL "https://a.example/new"
                 (World.parsed "https:" "a.example" "/new")).
  { split; reflexivity. }
  split; [exact Hf|]. split; [vm_compute; reflexivity|].
  destruct (getHeaders_on_any_network World.parseURL CONFIG
              World.reset_then_silent _ _ Hf) as (k & Hk & Htr & Hn & _).
  exists k. split; [exact Hk|]. split; [exact Htr|exact Hn].
Defined.

Lemma getHeaders_backoff_is_bounded_witness :
  0 <= INITIAL_BACKOFF CONFIG
  /\ 0 <= MAX_RETRIES CONFIG
  /\ 0 <= wait_total
            (run World.flaky_net
               (getHeaders World.parseURL CONFIG "https://a.example/new" 0) 0).2
       <= 7000.
Proof.
  assert (H0 : 0 <= INITIAL_BACKOFF CONFIG) by (cbn; lia).
  assert (H1 : 0 <= MAX_RETRIES CONFIG) by (cbn; lia).
  split; [exact H0|]. split; [exact H1|].
  exact (getHeaders_backoff_is_bounded World.parseURL CONFIG World.flaky_net
           "https://a.example/new" H0 H1).
Defined.

(** A run that ends in a valid outcome: one permanent redirect to the wanted
    destination, which answers 200. *)
Lemma checkURL_valid_means_one_permanent_hop_witness :
  exists o tr,
    run (World.scripted [Response 301 (Some "https://a.example/new"%string)])
      (checkURL World.parseURL CONFIG "http://a.example/old"
         "https://a.example/new" (MAX_REDIRECTIONS CONFIG)) 0
    = (inr o, tr)
    /\ is_valid o = true
    /\ redirectCounter o = 1
    /\ code o = 200
    /\ dest_actual o = Some "https://a.example/new"%string
    /\ exists hop,
         redirectsList o = [hop]
         /\ hop_location hop = Some "https://a.example/new"%string
         /\ In (hop_code hop) (take 2 (PERMANENT_REDIRECT CONFIG)).
Proof.
  eassert (Hrun :
    run (World.scripted [Response 301 (Some "https://a.example/new"%string)])
      (checkURL World.parseURL CONFIG "http://a.example/old"
         "https://a.example/new" (MAX_REDIRECTIONS CONFIG)) 0
    = (inr (World.outcome "http://a.example/old" true), _))
    by (vm_compute; reflexivity).
  pose proof (checkURL_valid_means_one_permanent_hop World.parseURL CONFIG
                "http://a.example/old" "https://a.example/new"
                (MAX_REDIRECTIONS CONFIG)) as Hall.
  pose proof (all_rets_run _ _ _ _ _ _ Hall Hrun) as H.
  cbv beta in H.
  eexists _, _. split; [exact Hrun|]. split; [reflexivity|].
  exact (H eq_refl).
Defined.

(** The same redirect under a limit of one hop: the outcome is invalid. *)
Lemma checkURL_needs_a_limit_of_two_witness :
  1 <= 1
  /\ exists o tr,
       run (World.scripted [Response 301 (Some "https://a.example/new"%string)])
         (checkURL World.parseURL CONFIG "http://a.example/old"
            "https://a.example/new" 1) 0
       = (inr o, tr)
       /\ redirectCounter o = 1
       /\ is_valid o = false.
Proof.
  assert (H1 : 1 <= 1) by lia.
  split; [exact H1|].
  eassert (Hrun :
    run (World.scripted [Response 301 (Some "https://a.example/new"%string)])
      (checkURL World.parseURL CONFIG "http://a.example/old"
         "https://a.example/new" 1) 0
    = (inr _, _)) by (vm_compute; reflexivity).
  pose proof (checkURL_needs_a_limit_of_two World.parseURL CONFIG
                "http://a.example/old" "https://a.example/new" 1 H1) as Hall.
  pose proof (all_rets_run _ _ _ _ _ _ Hall Hrun) as H.
  cbv beta in H.
  eexists _, _. split; [exact Hrun|]. split; [reflexivity|exact H].
Defined.


(** The run of the one-row file to its end: the two responses and the timer
    of the pause fire, nothing is rejected, and the report is written. *)
Lemma one_row_run :
  exists s,
    reachable World.parseURL World.localeCompare CONFIG World.one_hop_net
      World.one_row_file s
    /\ phase s = Finished
    /\ no_rejection s
    /\ length (requests s) = 2%nat
    /\ length (urls (report s)) = 1%nat
    /\ exists w, written s = Some w.
Proof.
  eassert (Hobs :
    run_events World.parseURL World.localeCompare CONFIG World.one_hop_net
      (stream_rows World.one_row_file) [0%nat; 0%nat; 0%nat]
      (main World.parseURL World.localeCompare CONFIG World.one_hop_net
         World.one_row_file)
    ≫= (fun s => Some (phase s, console s, length (requests s),
                       length (urls (report s)), written s))
    = Some (Finished, _, 2%nat, 1%nat, Some _))
    by (vm_compute; reflexivity).
  destruct (run_events _ _ _ _ _ _ _) as [s|] eqn:Hrun; [|discriminate].
  injection Hobs as Hph Hcon Hreq Hurls Hw.
  exists s. split.
  { eapply run_events_reachable; [apply reachable_main|exact Hrun]. }
  split; [exact Hph|]. split.
  { unfold no_rejection. rewrite Hcon. repeat constructor. }
  split; [exact Hreq|]. split; [exact Hurls|]. eexists. exact Hw.
Qed.

Lemma every_request_is_a_get_witness :
  exists s,
    reachable World.parseURL World.localeCompare CONFIG World.one_hop_net
      World.one_row_file s
    /\ length (requests s) = 2%nat
    /\ Forall (fun r =>
                 well_formed_request CONFIG (req_handler r) (req_options r))
         (requests s).
Proof.
  destruct one_row_run as (s & Hreach & _ & _ & Hreq & _).
  exists s. split; [exact Hreach|]. split; [exact Hreq|].
  exact (every_request_is_a_get World.parseURL World.localeCompare CONFIG
           World.one_hop_net World.one_row_file s Hreach).
Defined.

Lemma every_outcome_comes_from_a_row_witness :
  exists s,
    reachable World.parseURL World.localeCompare CONFIG World.one_hop_net
      World.one_row_file s
    /\ length (urls (report s)) = 1%nat
    /\ Forall (from_row CONFIG (stream_rows World.one_row_file))
         (urls (report s)).
Proof.
  destruct one_row_run as (s & Hreach & _ & _ & _ & Hurls & _).
  exists s. split; [exact Hreach|]. split; [exact Hurls|].
  exact (every_outcome_comes_from_a_row World.parseURL World.localeCompare
           CONFIG World.one_hop_net World.one_row_file s Hreach).
Defined.

Lemma counters_count_by_verdict_witness :
  exists s,
    reachable World.parseURL World.localeCompare CONFIG World.one_hop_net
      World.one_row_file s
    /\ length (urls (report s)) = 1%nat
    /\ counted_by_verdict (report s).
Proof.
  destruct one_row_run as (s & Hreach & _ & _ & _ & Hurls & _).
  exists s. split; [exact Hreach|]. split; [exact Hurls|].
  exact (counters_count_by_verdict World.parseURL World.localeCompare CONFIG
           World.one_hop_net World.one_row_file s Hreach).
Defined.

(** The second turn of the one-row run: the destination answers and the
    outcome of the row is recorded, the one outcome of that turn. *)
Lemma each_turn_records_at_most_one_outcome_witness :
  exists s s' o,
    reachable World.parseURL World.localeCompare CONFIG World.one_hop_net
      World.one_row_file s
    /\ step World.parseURL World.localeCompare CONFIG World.one_hop_net
         (stream_rows World.one_row_file) 0 s = Some s'
    /\ urls (report s) = []
    /\ report s' = record_outcome o (report s)
    /\ urls (report s') = [o].
Proof.
  assert (Hobs0 :
    step World.parseURL World.localeCompare CONFIG World.one_hop_net
      (stream_rows World.one_row_file) 0
      (main World.parseURL World.localeCompare CONFIG World.one_hop_net
         World.one_row_file)
    ≫= (fun s => Some (length (urls (report s))))
    = Some 0%nat) by (vm_compute; reflexivity).
  assert (Hobs1 :
    (step World.parseURL World.localeCompare CONFIG World.one_hop_net
       (stream_rows World.one_row_file) 0
       (main World.parseURL World.localeCompare CONFIG World.one_hop_net
          World.one_row_file)
     ≫= step World.parseURL World.localeCompare CONFIG World.one_hop_net
          (stream_rows World.one_row_file) 0)
    ≫= (fun s => Some (length (urls (report s))))
    = Some 1%nat) by (vm_compute; reflexivity).
  destruct (step World.parseURL World.localeCompare CONFIG World.one_hop_net
              (stream_rows World.one_row_file) 0
              (main World.parseURL World.localeCompare CONFIG
                 World.one_hop_net World.one_row_file))
    as [s|] eqn:Hstep0; [|discriminate].
  injection Hobs0 as Hlen0. cbn [mbind option_bind] in Hobs1.
  destruct (step World.parseURL World.localeCompare CONFIG World.one_hop_net
              (stream_rows World.one_row_file) 0 s)
    as [s'|] eqn:Hstep1; [|discriminate].
  injection Hobs1 as Hlen1.
  assert (Hnil : urls (report s) = [])
    by (destruct (urls (report s)); [reflexivity|discriminate]).
  destruct (proj1 (each_turn_records_at_most_one_outcome World.parseURL
                     World.localeCompare CONFIG World.one_hop_net
                     _ _ _ _ Hstep1)) as [Hsame|[o Ho]].
  - rewrite Hsame, Hnil in Hlen1. discriminate.
  - exists s, s', o. split.
    { eapply reachable_step; [apply reachable_main|exact Hstep0]. }
    split; [exact Hstep1|]. split; [exact Hnil|]. split; [exact Ho|].
    rewrite Ho. cbn. rewrite Hnil. reflexivity.
Defined.

Lemma report_is_written_once_witness :
  exists s w,
    reachable World.parseURL World.localeCompare CONFIG World.one_hop_net
      World.one_row_file s
    /\ written s = Some w
    /\ phase s = Finished
    /\ (exists os, written_from World.localeCompare w (report s) os)
    /\ (forall k s',
          step World.parseURL World.localeCompare CONFIG World.one_hop_net
            (stream_rows World.one_row_file) k s = Some s' ->
          written s' = Some w /\ phase s' = Finished).
Proof.
  destruct one_row_run as (s & Hreach & _ & _ & _ & _ & w & Hw).
  exists s, w. split; [exact Hreach|]. split; [exact Hw|].
  exact (report_is_written_once World.parseURL World.localeCompare CONFIG
           World.one_hop_net World.one_row_file s w Hreach Hw).
Defined.


(** Sixteen rows on the slow network, when the timer of the first pause has
    fired: the requests of the second chunk were issued two seconds after
    the start. *)
Lemma chunks_are_spaced_by_the_delay_witness :
  (0 < CHUNK_SIZE CONFIG)%nat
  /\ exists s,
       reachable World.parseURL World.localeCompare CONFIG World.slow_net
         World.sixteen_row_file s
       /\ chunk_started 8 s = true
       /\ Forall (fun r =>
                    Z.of_nat (req_chunk r / CHUNK_SIZE CONFIG)
                    * CHUNK_DELAY CONFIG <= req_time r) (requests s).
Proof.
  assert (Hc : (0 < CHUNK_SIZE CONFIG)%nat) by (cbn; lia).
  split; [exact Hc|].
  assert (Hobs :
    run_events World.parseURL World.localeCompare CONFIG World.slow_net
      World.sixteen_rows [7%nat]
      (main World.parseURL World.localeCompare CONFIG World.slow_net
         World.sixteen_row_file)
    ≫= (fun s => Some (chunk_started 8 s))
    = Some true) by (vm_compute; reflexivity).
  destruct (run_events _ _ _ _ _ _ _) as [s|] eqn:Hrun; [|discriminate].
  injection Hobs as Hst.
  assert (Hreach : reachable World.parseURL World.localeCompare CONFIG
                     World.slow_net World.sixteen_row_file s).
  { eapply (run_events_reachable _ _ _ _ World.sixteen_row_file);
      [apply reachable_main|exact Hrun]. }
  exists s. split; [exact Hreach|]. split; [exact Hst|].
  exact (chunks_are_spaced_by_the_delay World.parseURL World.localeCompare
           CONFIG World.slow_net World.sixteen_row_file s Hc Hreach).
Defined.

(** A file whose only row has no [src] column, run to its end. *)
Lemma no_usable_row_no_request_witness :
  Forall (fun item => missing_urls CONFIG item = true)
    (stream_rows World.file_without_src)
  /\ exists s,
       reachable World.parseURL World.localeCompare CONFIG World.slow_net
         World.file_without_src s
       /\ phase s = Finished
       /\ requests s = []
       /\ report s = empty_report.
Proof.
  assert (Hrows : Forall (fun item => missing_urls CONFIG item = true)
                    (stream_rows World.file_without_src)).
  { repeat constructor. }
  split; [exact Hrows|].
  assert (Hobs :
    run_events World.parseURL World.localeCompare CONFIG World.slow_net
      (stream_rows World.file_without_src) [0%nat]
      (main World.parseURL World.localeCompare CONFIG World.slow_net
         World.file_without_src)
    ≫= (fun s => Some (phase s))
    = Some Finished) by (vm_compute; reflexivity).
  destruct (run_events _ _ _ _ _ _ _) as [s|] eqn:Hrun; [|discriminate].
  injection Hobs as Hph.
  assert (Hreach : reachable World.parseURL World.localeCompare CONFIG
                     World.slow_net World.file_without_src s).
  { eapply run_events_reachable; [apply reachable_main|exact Hrun]. }
  exists s. split; [exact Hreach|]. split; [exact Hph|].
  exact (no_usable_row_no_request World.parseURL World.localeCompare CONFIG
           World.slow_net World.file_without_src s Hrows Hreach).
Defined.

(** Nine rows on the quick network, when the eight resolutions of the first
    chunk have settled and the timer of the pause has fired: the request of
    the ninth row is open, alone. *)
Lemma sequential_without_rejection_witness :
  exists s,
    reachable World.parseURL World.localeCompare CONFIG World.quick_net
      World.nine_row_file s
    /\ no_rejection s
    /\ now s = 2100
    /\ length (urls (report s)) = 8%nat
    /\ in_flight 8 s = true
    /\ chunk_started 8 s = true
    /\ chunks_sequential s
    /\ (resolutions_in_flight s <= CHUNK_SIZE CONFIG)%nat.
Proof.
  eassert (Hobs :
    run_events World.parseURL World.localeCompare CONFIG World.quick_net
      (stream_rows World.nine_row_file)
      [0; 0; 0; 0; 0; 0; 0; 0; 0]%nat
      (main World.parseURL World.localeCompare CONFIG World.quick_net
         World.nine_row_file)
    ≫= (fun s => Some (console s, now s, length (urls (report s)),
                       in_flight 8 s, chunk_started 8 s))
    = Some (_, 2100, 8%nat, true, true)) by (vm_compute; reflexivity).
  destruct (run_events _ _ _ _ _ _ _) as [s|] eqn:Hrun; [|discriminate].
  injection Hobs as Hcon Hnow Hlen Hfl Hst.
  assert (Hreach : reachable World.parseURL World.localeCompare CONFIG
                     World.quick_net World.nine_row_file s).
  { eapply run_events_reachable; [apply reachable_main|exact Hrun]. }
  assert (Hq : no_rejection s).
  { unfold no_rejection. rewrite Hcon. repeat constructor. }
  exists s. split; [exact Hreach|]. split; [exact Hq|]. split; [exact Hnow|].
  split; [exact Hlen|]. split; [exact Hfl|]. split; [exact Hst|].
  exact (sequential_without_rejection World.parseURL World.localeCompare
           CONFIG World.quick_net World.nine_row_file s Hreach Hq).
Defined.

(** Nine rows on the quick network, run to the end: eleven turns, eight
    responses, the timer of the pause, the ninth response and the timer
    again, out of at most 271. *)
Lemma every_run_ends_witness :
  (0 < CHUNK_SIZE CONFIG)%nat
  /\ exists s,
       run_events World.parseURL World.localeCompare CONFIG World.quick_net
         (stream_rows World.nine_row_file)
         [0; 0; 0; 0; 0; 0; 0; 0; 0; 0; 0]%nat
         (main World.parseURL World.localeCompare CONFIG World.quick_net
            World.nine_row_file)
       = Some s
       /\ phase s = Finished
       /\ pending s = []
       /\ (length [0; 0; 0; 0; 0; 0; 0; 0; 0; 0; 0]%nat
           <= turns_bound CONFIG (length (stream_rows World.nine_row_file)))%nat
       /\ turns_bound CONFIG (length (stream_rows World.nine_row_file))
          = 271%nat.
Proof.
  assert (Hc : (0 < CHUNK_SIZE CONFIG)%nat) by (cbn; lia).
  split; [exact Hc|].
  assert (Hobs :
    run_events World.parseURL World.localeCompare CONFIG World.quick_net
      (stream_rows World.nine_row_file)
      [0; 0; 0; 0; 0; 0; 0; 0; 0; 0; 0]%nat
      (main World.parseURL World.localeCompare CONFIG World.quick_net
         World.nine_row_file)
    ≫= (fun s => Some (phase s, length (pending s)))
    = Some (Finished, 0%nat)) by (vm_compute; reflexivity).
  destruct (run_events _ _ _ _ _ _ _) as [s|] eqn:Hrun; [|discriminate].
  injection Hobs as Hph Hlen.
  exists s. split; [reflexivity|]. split; [exact Hph|].
  split; [destruct (pending s); [reflexivity|discriminate]|].
  split; [|reflexivity].
  exact (every_run_ends World.parseURL World.localeCompare CONFIG
           World.quick_net World.nine_row_file _ s Hc Hrun).
Defined.

(** Sixteen rows on the slow network, after the timer of the first pause:
    [main] awaits the second chunk, whose eight requests are open beside the
    seven still open of the first. *)
Lemma main_waits_only_for_what_is_pending_witness :
  (0 < CHUNK_SIZE CONFIG)%nat
  /\ exists s,
       reachable World.parseURL World.localeCompare CONFIG World.slow_net
         World.sixteen_row_file s
       /\ phase s = AwaitingAll 8 8
       /\ length (pending s) = 15%nat
       /\ awaited 8 s = 8%nat
       /\ exit_code s = None.
Proof.
  assert (Hc : (0 < CHUNK_SIZE CONFIG)%nat) by (cbn; lia).
  split; [exact Hc|].
  assert (Hobs :
    run_events World.parseURL World.localeCompare CONFIG World.slow_net
      World.sixteen_rows [7%nat]
      (main World.parseURL World.localeCompare CONFIG World.slow_net
         World.sixteen_row_file)
    ≫= (fun s => Some (phase s, length (pending s)))
    = Some (AwaitingAll 8 8, 15%nat)) by (vm_compute; reflexivity).
  destruct (run_events _ _ _ _ _ _ _) as [s|] eqn:Hrun; [|discriminate].
  injection Hobs as Hph Hlen.
  assert (Hreach : reachable World.parseURL World.localeCompare CONFIG
                     World.slow_net World.sixteen_row_file s).
  { eapply (run_events_reachable _ _ _ _ World.sixteen_row_file);
      [apply reachable_main|exact Hrun]. }
  exists s. split; [exact Hreach|]. split; [exact Hph|]. split; [exact Hlen|].
  pose proof (proj1 (main_waits_only_for_what_is_pending World.parseURL
                       World.localeCompare CONFIG World.slow_net
                       World.sixteen_row_file s Hc Hreach)) as H.
  rewrite Hph in H. destruct H as (_ & Haw & Hex). auto.
Defined.

(** The one-row file under a chunk size of zero, after the timer of the
    pause has fired twice. *)
Lemma zero_chunk_size_never_finishes_witness :
  CHUNK_SIZE World.no_chunks = 0%nat
  /\ stream_error World.one_row_file = None
  /\ stream_rows World.one_row_file <> []
  /\ exists s,
       reachable World.parseURL World.localeCompare World.no_chunks
         World.one_hop_net World.one_row_file s
       /\ now s = 4000
       /\ phase s = Delaying 0
       /\ requests s = []
       /\ written s = None
       /\ exists s',
            step World.parseURL World.localeCompare World.no_chunks
              World.one_hop_net (stream_rows World.one_row_file) 0 s
            = Some s'.
Proof.
  assert (H0 : CHUNK_SIZE World.no_chunks = 0%nat) by reflexivity.
  assert (H1 : stream_error World.one_row_file = None) by reflexivity.
  assert (H2 : stream_rows World.one_row_file <> []) by discriminate.
  split; [exact H0|]. split; [exact H1|]. split; [exact H2|].
  assert (Hobs :
    run_events World.parseURL World.localeCompare World.no_chunks
      World.one_hop_net (stream_rows World.one_row_file) [0%nat; 0%nat]
      (main World.parseURL World.localeCompare World.no_chunks
         World.one_hop_net World.one_row_file)
    ≫= (fun s => Some (now s))
    = Some 4000) by (vm_compute; reflexivity).
  destruct (run_events _ _ _ _ _ _ _) as [s|] eqn:Hrun; [|discriminate].
  injection Hobs as Hnow.
  assert (Hreach : reachable World.parseURL World.localeCompare
                     World.no_chunks World.one_hop_net World.one_row_file s).
  { eapply run_events_reachable; [apply reachable_main|exact Hrun]. }
  exists s. split; [exact Hreach|]. split; [exact Hnow|].
  exact (zero_chunk_size_never_finishes World.parseURL World.localeCompare
           World.no_chunks World.one_hop_net World.one_row_file s
           H0 H1 H2 Hreach).
Defined.


(** The run of the one-row file. The first turn brings the redirect and
    leaves the report empty; the second brings the answer of the destination
    and fulfils the resolution: in that one turn the counts go from 0, 0, 0
    to one valid out of one, and the outcome is appended. *)
Lemma report_counts_hold_in_every_state_witness :
  exists s s' o,
    reachable World.parseURL World.localeCompare CONFIG World.one_hop_net
      World.one_row_file s
    /\ step World.parseURL World.localeCompare CONFIG World.one_hop_net
         (stream_rows World.one_row_file) 0 s = Some s'
    /\ result (report s) = {| valid := 0; invalid := 0; total := 0 |}
    /\ result (report s') = {| valid := 1; invalid := 0; total := 1 |}
    /\ recorded o (report s) (report s')
    /\ is_valid o = true
    /\ counts_hold s'.
Proof.
  assert (Hobs0 :
    step World.parseURL World.localeCompare CONFIG World.one_hop_net
      (stream_rows World.one_row_file) 0
      (main World.parseURL World.localeCompare CONFIG World.one_hop_net
         World.one_row_file)
    ≫= (fun s => Some (result (report s)))
    = Some {| valid := 0; invalid := 0; total := 0 |})
    by (vm_compute; reflexivity).
  assert (Hobs1 :
    (step World.parseURL World.localeCompare CONFIG World.one_hop_net
       (stream_rows World.one_row_file) 0
       (main World.parseURL World.localeCompare CONFIG World.one_hop_net
          World.one_row_file)
     ≫= step World.parseURL World.localeCompare CONFIG World.one_hop_net
          (stream_rows World.one_row_file) 0)
    ≫= (fun s => Some (result (report s)))
    = Some {| valid := 1; invalid := 0; total := 1 |})
    by (vm_compute; reflexivity).
  destruct (step World.parseURL World.localeCompare CONFIG World.one_hop_net
              (stream_rows World.one_row_file) 0
              (main World.parseURL World.localeCompare CONFIG
                 World.one_hop_net World.one_row_file))
    as [s|] eqn:Hstep0; [|discriminate].
  injection Hobs0 as Hres0. cbn [mbind option_bind] in Hobs1.
  destruct (step World.parseURL World.localeCompare CONFIG World.one_hop_net
              (stream_rows World.one_row_file) 0 s)
    as [s'|] eqn:Hstep1; [|discriminate].
  injection Hobs1 as Hres1.
  assert (Hreach : reachable World.parseURL World.localeCompare CONFIG
                     World.one_hop_net World.one_row_file s).
  { eapply reachable_step; [apply reachable_main|exact Hstep0]. }
  assert (Hreach' : reachable World.parseURL World.localeCompare CONFIG
                      World.one_hop_net World.one_row_file s').
  { eapply reachable_step; [exact Hreach|exact Hstep1]. }
  destruct (pending s !! 0%nat) as [ev|] eqn:Hk;
    [|unfold step in Hstep1; rewrite Hk in Hstep1;
      destruct (exit_code s); discriminate].
  pose proof (proj2 (report_counts_hold_in_every_state World.parseURL
                       World.localeCompare CONFIG World.one_hop_net)
                _ _ _ _ _ Hstep1 Hk) as Hturn.
  pose proof (proj1 (report_counts_hold_in_every_state World.parseURL
                       World.localeCompare CONFIG World.one_hop_net)
                _ _ Hreach') as Hcounts.
  assert (Hne : report s' <> report s).
  { intros Heq. rewrite Heq, Hres0 in Hres1. discriminate. }
  destruct (job ev) as [i p|]; [|contradiction].
  destruct (drive World.one_hop_net i p (at_event 0 ev s)).2 as [|o|e];
    [contradiction| |contradiction].
  exists s, s', o. split; [exact Hreach|]. split; [exact Hstep1|].
  split; [exact Hres0|]. split; [exact Hres1|]. split; [exact Hturn|].
  split; [|exact Hcounts].
  destruct Hturn as (_ & Hv & _). rewrite Hres0, Hres1 in Hv. cbn in Hv.
  destruct (is_valid o); [reflexivity|discriminate].
Defined.
